(** * Loop closing of ORB_SLAM2_Refactored: a shallow embedding of
    [src/LoopClosing.cc] and the properties of its detector, corrector,
    global bundle adjustment task and main loop.

    Pointers to keyframes and map points are addresses ([nat]); the objects
    behind them live in a heap that is passed explicitly.  Calls into
    collaborators whose code is outside [LoopClosing.cc] are either recorded
    in a call log ([event]) or taken as parameters of the model. *)

From Stdlib Require Import ZArith QArith List Bool Lia Sorted.
From stdpp Require Import base tactics option numbers list functions gmap sets.

Open Scope Z_scope.

(** ** Machine integers *)

Module Int.

(** A C++ [int] is 32 bits wide; [to_int] is the conversion of an integer
    value to [int] (the cast [(int)x], and what an [int] operation leaves
    after wrap-around). *)
Definition INT_MIN : Z := - 2 ^ 31.
Definition INT_MAX : Z := 2 ^ 31 - 1.

Definition to_int (z : Z) : Z := (z + 2 ^ 31) mod 2 ^ 32 - 2 ^ 31.

Definition in_int (z : Z) : Prop := INT_MIN <= z <= INT_MAX.

(** [a + b] on [int]. *)
Definition add (a b : Z) : Z := to_int (a + b).

(** [x++] on [int]. *)
Definition incr (a : Z) : Z := add a 1.

End Int.

(** ** Single-precision numbers *)

Module Float.

(** [static_cast<float>(x)] for a finite [double] [x], as a rational: the
    nearest number [m * 2^e] with [|m| < 2^24] and [e >= -149], ties to
    the even [m] (IEEE 754 binary32, round to nearest even, with
    subnormals).  Beyond the largest [float] the cast gives an infinity;
    the model keeps the rounded value with an unbounded exponent, which is
    above every [float] as well. *)
Definition round_half_even (num den : Z) : Z :=
  let fl := num / den in
  let rem := num mod den in
  match 2 * rem ?= den with
  | Lt => fl
  | Gt => fl + 1
  | Eq => if Z.even fl then fl else fl + 1
  end.

(** [floor (log2 (n / d))] for positive [n] and [d]. *)
Definition floor_log2 (n d : Z) : Z :=
  let e0 := Z.log2 n - Z.log2 d in
  let ge := if 0 <=? e0 then d * 2 ^ e0 <=? n else d <=? n * 2 ^ (- e0) in
  if ge then e0 else e0 - 1.

Definition to_float_pos (n d : Z) : Q :=
  let e := Z.max (floor_log2 n d) (-126) in
  let qe := e - 23 in
  let r := if 0 <=? qe then round_half_even n (d * 2 ^ qe)
           else round_half_even (n * 2 ^ (- qe)) d in
  if 0 <=? qe then Qmake (r * 2 ^ qe) 1 else Qmake r (Z.to_pos (2 ^ (- qe))).

Definition to_float (x : Q) : Q :=
  match Qnum x with
  | Z0 => 0%Q
  | Zpos n => to_float_pos (Zpos n) (Zpos (Qden x))
  | Zneg n => Qopp (to_float_pos (Zpos n) (Zpos (Qden x)))
  end.

End Float.

(** ** Pointers *)

(** [KeyFrame*] and [MapPoint*]: the address identifies the object. *)
Definition KFptr := nat.
Definition MPptr := nat.

(** ** Geometry *)

(** [CameraPose], [Sim3] and [Point3D] are declared outside
    [LoopClosing.cc]; the model takes the types and the operations the
    source applies to them as an interface. *)
Class Geometry := {
  Rot : Type;
  Vec3 : Type;
  Scalar : Type;
  CameraPose : Type;
  Sim3 : Type;
  (* CameraPose(R, t), .R(), .t(), operator*, .Inverse() *)
  pose_make : Rot -> Vec3 -> CameraPose;
  pose_R : CameraPose -> Rot;
  pose_t : CameraPose -> Vec3;
  pose_mul : CameraPose -> CameraPose -> CameraPose;
  pose_inv : CameraPose -> CameraPose;
  (* Sim3(), Sim3(CameraPose), operator*, .Inverse(), .Map(p), .R(), .t(), .Scale() *)
  sim3_default : Sim3;
  sim3_of_pose : CameraPose -> Sim3;
  sim3_mul : Sim3 -> Sim3 -> Sim3;
  sim3_inv : Sim3 -> Sim3;
  sim3_map : Sim3 -> Vec3 -> Vec3;
  sim3_R : Sim3 -> Rot;
  sim3_t : Sim3 -> Vec3;
  sim3_scale : Sim3 -> Scalar;
  (* R * p, p + q, 1. / s, s * t *)
  rot_apply : Rot -> Vec3 -> Vec3;
  vec_add : Vec3 -> Vec3 -> Vec3;
  scalar_inv : Scalar -> Scalar;
  scalar_mul : Scalar -> Vec3 -> Vec3
}.

(** The free interpretation: every operation builds the term that names it.
    An equation between two results that holds here holds whatever the
    arithmetic behind the operations is. *)
Module Symbolic.

Inductive term : Type :=
| Atom (n : nat)
| Op1 (f : nat) (a : term)
| Op2 (f : nat) (a b : term).

#[export] Instance term_eq_dec : EqDecision term.
Proof. solve_decision. Defined.

#[export] Instance geometry : Geometry := {|
  Rot := term; Vec3 := term; Scalar := term; CameraPose := term; Sim3 := term;
  pose_make := Op2 0;
  pose_R := Op1 1;
  pose_t := Op1 2;
  pose_mul := Op2 3;
  pose_inv := Op1 4;
  sim3_default := Atom 0;
  sim3_of_pose := Op1 5;
  sim3_mul := Op2 6;
  sim3_inv := Op1 7;
  sim3_map := Op2 8;
  sim3_R := Op1 9;
  sim3_t := Op1 10;
  sim3_scale := Op1 11;
  rot_apply := Op2 12;
  vec_add := Op2 13;
  scalar_inv := Op1 14;
  scalar_mul := Op2 15
|}.

End Symbolic.

(** ** Keyframes, map points and the map *)

Section Heap.
Context {G : Geometry}.

(** The members of [KeyFrame] that [LoopClosing.cc] reads or writes.
    [kf_covisible] is [GetVectorCovisibleKeyFrames()], [kf_connected] is
    [GetConnectedKeyFrames()], [kf_children] is [GetChildren()],
    [kf_mapPoints] is [GetMapPointMatches()] (a null slot is [None]). *)
Record KeyFrame := {
  kf_id : Z;
  kf_isBad : bool;
  kf_pose : CameraPose;
  kf_TcwGBA : CameraPose;
  kf_TcwBefGBA : CameraPose;
  kf_BAGlobalForKF : Z;
  kf_covisible : list KFptr;
  kf_connected : gset KFptr;
  kf_children : list KFptr;
  kf_mapPoints : list (option MPptr)
}.

(** The members of [MapPoint] that [LoopClosing.cc] reads or writes. *)
Record MapPoint := {
  mp_isBad : bool;
  mp_worldPos : Vec3;
  mp_posGBA : Vec3;
  mp_BAGlobalForKF : Z;
  mp_loopPointForKF : Z;
  mp_correctedByKF : Z;
  mp_correctedReference : Z;
  mp_referenceKF : KFptr
}.

(** The shared map: both object pools, [keyFrameOrigins],
    [GetAllMapPoints()] and the big-change index. *)
Record World := {
  kfs : KFptr -> KeyFrame;
  mps : MPptr -> MapPoint;
  keyFrameOrigins : list KFptr;
  allMapPoints : list MPptr;
  bigChangeId : Z
}.

Definition set_kf (k : KFptr) (x : KeyFrame) (w : World) : World :=
  {| kfs := <[k := x]> (kfs w); mps := mps w;
     keyFrameOrigins := keyFrameOrigins w; allMapPoints := allMapPoints w;
     bigChangeId := bigChangeId w |}.

Definition set_mp (p : MPptr) (x : MapPoint) (w : World) : World :=
  {| kfs := kfs w; mps := <[p := x]> (mps w);
     keyFrameOrigins := keyFrameOrigins w; allMapPoints := allMapPoints w;
     bigChangeId := bigChangeId w |}.

(** [keyframe->SetPose(T)] *)
Definition SetPose (T : CameraPose) (x : KeyFrame) : KeyFrame :=
  {| kf_id := kf_id x; kf_isBad := kf_isBad x; kf_pose := T;
     kf_TcwGBA := kf_TcwGBA x; kf_TcwBefGBA := kf_TcwBefGBA x;
     kf_BAGlobalForKF := kf_BAGlobalForKF x; kf_covisible := kf_covisible x;
     kf_connected := kf_connected x; kf_children := kf_children x;
     kf_mapPoints := kf_mapPoints x |}.

(** [mappoint->SetWorldPos(p)] *)
Definition SetWorldPos (p : Vec3) (x : MapPoint) : MapPoint :=
  {| mp_isBad := mp_isBad x; mp_worldPos := p; mp_posGBA := mp_posGBA x;
     mp_BAGlobalForKF := mp_BAGlobalForKF x;
     mp_loopPointForKF := mp_loopPointForKF x;
     mp_correctedByKF := mp_correctedByKF x;
     mp_correctedReference := mp_correctedReference x;
     mp_referenceKF := mp_referenceKF x |}.

(** [mappoint->loopPointForKF = id] *)
Definition set_loopPointForKF (id : Z) (x : MapPoint) : MapPoint :=
  {| mp_isBad := mp_isBad x; mp_worldPos := mp_worldPos x;
     mp_posGBA := mp_posGBA x; mp_BAGlobalForKF := mp_BAGlobalForKF x;
     mp_loopPointForKF := id;
     mp_correctedByKF := mp_correctedByKF x;
     mp_correctedReference := mp_correctedReference x;
     mp_referenceKF := mp_referenceKF x |}.

(** [child->TcwGBA = T; child->BAGlobalForKF = id] *)
Definition set_TcwGBA (T : CameraPose) (id : Z) (x : KeyFrame) : KeyFrame :=
  {| kf_id := kf_id x; kf_isBad := kf_isBad x; kf_pose := kf_pose x;
     kf_TcwGBA := T; kf_TcwBefGBA := kf_TcwBefGBA x;
     kf_BAGlobalForKF := id; kf_covisible := kf_covisible x;
     kf_connected := kf_connected x; kf_children := kf_children x;
     kf_mapPoints := kf_mapPoints x |}.

(** [keyframe->TcwBefGBA = T] *)
Definition set_TcwBefGBA (T : CameraPose) (x : KeyFrame) : KeyFrame :=
  {| kf_id := kf_id x; kf_isBad := kf_isBad x; kf_pose := kf_pose x;
     kf_TcwGBA := kf_TcwGBA x; kf_TcwBefGBA := T;
     kf_BAGlobalForKF := kf_BAGlobalForKF x; kf_covisible := kf_covisible x;
     kf_connected := kf_connected x; kf_children := kf_children x;
     kf_mapPoints := kf_mapPoints x |}.

(** Modelled from the spec: [Map::InformNewBigChange] is declared in
    [Map.h] and defined outside the sources at hand; it bumps the map's
    big-change counter ([int bigChangeId_]). *)
Definition InformNewBigChange (w : World) : World :=
  {| kfs := kfs w; mps := mps w; keyFrameOrigins := keyFrameOrigins w;
     allMapPoints := allMapPoints w; bigChangeId := Int.incr (bigChangeId w) |}.

(** [mappoint->correctedByKF = byKF; mappoint->correctedReference = ref] *)
Definition set_corrected (byKF ref : Z) (x : MapPoint) : MapPoint :=
  {| mp_isBad := mp_isBad x; mp_worldPos := mp_worldPos x;
     mp_posGBA := mp_posGBA x; mp_BAGlobalForKF := mp_BAGlobalForKF x;
     mp_loopPointForKF := mp_loopPointForKF x;
     mp_correctedByKF := byKF;
     mp_correctedReference := ref;
     mp_referenceKF := mp_referenceKF x |}.

(** The links of a keyframe in the covisibility graph and the spanning
    tree. *)
Record Connections := {
  c_covisible : list KFptr;
  c_connected : gset KFptr;
  c_children : list KFptr
}.

Definition set_connections (c : Connections) (x : KeyFrame) : KeyFrame :=
  {| kf_id := kf_id x; kf_isBad := kf_isBad x; kf_pose := kf_pose x;
     kf_TcwGBA := kf_TcwGBA x; kf_TcwBefGBA := kf_TcwBefGBA x;
     kf_BAGlobalForKF := kf_BAGlobalForKF x; kf_covisible := c_covisible c;
     kf_connected := c_connected c; kf_children := c_children c;
     kf_mapPoints := kf_mapPoints x |}.

(** Modelled from the spec: [KeyFrame::UpdateConnections] is defined
    outside the sources at hand; it refreshes the covisibility links.
    [links w k k'] are the links of [k'] once [k->UpdateConnections()] has
    run on [w]; nothing but links is written. *)
Definition UpdateConnections (links : World -> KFptr -> KFptr -> Connections)
    (k : KFptr) (w : World) : World :=
  {| kfs := fun k' => set_connections (links w k k') (kfs w k');
     mps := mps w; keyFrameOrigins := keyFrameOrigins w;
     allMapPoints := allMapPoints w; bigChangeId := bigChangeId w |}.

(** Modelled from the spec: [KeyFrame::AddMapPoint(mappoint, i)] is defined
    outside the sources at hand; it puts the point at feature slot [i]. *)
Definition AddMapPoint (p : MPptr) (i : nat) (x : KeyFrame) : KeyFrame :=
  {| kf_id := kf_id x; kf_isBad := kf_isBad x; kf_pose := kf_pose x;
     kf_TcwGBA := kf_TcwGBA x; kf_TcwBefGBA := kf_TcwBefGBA x;
     kf_BAGlobalForKF := kf_BAGlobalForKF x; kf_covisible := kf_covisible x;
     kf_connected := kf_connected x; kf_children := kf_children x;
     kf_mapPoints := <[i := Some p]> (kf_mapPoints x) |}.

End Heap.

(** ** The call log *)

(** The calls to collaborators whose effect is not a member of the model,
    in program order: the cull guard of a keyframe, the keyframe database,
    the local mapper, recomputations inside a map point, loop edges and
    threads. *)
Inductive event : Type :=
| EvSetNotErase (k : KFptr)
| EvSetErase (k : KFptr)
| EvDetectLoopCandidates (k : KFptr)
| EvDBAdd (k : KFptr)
| EvRequestStop
| EvWaitStopped
| EvRelease
| EvUpdateNormalAndDepth (p : MPptr)
| EvAddObservation (p : MPptr) (k : KFptr) (i : nat)
| EvComputeDistinctiveDescriptors (p : MPptr)
| EvAddLoopEdge (k k' : KFptr)
| EvThreadSpawn (loopKFId : Z)
| EvThreadDetach.

#[export] Instance event_eq_dec : EqDecision event.
Proof. solve_decision. Defined.

(** The holds a log leaves on keyframe [k]: the calls of [SetNotErase] on
    it less the calls of [SetErase]. *)
Definition holds (log : list event) (k : KFptr) : Z :=
  Z.of_nat (length (filter (fun e => e = EvSetNotErase k) log))
  - Z.of_nat (length (filter (fun e => e = EvSetErase k) log)).

(** The calls on the cull guard of a keyframe. *)
Definition is_guard (e : event) : bool :=
  match e with
  | EvSetNotErase _ | EvSetErase _ => true
  | _ => false
  end.

(** ** LoopDetector *)

Module LoopDetector.

(** [using ConsistentGroup = std::pair<std::set<KeyFrame*>, int>] *)
Abbreviation ConsistentGroup := (gset KFptr * Z)%type.

(** The detector's own members; [keyFrameDB_] and [voc_] point to
    collaborators and are part of the environment of a call. *)
Record t := {
  prevConsistentGroups_ : list ConsistentGroup;
  fixScale_ : bool;
  minConsistency_ : Z
}.

(** The constructor. *)
Definition new (fixScale : bool) : t :=
  {| prevConsistentGroups_ := []; fixScale_ := fixScale; minConsistency_ := 3 |}.

Definition set_prevConsistentGroups (gs : list ConsistentGroup) (d : t) : t :=
  {| prevConsistentGroups_ := gs; fixScale_ := fixScale_ d;
     minConsistency_ := minConsistency_ d |}.

(** The lambda [IsConsistent] of [Detect]. *)
Definition IsConsistent (prevGroup currGroup : gset KFptr) : bool :=
  existsb (fun grounpKF => bool_decide (grounpKF ∈ prevGroup)) (elements currGroup).

(** The locals of the consistency loop that outlive one candidate. *)
Record check := {
  currConsistentGroups : list ConsistentGroup;
  consistentFound : list bool;
  candidateKFs : list KFptr
}.

(** [consistentGroupsIds]: the indices of the cached groups consistent with
    [currGroup], in increasing order. *)
Definition consistentGroupsIds (prev : list ConsistentGroup) (currGroup : gset KFptr)
  : list nat :=
  filter (fun iG => IsConsistent (nth iG prev (∅, 0)).1 currGroup = true)
         (seq 0 (length prev)).

(** One turn of [for (size_t iG : consistentGroupsIds)]; the second
    component is [candidateFound]. *)
Definition group_step (prev : list ConsistentGroup) (minConsistency : Z)
    (candidateKF : KFptr) (currGroup : gset KFptr)
    (st : check * bool) (iG : nat) : check * bool :=
  let '(c, candidateFound) := st in
  let currConsistency := Int.add (nth iG prev (∅, 0)).2 1 in
  let c1 :=
    if negb (nth iG (consistentFound c) false) then
      {| currConsistentGroups := currConsistentGroups c ++ [(currGroup, currConsistency)];
         consistentFound := <[iG := true]> (consistentFound c);
         candidateKFs := candidateKFs c |}
    else c in
  if (minConsistency <=? currConsistency) && negb candidateFound then
    ({| currConsistentGroups := currConsistentGroups c1;
        consistentFound := consistentFound c1;
        candidateKFs := candidateKFs c1 ++ [candidateKF] |}, true)
  else (c1, candidateFound).

(** One turn of [for (KeyFrame* candidateKF : tmpCandidateKFs)];
    [connected] is [GetConnectedKeyFrames()]. *)
Definition candidate_step (prev : list ConsistentGroup) (minConsistency : Z)
    (connected : KFptr -> gset KFptr) (c : check) (candidateKF : KFptr) : check :=
  let currGroup := connected candidateKF ∪ {[candidateKF]} in
  let ids := consistentGroupsIds prev currGroup in
  let '(c1, _) :=
    fold_left (group_step prev minConsistency candidateKF currGroup) ids (c, false) in
  match ids with
  | [] =>
      {| currConsistentGroups := currConsistentGroups c1 ++ [(currGroup, 0)];
         consistentFound := consistentFound c1;
         candidateKFs := candidateKFs c1 |}
  | _ :: _ => c1
  end.

(** The consistency check of [Detect] (source lines 194-238). *)
Definition check_consistency (d : t) (connected : KFptr -> gset KFptr)
    (tmpCandidateKFs : list KFptr) : check :=
  fold_left (candidate_step (prevConsistentGroups_ d) (minConsistency_ d) connected)
    tmpCandidateKFs
    {| currConsistentGroups := [];
       consistentFound := replicate (length (prevConsistentGroups_ d)) false;
       candidateKFs := [] |}.


(** Whether some cached group consistent with [currGroup] passes the test
    [currConsistency >= minConsistency_]. *)
Definition reaches (prev : list ConsistentGroup) (minConsistency : Z)
    (currGroup : gset KFptr) : bool :=
  existsb (fun iG => minConsistency <=? Int.add (nth iG prev (∅, 0)).2 1)
          (consistentGroupsIds prev currGroup).

(** The detector once the consistency check has replaced the cache
    ([prevConsistentGroups_ = currConsistentGroups]). *)
Definition after_check (d : t) (connected : KFptr -> gset KFptr)
    (tmpCandidateKFs : list KFptr) : t :=
  set_prevConsistentGroups
    (currConsistentGroups (check_consistency d connected tmpCandidateKFs)) d.

(** *** The environment of a call to [Detect] *)

(** What one call of [Sim3Solver::iterate] hands back: the return value and
    the two out-parameters. *)
Record iterate_outcome {G : Geometry} := {
  it_found : bool;
  it_Scm : Sim3;
  it_isInlier : list bool
}.

(** The answers of the collaborators during one call: the vocabulary, the
    keyframe database, the ORB matcher, the Sim3 solver and the optimizer.
    A [Sim3Solver] is given by the outcomes of its successive calls to
    [iterate]; [terminate()] answers true once they are used up (the solver
    is set up with at most 300 iterations and spends 5 per call).  [score]
    is the [double] that [voc_->score] returns, a finite number. *)
Record Env {G : Geometry} := {
  score : KFptr -> KFptr -> Q;
  DetectLoopCandidates : KFptr -> Q -> list KFptr;
  SearchByBoW : KFptr -> KFptr -> Z * list (option MPptr);
  Sim3Solver : KFptr -> KFptr -> list (option MPptr) -> bool -> list iterate_outcome;
  SearchBySim3 : KFptr -> KFptr -> list (option MPptr) -> Sim3 -> list (option MPptr);
  OptimizeSim3 : KFptr -> KFptr -> list (option MPptr) -> Sim3 -> bool
                 -> Z * list (option MPptr) * Sim3;
  SearchByProjection : KFptr -> Sim3 -> list MPptr -> list (option MPptr)
                       -> list (option MPptr)
}.

Section Detect.
Context {G : Geometry}.

(** [struct Loop]; [matchedKF] is [None] as long as nothing was assigned. *)
Record Loop := {
  matchedKF : option KFptr;
  Scw : Sim3;
  matchedPoints : list (option MPptr);
  loopMapPoints : list MPptr
}.

(** [std::min(minScore, score)] on [float]. *)
Definition fmin (a b : Q) : Q := if Qle_bool a b then a else b.

(** The reference score of [Detect] (source lines 170-178): [1.f], then
    the least of it and of the scores of the neighbours that are not bad,
    each score cast to [float] first. *)
Definition minScore (env : Env) (w : World) (currentKF : KFptr) : Q :=
  fold_left
    (fun m neighborKF =>
       if kf_isBad (kfs w neighborKF) then m
       else fmin m (Float.to_float (score env currentKF neighborKF)))
    (kf_covisible (kfs w currentKF)) 1%Q.

(** **** FindLoopInCandidateKFs *)

(** Entry [i] of the parallel vectors [candidateKFs], [discarded],
    [solvers] and [vmatches].  The source indexes them with [int]
    counters ([ninitialCandidates], [ncandidates]); the candidates are
    taken to be fewer than 2^31, where these counters are exact. *)
Record slot := {
  s_candidateKF : KFptr;
  s_discarded : bool;
  s_solver : list iterate_outcome;
  s_vmatches : list (option MPptr)
}.

(** The first loop, one candidate: the slot and whether [ncandidates] is
    incremented. *)
Definition setup_slot (env : Env) (w : World) (currentKF : KFptr) (fixScale : bool)
    (candidateKF : KFptr) : slot * bool :=
  if kf_isBad (kfs w candidateKF) then
    ({| s_candidateKF := candidateKF; s_discarded := true;
        s_solver := []; s_vmatches := [] |}, false)
  else
    let '(nmatches, vm) := SearchByBoW env currentKF candidateKF in
    if nmatches <? 20 then
      ({| s_candidateKF := candidateKF; s_discarded := true;
          s_solver := []; s_vmatches := vm |}, false)
    else
      ({| s_candidateKF := candidateKF; s_discarded := false;
          s_solver := Sim3Solver env currentKF candidateKF vm fixScale;
          s_vmatches := vm |}, true).

Definition setup (env : Env) (w : World) (currentKF : KFptr) (fixScale : bool)
    (candidateKFs : list KFptr) : list slot * Z :=
  fold_left
    (fun acc candidateKF =>
       let '(s, counted) := setup_slot env w currentKF fixScale candidateKF in
       (acc.1 ++ [s], if counted then acc.2 + 1 else acc.2))
    candidateKFs ([], 0).

(** [matches[j] = isInlier[j] ? vmatches[i][j] : nullptr] over a vector of
    the size of [vmatches[i]]. *)
Fixpoint select_inliers (isInlier : list bool) (vm : list (option MPptr))
  : list (option MPptr) :=
  match vm with
  | [] => []
  | m :: vm' =>
      match isInlier with
      | [] => None :: select_inliers [] vm'
      | b :: bs => (if b then m else None) :: select_inliers bs vm'
      end
  end.

(** [solver->iterate(5, Scm, isInlier)]: the outcome and the solver left. *)
Definition iterate (solver : list iterate_outcome) : iterate_outcome * list iterate_outcome :=
  match solver with
  | [] => ({| it_found := false; it_Scm := sim3_default; it_isInlier := [] |}, [])
  | o :: rest => (o, rest)
  end.

(** [solver->terminate()] *)
Definition terminate (solver : list iterate_outcome) : bool :=
  match solver with [] => true | _ :: _ => false end.

(** What a successful candidate writes into [loop]. *)
Definition set_match (candidateKF : KFptr) (S : Sim3) (matches : list (option MPptr))
    (loop : Loop) : Loop :=
  {| matchedKF := Some candidateKF; Scw := S; matchedPoints := matches;
     loopMapPoints := loopMapPoints loop |}.

(** One pass of [for (int i = 0; i < ninitialCandidates; i++)] inside the
    [while]: [inl] is [return true] with the loop filled in, [inr] the
    vectors and [ncandidates] at the end of the pass. *)
Fixpoint ransac_pass (env : Env) (w : World) (currentKF : KFptr) (fixScale : bool)
    (loop : Loop) (todo : list slot) (ncandidates : Z) : Loop + (list slot * Z) :=
  match todo with
  | [] => inr ([], ncandidates)
  | s :: rest =>
      if s_discarded s then
        match ransac_pass env w currentKF fixScale loop rest ncandidates with
        | inl l => inl l
        | inr (rest', n') => inr (s :: rest', n')
        end
      else
        let candidateKF := s_candidateKF s in
        let '(o, solver') := iterate (s_solver s) in
        let stop := terminate solver' in
        let s' := {| s_candidateKF := candidateKF; s_discarded := stop;
                     s_solver := solver'; s_vmatches := s_vmatches s |} in
        let n1 := if stop then ncandidates - 1 else ncandidates in
        let next :=
          match ransac_pass env w currentKF fixScale loop rest n1 with
          | inl l => inl l
          | inr (rest', n') => inr (s' :: rest', n')
          end in
        if it_found o then
          let matches0 := select_inliers (it_isInlier o) (s_vmatches s) in
          let matches1 := SearchBySim3 env currentKF candidateKF matches0 (it_Scm o) in
          let '(nInliers, matches, Scm) :=
            OptimizeSim3 env currentKF candidateKF matches1 (it_Scm o) fixScale in
          if 20 <=? nInliers then
            let Smw := sim3_of_pose (kf_pose (kfs w candidateKF)) in
            inl (set_match candidateKF (sim3_mul Scm Smw) matches loop)
          else next
        else next
  end.

(** [while (ncandidates > 0)]: [None] when the fuel runs out, otherwise the
    return value and the loop. *)
Fixpoint ransac_while (fuel : nat) (env : Env) (w : World) (currentKF : KFptr)
    (fixScale : bool) (loop : Loop) (slots : list slot) (ncandidates : Z)
  : option (bool * Loop) :=
  match fuel with
  | O => None
  | S fuel' =>
      if 0 <? ncandidates then
        match ransac_pass env w currentKF fixScale loop slots ncandidates with
        | inl l => Some (true, l)
        | inr (slots', n') =>
            ransac_while fuel' env w currentKF fixScale loop slots' n'
        end
      else Some (false, loop)
  end.

(** The number of [iterate] calls a candidate still has before its solver
    terminates, plus one; 0 once discarded. *)
Definition slot_budget (s : slot) : nat :=
  if s_discarded s then 0%nat else S (length (s_solver s)).

Definition budget (slots : list slot) : nat :=
  foldr (fun s n => (slot_budget s + n)%nat) 0%nat slots.

(** [FindLoopInCandidateKFs]: the return value with the loop, and the calls
    logged.  The [while] gets the fuel that the solvers' budgets allow. *)
Definition FindLoopInCandidateKFs (env : Env) (w : World) (currentKF : KFptr)
    (candidateKFs : list KFptr) (loop : Loop) (fixScale : bool)
  : option (bool * Loop) * list event :=
  let '(slots, ncandidates) := setup env w currentKF fixScale candidateKFs in
  (ransac_while (S (budget slots)) env w currentKF fixScale loop slots ncandidates,
   map EvSetNotErase candidateKFs).

(** The candidates not discarded. *)
Definition alive (slots : list slot) : nat :=
  length (filter (fun s => s_discarded s = false) slots).

(** **** Detect *)

(** One map point in the loop that gathers [loop.loopMapPoints] (source
    lines 265-272). *)
Definition gather_point (currentId : Z) (acc : list MPptr * World)
    (mappoint : option MPptr) : list MPptr * World :=
  match mappoint with
  | None => acc
  | Some p =>
      let '(pts, w) := acc in
      let x := mps w p in
      if mp_isBad x || (mp_loopPointForKF x =? currentId) then acc
      else (pts ++ [p], set_mp p (set_loopPointForKF currentId x) w)
  end.

Definition gather_loopMapPoints (currentId : Z) (w : World) (connectedKFs : list KFptr)
  : list MPptr * World :=
  fold_left
    (fun acc connectedKF =>
       fold_left (gather_point currentId) (kf_mapPoints (kfs acc.2 connectedKF)) acc)
    connectedKFs ([], w).

(** [std::count_if] over [loop.matchedPoints] with [mappoint != nullptr]. *)
Definition count_matches (pts : list (option MPptr)) : Z :=
  Z.of_nat (length (filter (fun m => is_Some m) pts)).

(** What [Detect] leaves behind: the return value, the out-parameter
    [loop], the detector, the map and the calls. *)
Record outcome := {
  o_found : bool;
  o_loop : Loop;
  o_detector : t;
  o_world : World;
  o_log : list event
}.

(** [LoopDetector::Detect]; [None] only if the solver loop ran out of fuel. *)
Definition Detect (env : Env) (d : t) (w : World) (currentKF : KFptr) (loop : Loop)
    (lastLoopKFId : Z) : option outcome :=
  let currentId := kf_id (kfs w currentKF) in
  if Int.to_int currentId <? Int.add lastLoopKFId 10 then
    Some {| o_found := false; o_loop := loop; o_detector := d; o_world := w;
            o_log := [] |}
  else
    let tmpCandidateKFs := DetectLoopCandidates env currentKF (minScore env w currentKF) in
    let log0 := [EvDetectLoopCandidates currentKF] in
    match tmpCandidateKFs with
    | [] =>
        Some {| o_found := false; o_loop := loop;
                o_detector := set_prevConsistentGroups [] d; o_world := w;
                o_log := log0 |}
    | _ :: _ =>
        let c := check_consistency d (fun k => kf_connected (kfs w k)) tmpCandidateKFs in
        let d' := set_prevConsistentGroups (currConsistentGroups c) d in
        let candidateKFs := candidateKFs c in
        match candidateKFs with
        | [] =>
            Some {| o_found := false; o_loop := loop; o_detector := d';
                    o_world := w; o_log := log0 |}
        | _ :: _ =>
            let '(r, log1) :=
              FindLoopInCandidateKFs env w currentKF candidateKFs loop (fixScale_ d) in
            match r with
            | None => None
            | Some (false, loop1) =>
                Some {| o_found := false; o_loop := loop1; o_detector := d';
                        o_world := w;
                        o_log := log0 ++ log1 ++ map EvSetErase candidateKFs
                                      ++ [EvSetErase currentKF] |}
            | Some (true, loop1) =>
                let connectedKFs :=
                  match matchedKF loop1 with
                  | Some m => kf_covisible (kfs w m) ++ [m]
                  | None => []
                  end in
                let '(pts, w') := gather_loopMapPoints currentId w connectedKFs in
                let matched :=
                  SearchByProjection env currentKF (Scw loop1) pts (matchedPoints loop1) in
                let loop2 :=
                  {| matchedKF := matchedKF loop1; Scw := Scw loop1;
                     matchedPoints := matched; loopMapPoints := pts |} in
                if 40 <=? count_matches matched then
                  Some {| o_found := true; o_loop := loop2; o_detector := d';
                          o_world := w';
                          o_log := log0 ++ log1
                            ++ map EvSetErase
                                 (filter (fun candidateKF => Some candidateKF ≠ matchedKF loop1)
                                         candidateKFs) |}
                else
                  Some {| o_found := false; o_loop := loop2; o_detector := d';
                          o_world := w';
                          o_log := log0 ++ log1 ++ map EvSetErase candidateKFs |}
            end
        end
    end.

(** [LoopDetector::Loop loop;] as [Run] declares it. *)
Definition Loop_fresh : Loop :=
  {| matchedKF := None; Scw := sim3_default; matchedPoints := [];
     loopMapPoints := [] |}.

(** [Detect] on consecutive keyframes, none of which closes a loop: the
    detector and the map pass from one call to the next, [lastLoopKFId]
    stays; the outcomes are listed in order and the stream stops at the
    first accepted loop. *)
Fixpoint Detect_stream (env : Env) (d : t) (w : World) (currentKFs : list KFptr)
    (lastLoopKFId : Z) : option (list outcome) :=
  match currentKFs with
  | [] => Some []
  | currentKF :: rest =>
      match Detect env d w currentKF Loop_fresh lastLoopKFId with
      | None => None
      | Some o =>
          if o_found o then Some [o]
          else
            match Detect_stream env (o_detector o) (o_world o) rest lastLoopKFId with
            | None => None
            | Some os => Some (o :: os)
            end
      end
  end.

End Detect.

End LoopDetector.

(** ** GlobalBA *)

Module GlobalBA.

(** The members of [GlobalBA]; [thread_] tells whether [ReusableThread]
    holds a joinable thread. *)
Record t := {
  running_ : bool;
  finished_ : bool;
  stop_ : bool;
  fullBAIdx_ : Z;
  thread_ : bool
}.

(** The constructor. *)
Definition new : t :=
  {| running_ := false; finished_ := true; stop_ := false; fullBAIdx_ := 0;
     thread_ := false |}.

(** [ReusableThread::Detach] *)
Definition Detach (g : t) : t * list event :=
  if thread_ g then
    ({| running_ := running_ g; finished_ := finished_ g; stop_ := stop_ g;
        fullBAIdx_ := fullBAIdx_ g; thread_ := false |}, [EvThreadDetach])
  else (g, []).

(** [GlobalBA::Run]: the flags, then [thread_.Reset(&GlobalBA::_Run, this,
    loopKFId)], which detaches the thread held and starts a new one. *)
Definition Run (loopKFId : Z) (g : t) : t * list event :=
  let g1 := {| running_ := true; finished_ := false; stop_ := false;
               fullBAIdx_ := fullBAIdx_ g; thread_ := thread_ g |} in
  let '(g2, log) := Detach g1 in
  ({| running_ := running_ g2; finished_ := finished_ g2; stop_ := stop_ g2;
      fullBAIdx_ := fullBAIdx_ g2; thread_ := true |},
   log ++ [EvThreadSpawn loopKFId]).

(** [GlobalBA::Stop] *)
Definition Stop (g : t) : t * list event :=
  Detach {| running_ := running_ g; finished_ := finished_ g; stop_ := true;
            fullBAIdx_ := Int.incr (fullBAIdx_ g); thread_ := thread_ g |}.

(** [GlobalBA::Running] and [GlobalBA::Finished] *)
Definition Running (g : t) : bool := running_ g.
Definition Finished (g : t) : bool := finished_ g.

Section Worker.
Context {G : Geometry}.

(** One child in the spanning-tree walk of [_Run] (source lines 398-408):
    the map and the queue [toCheck]. *)
Definition correct_child (loopKFId : Z) (keyframe : KFptr) (Twc : CameraPose)
    (acc : World * list KFptr) (child : KFptr) : World * list KFptr :=
  let '(w, toCheck) := acc in
  let w1 :=
    if negb (kf_BAGlobalForKF (kfs w child) =? loopKFId) then
      let Tchildc := pose_mul (kf_pose (kfs w child)) Twc in
      set_kf child
        (set_TcwGBA (pose_mul Tchildc (kf_TcwGBA (kfs w keyframe))) loopKFId
           (kfs w child)) w
    else w in
  (w1, toCheck ++ [child]).

(** [while (!toCheck.empty())] (source lines 394-413); [None] when the
    fuel runs out. *)
Fixpoint correct_keyframes (fuel : nat) (loopKFId : Z) (toCheck : list KFptr)
    (w : World) : option World :=
  match fuel with
  | O => None
  | S fuel' =>
      match toCheck with
      | [] => Some w
      | keyframe :: _ =>
          let Twc := pose_inv (kf_pose (kfs w keyframe)) in
          let '(w1, toCheck1) :=
            fold_left (correct_child loopKFId keyframe Twc)
              (kf_children (kfs w keyframe)) (w, toCheck) in
          let x := kfs w1 keyframe in
          let x1 := set_TcwBefGBA (kf_pose x) x in
          let w2 := set_kf keyframe (SetPose (kf_TcwGBA x1) x1) w1 in
          correct_keyframes fuel' loopKFId (tail toCheck1) w2
      end
  end.

(** One map point in the correction pass of [_Run] (source lines 416-446). *)
Definition correct_mappoint (loopKFId : Z) (w : World) (mappoint : MPptr) : World :=
  let x := mps w mappoint in
  if mp_isBad x then w
  else if mp_BAGlobalForKF x =? loopKFId then
    set_mp mappoint (SetWorldPos (mp_posGBA x) x) w
  else
    let referenceKF := kfs w (mp_referenceKF x) in
    if negb (kf_BAGlobalForKF referenceKF =? loopKFId) then w
    else
      let Rcw := pose_R (kf_TcwBefGBA referenceKF) in
      let tcw := pose_t (kf_TcwBefGBA referenceKF) in
      let Xc := vec_add (rot_apply Rcw (mp_worldPos x)) tcw in
      let Twc := pose_inv (kf_pose referenceKF) in
      let Rwc := pose_R Twc in
      let twc := pose_t Twc in
      set_mp mappoint (SetWorldPos (vec_add (rot_apply Rwc Xc) twc) x) w.

(** [for (MapPoint* mappoint : map_->GetAllMapPoints())] *)
Definition correct_mappoints (loopKFId : Z) (w : World) : World :=
  fold_left (correct_mappoint loopKFId) (allMapPoints w) w.

(** The part of [_Run] that follows the bundle adjustment, under
    [mutexGBA_]; [idx] is the index read at the start of [_Run].  The wait
    for the local mapper is logged as one call.  [None] when the fuel of
    the spanning-tree walk runs out. *)
Definition epilogue (fuel : nat) (idx : Z) (loopKFId : Z) (g : t) (w : World)
  : option (t * World * list event) :=
  if negb (idx =? fullBAIdx_ g) then Some (g, w, [])
  else
    let done (g : t) : t :=
      {| running_ := false; finished_ := true; stop_ := stop_ g;
         fullBAIdx_ := fullBAIdx_ g; thread_ := thread_ g |} in
    if negb (stop_ g) then
      match correct_keyframes fuel loopKFId (keyFrameOrigins w) w with
      | None => None
      | Some w1 =>
          let w2 := correct_mappoints loopKFId w1 in
          Some (done g, InformNewBigChange w2,
                [EvRequestStop; EvWaitStopped; EvRelease])
      end
    else Some (done g, w, []).

(** [GlobalBA::_Run] seen from the thread that runs it: [g0] is the task
    when the thread reads [idx = fullBAIdx_]; [g] and [w] are the task and
    the map when [GlobalBundleAdjustemnt] returns, after whatever the other
    threads and the optimizer did in between. *)
Definition _Run (fuel : nat) (loopKFId : Z) (g0 g : t) (w : World)
  : option (t * World * list event) :=
  let idx := fullBAIdx_ g0 in
  epilogue fuel idx loopKFId g w.

(** *** The task and its workers *)

(** A thread started by [Run]: before and after it has read [fullBAIdx_]
    into [idx]. *)
Inductive worker : Type :=
| Spawned (loopKFId : Z)
| Captured (loopKFId : Z) (idx : Z).

Record system := {
  gba : t;
  world : World;
  workers : list worker
}.

(** What can happen to the task: the calls of its owner, [Run], [Stop],
    [Running] and [Finished]; worker [i] reading the index; worker [i]
    coming back from the bundle adjustment and running the epilogue; any
    other write to the map (the optimizer, tracking, local mapping). *)
Inductive label : Type :=
| LRun (loopKFId : Z)
| LStop
| LRunning
| LFinished
| LCapture (i : nat)
| LEpilogue (i : nat) (fuel : nat)
| LMap (w : World).

Definition is_LRun (l : label) : bool :=
  match l with LRun _ => true | _ => false end.

(** One step; [None] when the label is not enabled. *)
Definition step (s : system) (l : label) : option system :=
  match l with
  | LRun loopKFId =>
      Some {| gba := (Run loopKFId (gba s)).1; world := world s;
              workers := workers s ++ [Spawned loopKFId] |}
  | LStop =>
      Some {| gba := (Stop (gba s)).1; world := world s; workers := workers s |}
  | LRunning | LFinished => Some s
  | LCapture i =>
      match workers s !! i with
      | Some (Spawned loopKFId) =>
          Some {| gba := gba s; world := world s;
                  workers := <[i := Captured loopKFId (fullBAIdx_ (gba s))]> (workers s) |}
      | _ => None
      end
  | LEpilogue i fuel =>
      match workers s !! i with
      | Some (Captured loopKFId idx) =>
          match epilogue fuel idx loopKFId (gba s) (world s) with
          | Some (g, w, _) =>
              Some {| gba := g; world := w; workers := delete i (workers s) |}
          | None => None
          end
      | _ => None
      end
  | LMap w => Some {| gba := gba s; world := w; workers := workers s |}
  end.

Fixpoint steps (s : system) (ls : list label) : option system :=
  match ls with
  | [] => Some s
  | l :: ls' =>
      match step s l with
      | Some s' => steps s' ls'
      | None => None
      end
  end.



End Worker.

End GlobalBA.

(** ** LoopCorrector *)

Module LoopCorrector.

(** [std::map<KeyFrame*, V>]: the entries in increasing order of the key,
    which is the order in which the source iterates. *)
Module SMap.

Fixpoint assign {V : Type} (k : KFptr) (v : V) (m : list (KFptr * V)) : list (KFptr * V) :=
  match m with
  | [] => [(k, v)]
  | (k', v') :: m' =>
      if (k <? k')%nat then (k, v) :: m
      else if (k =? k')%nat then (k, v) :: m'
      else (k', v') :: assign k v m'
  end.

Fixpoint find {V : Type} (k : KFptr) (m : list (KFptr * V)) : option V :=
  match m with
  | [] => None
  | (k', v') :: m' => if (k =? k')%nat then Some v' else find k m'
  end.

(** [m[k]] read: the value, and the map with a default entry put in when
    the key was missing. *)
Definition at_or_insert {V : Type} (dflt : V) (k : KFptr) (m : list (KFptr * V))
  : V * list (KFptr * V) :=
  match find k m with
  | Some v => (v, m)
  | None => (dflt, assign k dflt m)
  end.

End SMap.

(** [KeyFrameAndPose] and [LoopConnections] of [Optimizer.h]. *)
Abbreviation KeyFrameAndPose := (list (KFptr * Sim3)).
Abbreviation LoopConnections := (list (KFptr * gset KFptr)).

(** The collaborators of [Correct] that write to the map: the links that
    [UpdateConnections] computes, [MapPoint::Replace], [ORBmatcher::Fuse]
    (the map it leaves and [replacePoints]) and
    [Optimizer::OptimizeEssentialGraph]. *)
Record Env {G : Geometry} := {
  links : World -> KFptr -> KFptr -> Connections;
  Replace : MPptr -> MPptr -> World -> World;
  Fuse : KFptr -> Sim3 -> list MPptr -> World -> World * list (option MPptr);
  OptimizeEssentialGraph :
    KFptr -> KFptr -> KeyFrameAndPose -> KeyFrameAndPose -> LoopConnections -> bool
    -> World -> World
}.

Section Correct.
Context {G : Geometry}.

(** One turn of the loop that fills [CorrectedSim3] and
    [NonCorrectedSim3] (source lines 562-576). *)
Definition propagate_step (w : World) (currentKF : KFptr) (Twc : CameraPose)
    (Scw : Sim3) (acc : KeyFrameAndPose * KeyFrameAndPose) (connectedKF : KFptr)
  : KeyFrameAndPose * KeyFrameAndPose :=
  let '(CorrectedSim3, NonCorrectedSim3) := acc in
  let Tiw := kf_pose (kfs w connectedKF) in
  let CorrectedSim3' :=
    if decide (connectedKF ≠ currentKF) then
      let Tic := pose_mul Tiw Twc in
      let Sic := sim3_of_pose Tic in
      let CorrectedSiw := sim3_mul Sic Scw in
      SMap.assign connectedKF CorrectedSiw CorrectedSim3
    else CorrectedSim3 in
  (CorrectedSim3', SMap.assign connectedKF (sim3_of_pose Tiw) NonCorrectedSim3).

(** [CorrectedSim3] and [NonCorrectedSim3] as lines 554-576 leave them. *)
Definition propagate (w : World) (currentKF : KFptr) (Scw : Sim3)
    (connectedKFs : list KFptr) : KeyFrameAndPose * KeyFrameAndPose :=
  let CorrectedSim3 := SMap.assign currentKF Scw [] in
  let Twc := pose_inv (kf_pose (kfs w currentKF)) in
  fold_left (propagate_step w currentKF Twc Scw) connectedKFs (CorrectedSim3, []).

(** One map point of a corrected keyframe (source lines 587-600). *)
Definition correct_point (currentId connectedId : Z) (correction : Sim3)
    (acc : World * list event) (mappiont : option MPptr) : World * list event :=
  match mappiont with
  | None => acc
  | Some p =>
      let '(w, log) := acc in
      let x := mps w p in
      if mp_isBad x || (mp_correctedByKF x =? currentId) then acc
      else
        let P3Dw := mp_worldPos x in
        let CorrectedP3Dw := sim3_map correction P3Dw in
        (set_mp p (set_corrected currentId connectedId (SetWorldPos CorrectedP3Dw x)) w,
         log ++ [EvUpdateNormalAndDepth p])
  end.

(** One entry of [CorrectedSim3] in the loop of lines 579-613: the map
    points of the keyframe, then its pose and its links. *)
Definition correct_keyframe (env : Env) (currentKF : KFptr)
    (acc : World * KeyFrameAndPose * list event) (v : KFptr * Sim3)
  : World * KeyFrameAndPose * list event :=
  let '(w, NonCorrectedSim3, log) := acc in
  let '(connectedKF, CorrectedSiw) := v in
  let CorrectedSwi := sim3_inv CorrectedSiw in
  let '(Siw, NonCorrectedSim3') :=
    SMap.at_or_insert sim3_default connectedKF NonCorrectedSim3 in
  let correction := sim3_mul CorrectedSwi Siw in
  let '(w1, log1) :=
    fold_left
      (correct_point (kf_id (kfs w currentKF)) (kf_id (kfs w connectedKF)) correction)
      (kf_mapPoints (kfs w connectedKF)) (w, log) in
  let R := sim3_R CorrectedSiw in
  let t := sim3_t CorrectedSiw in
  let invs := scalar_inv (sim3_scale CorrectedSiw) in
  let w2 := set_kf connectedKF
              (SetPose (pose_make R (scalar_mul invs t)) (kfs w1 connectedKF)) w1 in
  (UpdateConnections (links env) connectedKF w2, NonCorrectedSim3', log1).

(** The loop of lines 579-613. *)
Definition correct_map_points (env : Env) (currentKF : KFptr)
    (CorrectedSim3 NonCorrectedSim3 : KeyFrameAndPose) (w : World)
  : World * KeyFrameAndPose * list event :=
  fold_left (correct_keyframe env currentKF) CorrectedSim3 (w, NonCorrectedSim3, []).

(** One slot of the current keyframe in the loop fusion (lines 617-634). *)
Definition fuse_slot (env : Env) (currentKF : KFptr) (acc : World * list event)
    (im : nat * option MPptr) : World * list event :=
  let '(w, log) := acc in
  let '(i, m) := im in
  match m with
  | None => acc
  | Some loopMP =>
      match mjoin (kf_mapPoints (kfs w currentKF) !! i) with
      | Some currMP => (Replace env currMP loopMP w, log)
      | None =>
          (set_kf currentKF (AddMapPoint loopMP i (kfs w currentKF)) w,
           log ++ [EvAddObservation loopMP currentKF i;
                   EvComputeDistinctiveDescriptors loopMP])
      end
  end.

(** [mappoint->Replace(loopMapPoints[i])] for the non-null
    [replacePoints[i]] (lines 652-657). *)
Definition replace_point (env : Env) (w : World) (rl : option MPptr * MPptr) : World :=
  match rl.1 with
  | Some mappoint => Replace env mappoint rl.2 w
  | None => w
  end.

(** One entry of [CorrectedSim3] in the loop of lines 641-658. *)
Definition fuse_keyframe (env : Env) (loopMapPoints : list MPptr) (w : World)
    (v : KFptr * Sim3) : World :=
  let '(connectedKF, Scw) := v in
  let '(w1, replacePoints) := Fuse env connectedKF Scw loopMapPoints w in
  fold_left (replace_point env) (zip replacePoints loopMapPoints) w1.

(** One keyframe in the loop of lines 663-676. *)
Definition connections_step (env : Env) (connectedKFs : list KFptr)
    (acc : World * LoopConnections) (connectedKF : KFptr) : World * LoopConnections :=
  let '(w, LoopConnections) := acc in
  let prevNeighbors := kf_covisible (kfs w connectedKF) in
  let w1 := UpdateConnections (links env) connectedKF w in
  let s := kf_connected (kfs w1 connectedKF)
             ∖ list_to_set prevNeighbors ∖ list_to_set connectedKFs in
  (w1, SMap.assign connectedKF s LoopConnections).

(** [LoopCorrector::Correct]; [None] when [loop.matchedKF] is null. *)
Definition Correct (env : Env) (fixScale : bool) (currentKF : KFptr)
    (loop : LoopDetector.Loop) (g : GlobalBA.t) (w : World)
  : option (GlobalBA.t * World * list event) :=
  match LoopDetector.matchedKF loop with
  | None => None
  | Some matchedKF =>
      let Scw := LoopDetector.Scw loop in
      let matchedPoints := LoopDetector.matchedPoints loop in
      let loopMapPoints := LoopDetector.loopMapPoints loop in
      let '(g1, logStop) :=
        if GlobalBA.Running g then GlobalBA.Stop g else (g, []) in
      let w0 := UpdateConnections (links env) currentKF w in
      let connectedKFs := kf_covisible (kfs w0 currentKF) ++ [currentKF] in
      let '(CorrectedSim3, NonCorrectedSim3) := propagate w0 currentKF Scw connectedKFs in
      let '(w1, NonCorrectedSim3', log1) :=
        correct_map_points env currentKF CorrectedSim3 NonCorrectedSim3 w0 in
      let '(w2, log2) :=
        fold_left (fuse_slot env currentKF) (imap pair matchedPoints) (w1, log1) in
      let w3 := fold_left (fuse_keyframe env loopMapPoints) CorrectedSim3 w2 in
      let '(w4, LoopConnections) :=
        fold_left (connections_step env connectedKFs) connectedKFs (w3, []) in
      let w5 := OptimizeEssentialGraph env matchedKF currentKF NonCorrectedSim3'
                  CorrectedSim3 LoopConnections fixScale w4 in
      let w6 := InformNewBigChange w5 in
      let '(g2, logRun) := GlobalBA.Run (kf_id (kfs w6 currentKF)) g1 in
      Some (g2, w6,
            [EvRequestStop] ++ logStop ++ [EvWaitStopped] ++ log2
            ++ [EvAddLoopEdge matchedKF currentKF; EvAddLoopEdge currentKF matchedKF]
            ++ logRun ++ [EvRelease])
  end.

(** A map point that the pass for current keyframe id [currentId] does not
    skip: not bad and not stamped [correctedByKF == currentId]. *)
Definition eligible (currentId : Z) (x : MapPoint) : Prop :=
  mp_isBad x = false /\ mp_correctedByKF x <> currentId.

(** A map point once the pass has written it: the position mapped by
    [correction], the two stamps. *)
Definition corrected_point (currentId connectedId : Z) (correction : Sim3)
    (x : MapPoint) : MapPoint :=
  set_corrected currentId connectedId
    (SetWorldPos (sim3_map correction (mp_worldPos x)) x).

(** A collaborator that leaves the stamps [correctedByKF] and
    [correctedReference] of every map point alone. *)
Definition same_stamps (w1 w2 : World) : Prop :=
  forall p,
    mp_correctedByKF (mps w1 p) = mp_correctedByKF (mps w2 p)
    /\ mp_correctedReference (mps w1 p) = mp_correctedReference (mps w2 p).

Definition keeps_stamps (f : World -> World) : Prop :=
  forall w, same_stamps (f w) w.

Definition env_keeps_stamps (env : Env) : Prop :=
  (forall a b, keeps_stamps (Replace env a b))
  /\ (forall k S pts, keeps_stamps (fun w => (Fuse env k S pts w).1))
  /\ (forall m c nc cc lc fs, keeps_stamps (OptimizeEssentialGraph env m c nc cc lc fs)).

End Correct.

End LoopCorrector.

(** ** LoopClosingImpl *)

Module LoopClosingImpl.

(** The members of [LoopClosingImpl]; the corrector's [fixScale_] is the
    one given to the detector. *)
Record t := {
  resetRequested_ : bool;
  finishRequested_ : bool;
  finished_ : bool;
  lastLoopKFId_ : Z;
  keyFrameQueue_ : list KFptr;
  detector_ : LoopDetector.t;
  GBA_ : GlobalBA.t
}.

(** The constructor. *)
Definition new (fixScale : bool) : t :=
  {| resetRequested_ := false; finishRequested_ := false; finished_ := true;
     lastLoopKFId_ := 0; keyFrameQueue_ := [];
     detector_ := LoopDetector.new fixScale; GBA_ := GlobalBA.new |}.

(** [CheckNewKeyFrames] *)
Definition CheckNewKeyFrames (st : t) : bool :=
  match keyFrameQueue_ st with [] => false | _ :: _ => true end.

(** [ResetIfRequested] *)
Definition ResetIfRequested (st : t) : t :=
  if resetRequested_ st then
    {| resetRequested_ := false; finishRequested_ := finishRequested_ st;
       finished_ := finished_ st; lastLoopKFId_ := 0; keyFrameQueue_ := [];
       detector_ := detector_ st; GBA_ := GBA_ st |}
  else st.

(** [CheckFinish], [SetFinish], [RequestFinish] *)
Definition CheckFinish (st : t) : bool := finishRequested_ st.

Definition SetFinish (st : t) : t :=
  {| resetRequested_ := resetRequested_ st; finishRequested_ := finishRequested_ st;
     finished_ := true; lastLoopKFId_ := lastLoopKFId_ st;
     keyFrameQueue_ := keyFrameQueue_ st; detector_ := detector_ st; GBA_ := GBA_ st |}.

Definition RequestFinish (st : t) : t :=
  {| resetRequested_ := resetRequested_ st; finishRequested_ := true;
     finished_ := finished_ st; lastLoopKFId_ := lastLoopKFId_ st;
     keyFrameQueue_ := keyFrameQueue_ st; detector_ := detector_ st; GBA_ := GBA_ st |}.

(** The first block of [RequestReset]. *)
Definition set_resetRequested (st : t) : t :=
  {| resetRequested_ := true; finishRequested_ := finishRequested_ st;
     finished_ := finished_ st; lastLoopKFId_ := lastLoopKFId_ st;
     keyFrameQueue_ := keyFrameQueue_ st; detector_ := detector_ st; GBA_ := GBA_ st |}.

Section Run.
Context {G : Geometry}.

(** [InsertKeyFrame] *)
Definition InsertKeyFrame (w : World) (keyframe : KFptr) (st : t) : t :=
  if negb (kf_id (kfs w keyframe) =? 0) then
    {| resetRequested_ := resetRequested_ st; finishRequested_ := finishRequested_ st;
       finished_ := finished_ st; lastLoopKFId_ := lastLoopKFId_ st;
       keyFrameQueue_ := keyFrameQueue_ st ++ [keyframe];
       detector_ := detector_ st; GBA_ := GBA_ st |}
  else st.

(** The block [if (CheckNewKeyFrames()) { ... }] of [Run] (source lines
    726-755).  [lastLoopKFId_] is a [frameid_t] handed to the [int]
    parameter of [Detect].  [None] when [Detect] or [Correct] gives no
    result. *)
Definition process (denv : LoopDetector.Env) (cenv : LoopCorrector.Env) (st : t)
    (w : World) : option (t * World * list event) :=
  match keyFrameQueue_ st with
  | [] => Some (st, w, [])
  | currentKF :: rest =>
      match LoopDetector.Detect denv (detector_ st) w currentKF
              LoopDetector.Loop_fresh (Int.to_int (lastLoopKFId_ st)) with
      | None => None
      | Some o =>
          let log :=
            [EvSetNotErase currentKF] ++ LoopDetector.o_log o ++ [EvDBAdd currentKF] in
          if LoopDetector.o_found o then
            match LoopCorrector.Correct cenv (LoopDetector.fixScale_ (detector_ st))
                    currentKF (LoopDetector.o_loop o) (GBA_ st)
                    (LoopDetector.o_world o) with
            | None => None
            | Some (g, w', logC) =>
                Some ({| resetRequested_ := resetRequested_ st;
                         finishRequested_ := finishRequested_ st;
                         finished_ := finished_ st;
                         lastLoopKFId_ := kf_id (kfs w' currentKF);
                         keyFrameQueue_ := rest;
                         detector_ := LoopDetector.o_detector o; GBA_ := g |},
                      w', log ++ logC)
            end
          else
            Some ({| resetRequested_ := resetRequested_ st;
                     finishRequested_ := finishRequested_ st;
                     finished_ := finished_ st;
                     lastLoopKFId_ := lastLoopKFId_ st;
                     keyFrameQueue_ := rest;
                     detector_ := LoopDetector.o_detector o; GBA_ := GBA_ st |},
                  LoopDetector.o_world o, log ++ [EvSetErase currentKF])
      end
  end.

(** *** The loop closer among the other threads *)

(** Where the thread of [Run] stands in [while (true)]: before the block
    that processes a keyframe, before [ResetIfRequested], before
    [CheckFinish], or out of the loop. *)
Inductive main_pc : Type := AtProcess | AtReset | AtCheck | Exited.

(** Where the caller of [RequestReset] stands: not called, waiting in the
    loop, returned. *)
Inductive reset_pc : Type := ResetIdle | ResetWaiting | ResetReturned.

Record system := {
  impl : t;
  shared_map : World;
  calls : list event;
  main : main_pc;
  requester : reset_pc
}.

(** What can happen: the local mapper inserts a keyframe; the main loop
    processes a keyframe, runs [ResetIfRequested], runs [CheckFinish] (and
    sleeps or leaves); the system requests the finish; the caller of
    [RequestReset] sets the flag, then polls it; another thread (tracking,
    local mapping, a bundle-adjustment worker) writes the map or the
    bundle-adjustment task. *)
Inductive label : Type :=
| LInsertKeyFrame (keyframe : KFptr)
| LProcess (denv : LoopDetector.Env) (cenv : LoopCorrector.Env)
| LResetIfRequested
| LCheckFinish
| LRequestFinish
| LRequestResetSet
| LRequestResetPoll
| LOther (w : World) (g : GlobalBA.t).

Definition with_impl (st : t) (s : system) : system :=
  {| impl := st; shared_map := shared_map s; calls := calls s; main := main s;
     requester := requester s |}.

Definition with_main (pc : main_pc) (s : system) : system :=
  {| impl := impl s; shared_map := shared_map s; calls := calls s; main := pc;
     requester := requester s |}.

Definition with_requester (pc : reset_pc) (s : system) : system :=
  {| impl := impl s; shared_map := shared_map s; calls := calls s; main := main s;
     requester := pc |}.

Definition with_GBA (g : GlobalBA.t) (st : t) : t :=
  {| resetRequested_ := resetRequested_ st; finishRequested_ := finishRequested_ st;
     finished_ := finished_ st; lastLoopKFId_ := lastLoopKFId_ st;
     keyFrameQueue_ := keyFrameQueue_ st; detector_ := detector_ st; GBA_ := g |}.

(** One step; [None] when the label is not enabled. *)
Definition step (s : system) (l : label) : option system :=
  match l with
  | LInsertKeyFrame keyframe =>
      Some (with_impl (InsertKeyFrame (shared_map s) keyframe (impl s)) s)
  | LProcess denv cenv =>
      match main s with
      | AtProcess =>
          match process denv cenv (impl s) (shared_map s) with
          | Some (st, w, log) =>
              Some {| impl := st; shared_map := w; calls := calls s ++ log;
                      main := AtReset; requester := requester s |}
          | None => None
          end
      | _ => None
      end
  | LResetIfRequested =>
      match main s with
      | AtReset => Some (with_main AtCheck (with_impl (ResetIfRequested (impl s)) s))
      | _ => None
      end
  | LCheckFinish =>
      match main s with
      | AtCheck =>
          if CheckFinish (impl s)
          then Some (with_main Exited (with_impl (SetFinish (impl s)) s))
          else Some (with_main AtProcess s)
      | _ => None
      end
  | LRequestFinish => Some (with_impl (RequestFinish (impl s)) s)
  | LRequestResetSet =>
      match requester s with
      | ResetIdle =>
          Some (with_requester ResetWaiting (with_impl (set_resetRequested (impl s)) s))
      | _ => None
      end
  | LRequestResetPoll =>
      match requester s with
      | ResetWaiting =>
          if negb (resetRequested_ (impl s)) then Some (with_requester ResetReturned s)
          else Some s
      | _ => None
      end
  | LOther w g =>
      Some {| impl := with_GBA g (impl s); shared_map := w; calls := calls s;
              main := main s; requester := requester s |}
  end.

Fixpoint steps (s : system) (ls : list label) : option system :=
  match ls with
  | [] => Some s
  | l :: ls' =>
      match step s l with
      | Some s' => steps s' ls'
      | None => None
      end
  end.

End Run.

End LoopClosingImpl.

(** ** A small map to run the model on *)

Module Example.
Import Symbolic LoopDetector.

(** Keyframe [k] has id [k]; keyframe 1 is connected to keyframe 2 and
    observes map points 1 and 2; keyframe 3 observes map points 2 and 3;
    the keyframes from 20 on have 40 feature slots and no map point yet.
    Keyframe 1 and map point 1 carry the stamp of a global bundle
    adjustment for loop keyframe 7; map point 3 refers to keyframe 3, the
    others to keyframe 1. *)
Definition keyframe (k : KFptr) : KeyFrame :=
  {| kf_id := Z.of_nat k; kf_isBad := false;
     kf_pose := Atom (100 + k); kf_TcwGBA := Atom (200 + k);
     kf_TcwBefGBA := Atom (300 + k);
     kf_BAGlobalForKF := match k with 1%nat => 7 | _ => 0 end;
     kf_covisible := match k with 1%nat => [2%nat] | _ => [] end;
     kf_connected := match k with 1%nat => {[2%nat]} | _ => ∅ end;
     kf_children := [];
     kf_mapPoints := match k with
                     | 1%nat => [Some 1%nat; None; Some 2%nat]
                     | 3%nat => [Some 2%nat; Some 3%nat]
                     | _ => if (20 <=? k)%nat then replicate 40 None else []
                     end |}.

Definition mappoint (p : MPptr) : MapPoint :=
  {| mp_isBad := false; mp_worldPos := Atom (400 + p); mp_posGBA := Atom (500 + p);
     mp_BAGlobalForKF := match p with 1%nat => 7 | _ => 0 end;
     mp_loopPointForKF := 0; mp_correctedByKF := 0;
     mp_correctedReference := 0;
     mp_referenceKF := match p with 3%nat => 3%nat | _ => 1%nat end |}.

Definition world : World :=
  {| kfs := keyframe; mps := mappoint; keyFrameOrigins := [1%nat];
     allMapPoints := [1%nat; 2%nat; 3%nat]; bigChangeId := 0 |}.

(** The database proposes keyframe 1 for every query; [solves] tells
    whether the Sim3 solver finds a transform, [nproj] how many slots are
    matched after the projection search. *)
Definition env (solves : bool) (nproj : nat) : Env :=
  {| score := fun _ _ => 1%Q;
     DetectLoopCandidates := fun _ _ => [1%nat];
     SearchByBoW := fun _ _ => (25, replicate 25 (Some 1%nat));
     Sim3Solver := fun _ _ _ _ =>
       [{| it_found := solves; it_Scm := Atom 7; it_isInlier := replicate 25 true |}];
     SearchBySim3 := fun _ _ ms _ => ms;
     OptimizeSim3 := fun _ _ ms S _ => (25, ms, S);
     SearchByProjection := fun _ _ _ _ => replicate nproj (Some 1%nat) |}.

(** Collaborators of the corrector that leave the map as it is. *)
Definition cenv : LoopCorrector.Env :=
  {| LoopCorrector.links := fun w _ k' =>
       {| c_covisible := kf_covisible (kfs w k');
          c_connected := kf_connected (kfs w k');
          c_children := kf_children (kfs w k') |};
     LoopCorrector.Replace := fun _ _ w => w;
     LoopCorrector.Fuse := fun _ _ pts w => (w, replicate (length pts) None);
     LoopCorrector.OptimizeEssentialGraph := fun _ _ _ _ _ _ w => w |}.

(** A loop between current keyframe 1 and keyframe 5. *)
Definition loop15 : Loop :=
  {| matchedKF := Some 5%nat; Scw := Atom 9;
     matchedPoints := [None; Some 3%nat]; loopMapPoints := [3%nat] |}.

(** A loop closer whose detector has cached the group {1, 2} with count
    2, with the given keyframes in the queue. *)
Definition closer (queue : list KFptr) : LoopClosingImpl.t :=
  {| LoopClosingImpl.resetRequested_ := false;
     LoopClosingImpl.finishRequested_ := false;
     LoopClosingImpl.finished_ := false;
     LoopClosingImpl.lastLoopKFId_ := 0;
     LoopClosingImpl.keyFrameQueue_ := queue;
     LoopClosingImpl.detector_ :=
       set_prevConsistentGroups [({[1%nat; 2%nat]}, 2)] (LoopDetector.new true);
     LoopClosingImpl.GBA_ := GlobalBA.new |}.

(** The threads around it: the main loop at [pc], [RequestReset] not
    called. *)
Definition threads (queue : list KFptr) (pc : LoopClosingImpl.main_pc)
  : LoopClosingImpl.system :=
  {| LoopClosingImpl.impl := closer queue;
     LoopClosingImpl.shared_map := world;
     LoopClosingImpl.calls := [];
     LoopClosingImpl.main := pc;
     LoopClosingImpl.requester := LoopClosingImpl.ResetIdle |}.

End Example.

(** ** Notions used in further statements *)

Section DetectorNotions.
Import LoopDetector.

(** How an entry [(g, n)] of the new cache comes about: [g] is the group of
    a candidate of the call, and either no cached group is consistent with
    it and [n] is 0, or [n] is the count of a consistent cached group plus
    one. *)
Definition accounted (prev : list ConsistentGroup) (connected : KFptr -> gset KFptr)
    (tmpCandidateKFs : list KFptr) (gn : ConsistentGroup) : Prop :=
  exists k, k ∈ tmpCandidateKFs /\ gn.1 = connected k ∪ {[k]}
    /\ ((gn.2 = 0 /\ consistentGroupsIds prev gn.1 = [])
        \/ exists iG pg m,
             prev !! iG = Some (pg, m) /\ IsConsistent pg gn.1 = true
             /\ gn.2 = Int.add m 1).

End DetectorNotions.

Section FindLoopNotions.
Context {G : Geometry}.
Import LoopDetector.

(** What holds of a candidate that is not discarded: it is not bad, the
    BoW search gave at least 20 matches, kept in [vmatches], and its solver
    is what is left of the solver built for it. *)
Definition slot_ok (env : Env) (w : World) (currentKF : KFptr) (fixScale : bool)
    (s : slot) : Prop :=
  s_discarded s = false ->
  kf_isBad (kfs w (s_candidateKF s)) = false
  /\ 20 <= (SearchByBoW env currentKF (s_candidateKF s)).1
  /\ s_vmatches s = (SearchByBoW env currentKF (s_candidateKF s)).2
  /\ s_solver s `suffix_of`
       Sim3Solver env currentKF (s_candidateKF s)
         (SearchByBoW env currentKF (s_candidateKF s)).2 fixScale.

(** [l] is [loop] with the match of candidate [k] written into it: one
    call of [iterate] on the solver of [k] found a transform, the guided
    search and [OptimizeSim3] on it left at least 20 inliers, and
    [matchedKF], [Scw] and [matchedPoints] come from that. *)
Definition found_by (env : Env) (w : World) (currentKF : KFptr) (fixScale : bool)
    (loop : Loop) (k : KFptr) (l : Loop) : Prop :=
  let vm := (SearchByBoW env currentKF k).2 in
  exists o,
    o ∈ Sim3Solver env currentKF k vm fixScale /\ it_found o = true
    /\ let matches1 :=
         SearchBySim3 env currentKF k (select_inliers (it_isInlier o) vm) (it_Scm o) in
       let r := OptimizeSim3 env currentKF k matches1 (it_Scm o) fixScale in
       20 <= r.1.1
       /\ l = set_match k (sim3_mul r.2 (sim3_of_pose (kf_pose (kfs w k)))) r.1.2 loop.

End FindLoopNotions.

Section GatherNotions.
Context {G : Geometry}.

(** The state of the loop that gathers [loop.loopMapPoints] once the slots
    [seen] have been visited, starting from the map [w]: the points pushed
    are, without repetition, the points of [seen] that were neither bad nor
    stamped with [currentId] in [w]; they carry the stamp now and nothing
    else of the map has changed. *)
Definition gathered (currentId : Z) (w : World) (seen : list (option MPptr))
    (acc : list MPptr * World) : Prop :=
  NoDup acc.1
  /\ (forall p, p ∈ acc.1 <->
        Some p ∈ seen /\ mp_isBad (mps w p) = false
        /\ mp_loopPointForKF (mps w p) <> currentId)
  /\ kfs acc.2 = kfs w /\ keyFrameOrigins acc.2 = keyFrameOrigins w
  /\ allMapPoints acc.2 = allMapPoints w /\ bigChangeId acc.2 = bigChangeId w
  /\ (forall p, mps acc.2 p
                = if decide (p ∈ acc.1) then set_loopPointForKF currentId (mps w p)
                  else mps w p).

End GatherNotions.

(** Kinds of calls in the log: [keyframeDB_->add], the database query, and
    the calls that [LoopCorrector::Correct] and [GlobalBA] make. *)
Definition is_DBAdd (e : event) : bool :=
  match e with EvDBAdd _ => true | _ => false end.

Definition is_query (e : event) : bool :=
  match e with EvDetectLoopCandidates _ => true | _ => false end.

Definition by_corrector (e : event) : bool :=
  match e with
  | EvRequestStop | EvWaitStopped | EvRelease | EvUpdateNormalAndDepth _
  | EvAddObservation _ _ _ | EvComputeDistinctiveDescriptors _ | EvAddLoopEdge _ _
  | EvThreadSpawn _ | EvThreadDetach => true
  | _ => false
  end.

Definition is_spawn (e : event) : bool :=
  match e with EvThreadSpawn _ => true | _ => false end.

Definition is_detach (e : event) : bool :=
  match e with EvThreadDetach => true | _ => false end.

Section QueueNotions.
Context {G : Geometry}.
Import LoopClosingImpl.

(** The keyframes handed to [InsertKeyFrame] along a run, in order. *)
Definition insertions (tr : list label) : list KFptr :=
  flat_map (fun l => match l with LInsertKeyFrame k => [k] | _ => [] end) tr.

End QueueNotions.

Section GlobalBANotions.
Context {G : Geometry}.
Import GlobalBA.

(** [w'] differs from [w] at most in the poses of keyframes and in their
    bundle-adjustment members ([TcwGBA], [TcwBefGBA], [BAGlobalForKF]). *)
Definition keyframes_moved (w w' : World) : Prop :=
  mps w' = mps w /\ keyFrameOrigins w' = keyFrameOrigins w
  /\ allMapPoints w' = allMapPoints w /\ bigChangeId w' = bigChangeId w
  /\ forall k,
       kf_id (kfs w' k) = kf_id (kfs w k) /\ kf_isBad (kfs w' k) = kf_isBad (kfs w k)
       /\ kf_covisible (kfs w' k) = kf_covisible (kfs w k)
       /\ kf_connected (kfs w' k) = kf_connected (kfs w k)
       /\ kf_children (kfs w' k) = kf_children (kfs w k)
       /\ kf_mapPoints (kfs w' k) = kf_mapPoints (kfs w k).

(** [w'] differs from [w] at most in the world position of map points that
    are listed in the map and are not bad. *)
Definition points_moved (w w' : World) : Prop :=
  kfs w' = kfs w /\ keyFrameOrigins w' = keyFrameOrigins w
  /\ allMapPoints w' = allMapPoints w /\ bigChangeId w' = bigChangeId w
  /\ forall p,
       mps w' p = mps w p
       \/ (p ∈ allMapPoints w /\ mp_isBad (mps w p) = false
           /\ exists pos, mps w' p = SetWorldPos pos (mps w p)).

(** The calls of the owner of the task, in program order, with the calls
    on threads they make. *)
Inductive call : Type :=
| CRun (loopKFId : Z)
| CStop.

Definition do_call (acc : t * list event) (c : call) : t * list event :=
  let '(g, log) := acc in
  let '(g', l) := match c with CRun loopKFId => Run loopKFId g | CStop => Stop g end in
  (g', log ++ l).

Definition do_calls (cs : list call) (g : t) : t * list event :=
  fold_left do_call cs (g, []).

Definition is_CStop (c : call) : bool :=
  match c with CStop => true | CRun _ => false end.

End GlobalBANotions.

(** The calls made while the map points are corrected and fused. *)
Definition by_pass (e : event) : bool :=
  match e with
  | EvUpdateNormalAndDepth _ | EvAddObservation _ _ _
  | EvComputeDistinctiveDescriptors _ => true
  | _ => false
  end.

Section CorrectorNotions.
Context {G : Geometry}.
Import LoopCorrector.

(** The keys of a [std::map], in iteration order. *)
Definition keys {V : Type} (m : list (KFptr * V)) : list KFptr := map fst m.

(** [CameraPose(R, invs * t)] for a corrected Sim3 (source lines 604-610). *)
Definition to_SE3 (S : Sim3) : CameraPose :=
  pose_make (sim3_R S) (scalar_mul (scalar_inv (sim3_scale S)) (sim3_t S)).

End CorrectorNotions.

Section WalkNotions.
Context {G : Geometry}.
Import GlobalBA.

(** The number of turns the spanning-tree walk spends on keyframe [k] and
    what hangs below it, when the tree below [k] is at most [n] deep. *)
Fixpoint subtree_size (children : KFptr -> list KFptr) (n : nat) (k : KFptr) : nat :=
  match n with
  | O => 1
  | S n' => S (sum_list_with (subtree_size children n') (children k))
  end.

(** The keyframes that the walk meets: the origins and, with a keyframe,
    its children. *)
Inductive reachable (w : World) (roots : list KFptr) : KFptr -> Prop :=
| reachable_root k : k ∈ roots -> reachable w roots k
| reachable_child k c :
    reachable w roots k -> c ∈ kf_children (kfs w k) -> reachable w roots c.

(** Child [c] of [p] carries the correction of its parent: it is stamped
    with [loopKFId], and unless the optimizer had stamped it, its [TcwGBA]
    is its pose relative to the parent before the walk, applied to the
    [TcwGBA] of the parent. *)
Definition propagated (loopKFId : Z) (w0 w : World) (p c : KFptr) : Prop :=
  kf_BAGlobalForKF (kfs w c) = loopKFId
  /\ kf_TcwGBA (kfs w c)
     = if kf_BAGlobalForKF (kfs w0 c) =? loopKFId then kf_TcwGBA (kfs w0 c)
       else pose_mul (pose_mul (kf_pose (kfs w0 c)) (pose_inv (kf_pose (kfs w0 p))))
                     (kf_TcwGBA (kfs w p)).

(** The state of the walk started on map [w0] with [roots] in the queue,
    once the keyframes [visited] have been taken from the queue and
    [toCheck] is the queue. *)
Definition walked (loopKFId : Z) (w0 : World) (roots visited toCheck : list KFptr)
    (w : World) : Prop :=
  keyframes_moved w0 w
  /\ NoDup (visited ++ toCheck)
  /\ (forall k, k ∈ visited ++ toCheck ->
        k ∈ roots \/ exists p, p ∈ visited /\ k ∈ kf_children (kfs w0 p))
  /\ (forall k, k ∈ visited ++ toCheck -> reachable w0 roots k)
  /\ (forall r, r ∈ roots -> r ∈ visited ++ toCheck)
  /\ (forall p c, p ∈ visited -> c ∈ kf_children (kfs w0 p) -> c ∈ visited ++ toCheck)
  /\ (forall k, k ∉ visited ++ toCheck -> kfs w k = kfs w0 k)
  /\ (forall k, k ∉ visited ->
        kf_pose (kfs w k) = kf_pose (kfs w0 k)
        /\ kf_TcwBefGBA (kfs w k) = kf_TcwBefGBA (kfs w0 k))
  /\ (forall k, k ∈ visited ->
        kf_pose (kfs w k) = kf_TcwGBA (kfs w k)
        /\ kf_TcwBefGBA (kfs w k) = kf_pose (kfs w0 k))
  /\ (forall p c, p ∈ visited -> c ∈ kf_children (kfs w0 p) ->
        propagated loopKFId w0 w p c)
  /\ (forall r, r ∈ roots ->
        kf_TcwGBA (kfs w r) = kf_TcwGBA (kfs w0 r)
        /\ kf_BAGlobalForKF (kfs w r) = kf_BAGlobalForKF (kfs w0 r)).

End WalkNotions.

(** ** System *)

Module System.

(** [System::MapChanged] (System.cc): [n] is the function's static
    counter, [curn] what [mpMap->GetLastBigChangeIdx()] returns; the answer
    and the counter afterwards. *)
Definition MapChanged (n curn : Z) : bool * Z :=
  if n <? curn then (true, curn) else (false, n).

(** Successive calls, each with the index it reads: the answers in order
    and the counter at the end. *)
Fixpoint MapChanged_calls (n : Z) (readings : list Z) : list bool * Z :=
  match readings with
  | [] => ([], n)
  | curn :: rest =>
      let '(b, n1) := MapChanged n curn in
      let '(bs, n2) := MapChanged_calls n1 rest in
      (b :: bs, n2)
  end.

End System.

(** The indices of the non-null entries of a vector of map-point
    pointers, counted from [start]. *)
Fixpoint nonnull_positions (start : nat) (pts : list (option MPptr)) : list nat :=
  match pts with
  | [] => []
  | Some _ :: rest => start :: nonnull_positions (S start) rest
  | None :: rest => nonnull_positions (S start) rest
  end.

(** ** The reset, statement by statement *)

(** [ResetIfRequested] holds [mutexReset_] and not [mutexLoopQueue_], and
    [InsertKeyFrame] holds [mutexLoopQueue_] and not [mutexReset_]: a
    [push_back] can fall between any two statements of the reset.  Here
    the three statements of the reset are steps of their own;
    [RequestReset] takes [mutexReset_] for each of its accesses to the flag
    and so cannot run while the main loop is inside the reset. *)
Module Reset.

(** Where the thread of [Run] stands: as in [LoopClosingImpl.main_pc], with
    the block of [ResetIfRequested] opened up: before it takes the mutex
    and tests the flag; inside, before [keyFrameQueue_.clear()], before
    [lastLoopKFId_ = 0], before [resetRequested_ = false]. *)
Inductive pc : Type :=
| PcProcess | PcReset | PcClear | PcZero | PcFlag | PcCheck | PcExited.

(** The main loop holds [mutexReset_]. *)
Definition in_reset (p : pc) : bool :=
  match p with PcClear | PcZero | PcFlag => true | _ => false end.

Definition clear_queue (st : LoopClosingImpl.t) : LoopClosingImpl.t :=
  {| LoopClosingImpl.resetRequested_ := LoopClosingImpl.resetRequested_ st;
     LoopClosingImpl.finishRequested_ := LoopClosingImpl.finishRequested_ st;
     LoopClosingImpl.finished_ := LoopClosingImpl.finished_ st;
     LoopClosingImpl.lastLoopKFId_ := LoopClosingImpl.lastLoopKFId_ st;
     LoopClosingImpl.keyFrameQueue_ := [];
     LoopClosingImpl.detector_ := LoopClosingImpl.detector_ st;
     LoopClosingImpl.GBA_ := LoopClosingImpl.GBA_ st |}.

Definition zero_lastLoopKFId (st : LoopClosingImpl.t) : LoopClosingImpl.t :=
  {| LoopClosingImpl.resetRequested_ := LoopClosingImpl.resetRequested_ st;
     LoopClosingImpl.finishRequested_ := LoopClosingImpl.finishRequested_ st;
     LoopClosingImpl.finished_ := LoopClosingImpl.finished_ st;
     LoopClosingImpl.lastLoopKFId_ := 0;
     LoopClosingImpl.keyFrameQueue_ := LoopClosingImpl.keyFrameQueue_ st;
     LoopClosingImpl.detector_ := LoopClosingImpl.detector_ st;
     LoopClosingImpl.GBA_ := LoopClosingImpl.GBA_ st |}.

Definition clear_resetRequested (st : LoopClosingImpl.t) : LoopClosingImpl.t :=
  {| LoopClosingImpl.resetRequested_ := false;
     LoopClosingImpl.finishRequested_ := LoopClosingImpl.finishRequested_ st;
     LoopClosingImpl.finished_ := LoopClosingImpl.finished_ st;
     LoopClosingImpl.lastLoopKFId_ := LoopClosingImpl.lastLoopKFId_ st;
     LoopClosingImpl.keyFrameQueue_ := LoopClosingImpl.keyFrameQueue_ st;
     LoopClosingImpl.detector_ := LoopClosingImpl.detector_ st;
     LoopClosingImpl.GBA_ := LoopClosingImpl.GBA_ st |}.

Section Threads.
Context {G : Geometry}.

Record system := {
  impl : LoopClosingImpl.t;
  shared_map : World;
  calls : list event;
  main : pc;
  requester : LoopClosingImpl.reset_pc
}.

(** What can happen: as in [LoopClosingImpl.label], with the test of the
    flag and the three statements of the reset in place of
    [ResetIfRequested]. *)
Inductive label : Type :=
| FInsertKeyFrame (keyframe : KFptr)
| FProcess (denv : LoopDetector.Env) (cenv : LoopCorrector.Env)
| FTest
| FClear
| FZero
| FFlag
| FCheckFinish
| FRequestFinish
| FRequestResetSet
| FRequestResetPoll
| FOther (w : World) (g : GlobalBA.t).

Definition with_impl (st : LoopClosingImpl.t) (s : system) : system :=
  {| impl := st; shared_map := shared_map s; calls := calls s; main := main s;
     requester := requester s |}.

Definition with_main (p : pc) (s : system) : system :=
  {| impl := impl s; shared_map := shared_map s; calls := calls s; main := p;
     requester := requester s |}.

Definition with_requester (r : LoopClosingImpl.reset_pc) (s : system) : system :=
  {| impl := impl s; shared_map := shared_map s; calls := calls s; main := main s;
     requester := r |}.

(** One step; [None] when the label is not enabled. *)
Definition step (s : system) (l : label) : option system :=
  match l with
  | FInsertKeyFrame keyframe =>
      Some (with_impl (LoopClosingImpl.InsertKeyFrame (shared_map s) keyframe (impl s)) s)
  | FProcess denv cenv =>
      match main s with
      | PcProcess =>
          match LoopClosingImpl.process denv cenv (impl s) (shared_map s) with
          | Some (st, w, log) =>
              Some {| impl := st; shared_map := w; calls := calls s ++ log;
                      main := PcReset; requester := requester s |}
          | None => None
          end
      | _ => None
      end
  | FTest =>
      match main s with
      | PcReset =>
          if LoopClosingImpl.resetRequested_ (impl s)
          then Some (with_main PcClear s) else Some (with_main PcCheck s)
      | _ => None
      end
  | FClear =>
      match main s with
      | PcClear => Some (with_main PcZero (with_impl (clear_queue (impl s)) s))
      | _ => None
      end
  | FZero =>
      match main s with
      | PcZero => Some (with_main PcFlag (with_impl (zero_lastLoopKFId (impl s)) s))
      | _ => None
      end
  | FFlag =>
      match main s with
      | PcFlag => Some (with_main PcCheck (with_impl (clear_resetRequested (impl s)) s))
      | _ => None
      end
  | FCheckFinish =>
      match main s with
      | PcCheck =>
          if LoopClosingImpl.CheckFinish (impl s)
          then Some (with_main PcExited (with_impl (LoopClosingImpl.SetFinish (impl s)) s))
          else Some (with_main PcProcess s)
      | _ => None
      end
  | FRequestFinish => Some (with_impl (LoopClosingImpl.RequestFinish (impl s)) s)
  | FRequestResetSet =>
      match requester s with
      | LoopClosingImpl.ResetIdle =>
          if in_reset (main s) then None
          else Some (with_requester LoopClosingImpl.ResetWaiting
                       (with_impl (LoopClosingImpl.set_resetRequested (impl s)) s))
      | _ => None
      end
  | FRequestResetPoll =>
      match requester s with
      | LoopClosingImpl.ResetWaiting =>
          if in_reset (main s) then None
          else if negb (LoopClosingImpl.resetRequested_ (impl s))
               then Some (with_requester LoopClosingImpl.ResetReturned s)
               else Some s
      | _ => None
      end
  | FOther w g =>
      Some {| impl := LoopClosingImpl.with_GBA g (impl s); shared_map := w;
              calls := calls s; main := main s; requester := requester s |}
  end.

Fixpoint steps (s : system) (ls : list label) : option system :=
  match ls with
  | [] => Some s
  | l :: ls' =>
      match step s l with
      | Some s' => steps s' ls'
      | None => None
      end
  end.

(** The keyframes handed to [InsertKeyFrame] along a run, in order. *)
Definition insertions (tr : list label) : list KFptr :=
  flat_map (fun l => match l with FInsertKeyFrame k => [k] | _ => [] end) tr.

(** What can happen while the main loop is between [clear()] and the end
    of the reset: [lastLoopKFId_ = 0], and the steps of threads that do not
    need [mutexReset_]. *)
Definition during_reset (l : label) : bool :=
  match l with
  | FZero | FInsertKeyFrame _ | FRequestFinish | FOther _ _ => true
  | _ => false
  end.

(** The states a run goes through, the first one included. *)
Fixpoint states (s : system) (ls : list label) : list system :=
  s :: match ls with
       | [] => []
       | l :: ls' =>
           match step s l with
           | Some s' => states s' ls'
           | None => []
           end
       end.

End Threads.

End Reset.

(** ** More inputs to run the model on *)

Module MoreExamples.
Import Symbolic LoopDetector.

(** A database that proposes nothing. *)
Definition env_none : Env :=
  {| score := fun _ _ => 1%Q;
     DetectLoopCandidates := fun _ _ => [];
     SearchByBoW := fun _ _ => (0, []);
     Sim3Solver := fun _ _ _ _ => [];
     SearchBySim3 := fun _ _ ms _ => ms;
     OptimizeSim3 := fun _ _ ms S _ => (0, ms, S);
     SearchByProjection := fun _ _ _ ms => ms |}.

(** As [Example.env true], with a projection search that leaves a null
    slot before and after [n] matched slots. *)
Definition env_proj (n : nat) : Env :=
  {| score := score (Example.env true 0);
     DetectLoopCandidates := DetectLoopCandidates (Example.env true 0);
     SearchByBoW := SearchByBoW (Example.env true 0);
     Sim3Solver := Sim3Solver (Example.env true 0);
     SearchBySim3 := SearchBySim3 (Example.env true 0);
     OptimizeSim3 := OptimizeSim3 (Example.env true 0);
     SearchByProjection := fun _ _ _ _ => None :: replicate n (Some 1%nat) ++ [None] |}.

(** The map of [Example.world] with a spanning tree: keyframe 1 has the
    children 2 and 3, keyframe 2 has the child 4. *)
Definition tree_keyframe (k : KFptr) : KeyFrame :=
  {| kf_id := kf_id (Example.keyframe k); kf_isBad := kf_isBad (Example.keyframe k);
     kf_pose := kf_pose (Example.keyframe k);
     kf_TcwGBA := kf_TcwGBA (Example.keyframe k);
     kf_TcwBefGBA := kf_TcwBefGBA (Example.keyframe k);
     kf_BAGlobalForKF := kf_BAGlobalForKF (Example.keyframe k);
     kf_covisible := kf_covisible (Example.keyframe k);
     kf_connected := kf_connected (Example.keyframe k);
     kf_children := match k with
                    | 1%nat => [2%nat; 3%nat]
                    | 2%nat => [4%nat]
                    | _ => []
                    end;
     kf_mapPoints := kf_mapPoints (Example.keyframe k) |}.

Definition tree_world : World :=
  {| kfs := tree_keyframe; mps := mps Example.world;
     keyFrameOrigins := [1%nat]; allMapPoints := allMapPoints Example.world;
     bigChangeId := 0 |}.

(** The depth of the tree below a keyframe of [tree_world]. *)
Definition tree_rank (k : KFptr) : nat :=
  match k with 1%nat => 2%nat | 2%nat => 1%nat | _ => 0%nat end.

(** The threads of [Example.threads], with the reset opened up. *)
Definition fine_threads (queue : list KFptr) (p : Reset.pc) : Reset.system :=
  {| Reset.impl := Example.closer queue;
     Reset.shared_map := Example.world;
     Reset.calls := [];
     Reset.main := p;
     Reset.requester := LoopClosingImpl.ResetIdle |}.

End MoreExamples.

(** * Properties *)

Example check_consistency_fresh :
  LoopDetector.currConsistentGroups
    (LoopDetector.check_consistency (LoopDetector.new true) (fun _ => {[2%nat]}) [1%nat])
  = [({[1%nat; 2%nat]}, 0)].
Proof. vm_compute. reflexivity. Qed.

(** ** Machine integers *)

Lemma to_int_in_int z : Int.in_int z -> Int.to_int z = z.
Proof.
  unfold Int.in_int, Int.INT_MIN, Int.INT_MAX, Int.to_int. intros H.
  rewrite Z.mod_small; lia.
Qed.

Lemma to_int_range z : Int.in_int (Int.to_int z).
Proof.
  unfold Int.in_int, Int.INT_MIN, Int.INT_MAX, Int.to_int.
  pose proof (Z.mod_pos_bound (z + 2 ^ 31) (2 ^ 32)). lia.
Qed.

Lemma to_int_le z : 0 <= z -> Int.to_int z <= z.
Proof.
  unfold Int.to_int. intros H.
  pose proof (Z.mod_le (z + 2 ^ 31) (2 ^ 32)). lia.
Qed.


Lemma add_small a b : Int.in_int (a + b) -> Int.add a b = a + b.
Proof. apply to_int_in_int. Qed.

(** ** The consistency check *)

Section Consistency.
Import LoopDetector.

Lemma group_step_candidates prev minC k g c b iG :
  let hit := minC <=? Int.add (nth iG prev (∅, 0)).2 1 in
  candidateKFs (group_step prev minC k g (c, b) iG).1
    = candidateKFs c ++ (if negb b && hit then [k] else [])
  /\ (group_step prev minC k g (c, b) iG).2 = b || hit.
Proof.
  unfold group_step. cbv zeta.
  match goal with |- context [minC <=? ?x] => destruct (minC <=? x) end;
    destruct b, (negb (nth iG (consistentFound c) false)); simpl;
    rewrite ?app_nil_r; done.
Qed.

Lemma fold_group_step prev minC k g ids c b :
  candidateKFs (fold_left (group_step prev minC k g) ids (c, b)).1
    = candidateKFs c
      ++ (if negb b && existsb (fun iG => minC <=? Int.add (nth iG prev (∅, 0)).2 1) ids
          then [k] else [])
  /\ (fold_left (group_step prev minC k g) ids (c, b)).2
    = b || existsb (fun iG => minC <=? Int.add (nth iG prev (∅, 0)).2 1) ids.
Proof.
  revert c b. induction ids as [|iG ids IH]; intros c b; cbn [fold_left existsb].
  - rewrite andb_false_r, orb_false_r, app_nil_r. done.
  - destruct (group_step_candidates prev minC k g c b iG) as [H1 H2].
    destruct (group_step prev minC k g (c, b) iG) as [c' b'] eqn:E.
    simpl in H1, H2. destruct (IH c' b') as [IH1 IH2].
    rewrite IH1, IH2, H1, H2. clear.
    match goal with |- context [minC <=? ?x] => destruct (minC <=? x) end;
      destruct b; simpl; rewrite ?app_nil_r, <- ?app_assoc; done.
Qed.

Lemma candidate_step_candidates prev minC conn c k :
  candidateKFs (candidate_step prev minC conn c k)
  = candidateKFs c ++ (if reaches prev minC (conn k ∪ {[k]}) then [k] else []).
Proof.
  unfold candidate_step, reaches.
  pose proof (fold_group_step prev minC k (conn k ∪ {[k]})
                (consistentGroupsIds prev (conn k ∪ {[k]})) c false) as [H _].
  simpl in H.
  destruct (fold_left _ _ _) as [c1 b1]. simpl in H.
  destruct (consistentGroupsIds prev (conn k ∪ {[k]})); simpl in *; done.
Qed.

Lemma fold_candidate_step_candidates prev minC conn tmp c :
  candidateKFs (fold_left (candidate_step prev minC conn) tmp c)
  = candidateKFs c
    ++ filter (fun k => reaches prev minC (conn k ∪ {[k]}) = true) tmp.
Proof.
  revert c. induction tmp as [|k tmp IH]; intros c; simpl.
  - by rewrite app_nil_r.
  - rewrite IH, candidate_step_candidates, filter_cons.
    destruct (reaches prev minC (conn k ∪ {[k]})); simpl.
    + by rewrite <- app_assoc.
    + by rewrite app_nil_r.
Qed.

(** The candidates handed to the Sim3 stage are those of
    [tmpCandidateKFs], in order, whose group reaches [minConsistency_]. *)
Lemma check_consistency_candidates d conn tmp :
  candidateKFs (check_consistency d conn tmp)
  = filter (fun k => reaches (prevConsistentGroups_ d) (minConsistency_ d)
                       (conn k ∪ {[k]}) = true) tmp.
Proof. unfold check_consistency. by rewrite fold_candidate_step_candidates. Qed.

Lemma IsConsistent_true prevGroup currGroup :
  IsConsistent prevGroup currGroup = true
  <-> exists k, k ∈ currGroup /\ k ∈ prevGroup.
Proof.
  unfold IsConsistent. rewrite existsb_exists. split.
  - intros (k & Hin & Hk). exists k. apply list_elem_of_In in Hin.
    rewrite elem_of_elements in Hin. by apply bool_decide_eq_true in Hk.
  - intros (k & Hc & Hp). exists k. split.
    + apply list_elem_of_In. by rewrite elem_of_elements.
    + by apply bool_decide_eq_true.
Qed.

Lemma reaches_true prev minC g :
  reaches prev minC g = true
  <-> exists iG pg n, prev !! iG = Some (pg, n)
        /\ IsConsistent pg g = true /\ minC <= Int.add n 1.
Proof.
  unfold reaches, consistentGroupsIds. rewrite existsb_exists. split.
  - intros (iG & Hin & Hle). apply list_elem_of_In, list_elem_of_filter in Hin.
    destruct Hin as [Hc Hseq]. apply elem_of_seq in Hseq.
    destruct (lookup_lt_is_Some_2 prev iG) as [[pg n] Hl]; [lia|].
    exists iG, pg, n. rewrite (nth_lookup_Some _ _ _ _ Hl) in Hc, Hle.
    simpl in *. split; [done|]. split; [done|]. lia.
  - intros (iG & pg & n & Hl & Hc & Hle). exists iG. split.
    + apply list_elem_of_In, list_elem_of_filter. split.
      * by rewrite (nth_lookup_Some _ _ _ _ Hl).
      * apply elem_of_seq. apply lookup_lt_Some in Hl. lia.
    + rewrite (nth_lookup_Some _ _ _ _ Hl). simpl. lia.
Qed.

Lemma consistentGroupsIds_none prev g :
  Forall (fun pg => IsConsistent pg.1 g = false) prev ->
  consistentGroupsIds prev g = [].
Proof.
  intros H. unfold consistentGroupsIds.
  destruct (filter _ _) as [|iG l] eqn:E; [done|].
  assert (Hin : iG ∈ iG :: l) by left.
  rewrite <- E in Hin. apply list_elem_of_filter in Hin as [Hc Hseq].
  apply elem_of_seq in Hseq.
  destruct (lookup_lt_is_Some_2 prev iG) as [pg Hl]; [lia|].
  rewrite (nth_lookup_Some _ _ _ _ Hl) in Hc.
  rewrite Forall_forall in H. specialize (H pg).
  rewrite H in Hc; [done|]. by eapply list_elem_of_lookup_2.
Qed.

(** A keyframe with the single candidate [A] whose group has no consistent
    cached group: the group is stored with count 0 and nothing is admitted. *)
Lemma check_first_seen d conn A :
  Forall (fun pg => IsConsistent pg.1 (conn A ∪ {[A]}) = false) (prevConsistentGroups_ d) ->
  currConsistentGroups (check_consistency d conn [A]) = [(conn A ∪ {[A]}, 0)]
  /\ candidateKFs (check_consistency d conn [A]) = [].
Proof.
  intros H. unfold check_consistency. simpl. unfold candidate_step.
  rewrite (consistentGroupsIds_none _ _ H). simpl. done.
Qed.

(** A keyframe with the single candidate [A] while the cache holds exactly
    the group of [A] with count [n]: the group is stored with count [n + 1]
    ([int] addition) and [A] is admitted iff that reaches
    [minConsistency_]. *)
Lemma check_seen_again d conn A n :
  prevConsistentGroups_ d = [(conn A ∪ {[A]}, n)] ->
  currConsistentGroups (check_consistency d conn [A])
    = [(conn A ∪ {[A]}, Int.add n 1)]
  /\ candidateKFs (check_consistency d conn [A])
    = if minConsistency_ d <=? Int.add n 1 then [A] else [].
Proof.
  intros H. unfold check_consistency. rewrite H. simpl. unfold candidate_step.
  assert (Hc : IsConsistent (conn A ∪ {[A]}) (conn A ∪ {[A]}) = true).
  { apply IsConsistent_true. exists A. set_solver. }
  unfold consistentGroupsIds. simpl. rewrite filter_cons, decide_True by done.
  rewrite filter_nil. simpl.
  destruct (minConsistency_ d <=? Int.add n 1); done.
Qed.

End Consistency.

(** ** FindLoopInCandidateKFs returns *)

Section FindLoop.
Context {G : Geometry}.
Import LoopDetector.

Lemma alive_cons s slots :
  alive (s :: slots) = ((if s_discarded s then 0 else 1) + alive slots)%nat.
Proof.
  unfold alive. rewrite filter_cons. destruct (s_discarded s); simpl; done.
Qed.

Lemma alive_app l1 l2 : alive (l1 ++ l2) = (alive l1 + alive l2)%nat.
Proof. unfold alive. by rewrite filter_app, length_app. Qed.

Lemma alive_le_budget slots : (alive slots <= budget slots)%nat.
Proof.
  induction slots as [|s slots IH]; [done|].
  rewrite alive_cons. simpl. unfold slot_budget. destruct (s_discarded s); lia.
Qed.

Lemma setup_slot_spec env w cur fs k :
  s_candidateKF (setup_slot env w cur fs k).1 = k
  /\ (setup_slot env w cur fs k).2 = negb (s_discarded (setup_slot env w cur fs k).1).
Proof.
  unfold setup_slot. destruct (kf_isBad _); [done|].
  destruct (SearchByBoW _ _ _) as [n vm]. destruct (n <? 20); done.
Qed.

Lemma setup_fold_spec env w cur fs cands acc n :
  let r := fold_left
    (fun acc candidateKF =>
       let '(s, counted) := setup_slot env w cur fs candidateKF in
       (acc.1 ++ [s], if counted then acc.2 + 1 else acc.2))
    cands (acc, n) in
  map s_candidateKF r.1 = map s_candidateKF acc ++ cands
  /\ r.2 - Z.of_nat (alive r.1) = n - Z.of_nat (alive acc).
Proof.
  revert acc n. induction cands as [|k cands IH]; intros acc n; cbn [fold_left].
  - cbv zeta. simpl. by rewrite app_nil_r.
  - destruct (setup_slot_spec env w cur fs k) as [Hk Hc].
    destruct (setup_slot env w cur fs k) as [s counted]. simpl in Hk, Hc.
    cbv zeta in IH |- *. cbn [fst snd].
    destruct (IH (acc ++ [s]) (if counted then n + 1 else n)) as [IH1 IH2].
    rewrite IH1, IH2. rewrite map_app, alive_app, <- app_assoc. simpl.
    rewrite Hk. split; [done|].
    rewrite alive_cons. subst counted. change (alive []) with 0%nat.
    destruct (s_discarded s); simpl; lia.
Qed.

Lemma setup_spec env w cur fs cands :
  map s_candidateKF (setup env w cur fs cands).1 = cands
  /\ (setup env w cur fs cands).2 = Z.of_nat (alive (setup env w cur fs cands).1).
Proof.
  destruct (setup_fold_spec env w cur fs cands [] 0) as [H1 H2].
  cbv zeta in H1, H2. unfold setup. split; [done|].
  change (alive []) with 0%nat in H2. lia.
Qed.

(** A pass that does not return keeps the candidates, keeps
    [ncandidates] equal to the number of candidates alive, and takes at
    least one unit of budget from every candidate that was alive. *)
Lemma ransac_pass_continues env w cur fs loop todo n todo' n' :
  ransac_pass env w cur fs loop todo n = inr (todo', n') ->
  map s_candidateKF todo' = map s_candidateKF todo
  /\ n' - Z.of_nat (alive todo') = n - Z.of_nat (alive todo)
  /\ (budget todo' + alive todo <= budget todo)%nat.
Proof.
  revert n todo' n'. induction todo as [|s rest IH]; intros n todo' n' H.
  - simpl in H. inversion H; subst. done.
  - cbn [ransac_pass] in H. destruct (s_discarded s) eqn:Hd.
    + destruct (ransac_pass env w cur fs loop rest n) as [l|[rest' m]] eqn:E;
        [done|]. inversion H; subst. destruct (IH _ _ _ E) as (I1 & I2 & I3).
        rewrite !alive_cons, Hd. simpl. unfold slot_budget. rewrite Hd.
        split; [by rewrite I1|]. split; lia.
    + destruct (iterate (s_solver s)) as [o solver'] eqn:Hit.
      set (n1 := if terminate solver' then n - 1 else n) in H.
      assert (Hnext :
        match ransac_pass env w cur fs loop rest n1 with
        | inl l => inl l
        | inr (rest', n'0) =>
            inr ({| s_candidateKF := s_candidateKF s;
                    s_discarded := terminate solver';
                    s_solver := solver'; s_vmatches := s_vmatches s |} :: rest', n'0)
        end = inr (todo', n')).
      { destruct (it_found o); [|done].
        destruct (OptimizeSim3 _ _ _ _ _ _) as [[nI ms] S'].
        destruct (20 <=? nI); [done|done]. }
      clear H.
      destruct (ransac_pass env w cur fs loop rest n1) as [l|[rest' m]] eqn:E;
        [done|]. inversion Hnext; subst todo' n'. clear Hnext.
      destruct (IH _ _ _ E) as (I1 & I2 & I3).
      rewrite !alive_cons. cbn [s_discarded map s_candidateKF]. rewrite Hd.
      split; [by rewrite I1|].
      assert (Hlen : length (s_solver s) = 0%nat /\ solver' = []
                     \/ length (s_solver s) = S (length solver')).
      { unfold iterate in Hit. destruct (s_solver s); inversion Hit; subst; auto. }
      cbn [budget foldr]. fold (budget rest'). fold (budget rest).
      unfold slot_budget. cbn [s_discarded s_solver]. rewrite Hd.
      subst n1.
      destruct solver'; cbn [terminate length] in *;
        destruct Hlen as [[? ?]|?]; try discriminate; split; lia.
Qed.

(** A pass that returns matched one of the candidates. *)
Lemma ransac_pass_returns env w cur fs loop todo n l :
  ransac_pass env w cur fs loop todo n = inl l ->
  exists k, matchedKF l = Some k /\ k ∈ map s_candidateKF todo.
Proof.
  revert n. induction todo as [|s rest IH]; intros n H; [done|].
  cbn [ransac_pass] in H. destruct (s_discarded s).
  - destruct (ransac_pass env w cur fs loop rest n) as [l'|[rest' m]] eqn:E;
      [|done]. inversion H; subst. destruct (IH _ E) as (k & ? & ?).
    exists k. split; [done|]. simpl. by right.
  - destruct (iterate (s_solver s)) as [o solver'].
    set (n1 := if terminate solver' then n - 1 else n) in H.
    assert (Hcases :
      (exists S ms, l = set_match (s_candidateKF s) S ms loop)
      \/ (exists l', ransac_pass env w cur fs loop rest n1 = inl l' /\ l = l')).
    { destruct (ransac_pass env w cur fs loop rest n1) as [l'|[rest' m]] eqn:E.
      - destruct (it_found o).
        + destruct (OptimizeSim3 _ _ _ _ _ _) as [[nI ms] S'].
          destruct (20 <=? nI); inversion H; eauto.
        + inversion H; eauto.
      - destruct (it_found o); [|done].
        destruct (OptimizeSim3 _ _ _ _ _ _) as [[nI ms] S'].
        destruct (20 <=? nI); inversion H; eauto. }
    destruct Hcases as [(S & ms & ->)|(l' & E & ->)].
    + exists (s_candidateKF s). split; [done|]. simpl. by left.
    + destruct (IH _ E) as (k & ? & ?). exists k. split; [done|]. simpl. by right.
Qed.

Lemma ransac_while_total fuel env w cur fs loop slots n :
  n = Z.of_nat (alive slots) ->
  (budget slots < fuel)%nat ->
  exists r, ransac_while fuel env w cur fs loop slots n = Some r.
Proof.
  revert slots n. induction fuel as [|fuel IH]; intros slots n Hn Hb; [lia|].
  cbn [ransac_while]. destruct (0 <? n) eqn:Hpos; [|eauto].
  destruct (ransac_pass env w cur fs loop slots n) as [l|[slots' n']] eqn:E; [eauto|].
  destruct (ransac_pass_continues _ _ _ _ _ _ _ _ _ E) as (_ & H2 & H3).
  apply IH; [lia|]. apply Z.ltb_lt in Hpos. lia.
Qed.

Lemma ransac_while_matched fuel env w cur fs loop slots n l :
  ransac_while fuel env w cur fs loop slots n = Some (true, l) ->
  exists k, matchedKF l = Some k /\ k ∈ map s_candidateKF slots.
Proof.
  revert slots n. induction fuel as [|fuel IH]; intros slots n H; [done|].
  cbn [ransac_while] in H. destruct (0 <? n); [|done].
  destruct (ransac_pass env w cur fs loop slots n) as [l'|[slots' n']] eqn:E.
  - inversion H; subst. eapply ransac_pass_returns; eauto.
  - destruct (ransac_pass_continues _ _ _ _ _ _ _ _ _ E) as (H1 & _ & _).
    rewrite <- H1. eauto.
Qed.

(** [FindLoopInCandidateKFs] returns, whatever the collaborators answer. *)
Lemma FindLoopInCandidateKFs_total env w cur cands loop fs :
  exists r, (FindLoopInCandidateKFs env w cur cands loop fs).1 = Some r.
Proof.
  unfold FindLoopInCandidateKFs.
  destruct (setup_spec env w cur fs cands) as [_ H].
  destruct (setup env w cur fs cands) as [slots n]. cbn [fst snd] in *.
  apply ransac_while_total; [done|lia].
Qed.

(** Its calls to the keyframes: one [SetNotErase] per candidate, in order. *)
Lemma FindLoopInCandidateKFs_log env w cur cands loop fs :
  (FindLoopInCandidateKFs env w cur cands loop fs).2 = map EvSetNotErase cands.
Proof.
  unfold FindLoopInCandidateKFs. by destruct (setup env w cur fs cands).
Qed.

(** When it returns true, [loop.matchedKF] is one of the candidates. *)
Lemma FindLoopInCandidateKFs_matched env w cur cands loop fs l :
  (FindLoopInCandidateKFs env w cur cands loop fs).1 = Some (true, l) ->
  exists k, matchedKF l = Some k /\ k ∈ cands.
Proof.
  unfold FindLoopInCandidateKFs.
  destruct (setup_spec env w cur fs cands) as [Hm _].
  destruct (setup env w cur fs cands) as [slots n]. cbn [fst snd] in *.
  intros H. rewrite <- Hm. eapply ransac_while_matched; eauto.
Qed.

End FindLoop.

(** ** Detect *)

Section DetectFacts.
Context {G : Geometry}.
Import LoopDetector.

Lemma filter_map_SetNotErase (e : event) (l : list KFptr) :
  length (filter (fun x => x = e) (map EvSetNotErase l))
  = length (filter (fun k => EvSetNotErase k = e) l).
Proof.
  induction l as [|k l IH]; [done|]. simpl. rewrite !filter_cons.
  destruct (decide (EvSetNotErase k = e)); simpl; by rewrite IH.
Qed.

Lemma filter_map_SetErase (e : event) (l : list KFptr) :
  length (filter (fun x => x = e) (map EvSetErase l))
  = length (filter (fun k => EvSetErase k = e) l).
Proof.
  induction l as [|k l IH]; [done|]. simpl. rewrite !filter_cons.
  destruct (decide (EvSetErase k = e)); simpl; by rewrite IH.
Qed.

Lemma filter_length_ext {A} (P Q : A -> Prop) `{!forall x, Decision (P x)}
    `{!forall x, Decision (Q x)} (l : list A) :
  (forall x, P x <-> Q x) -> length (filter P l) = length (filter Q l).
Proof.
  intros Hpq. induction l as [|x l IH]; [done|]. rewrite !filter_cons.
  destruct (decide (P x)) as [p|p], (decide (Q x)) as [q|q]; simpl; try lia.
  - by apply Hpq in p.
  - by apply Hpq in q.
Qed.

Lemma filter_length_none {A} (P : A -> Prop) `{!forall x, Decision (P x)} (l : list A) :
  (forall x, ~ P x) -> length (filter P l) = 0%nat.
Proof.
  intros Hp. induction l as [|x l IH]; [done|]. rewrite filter_cons.
  destruct (decide (P x)); [naive_solver|done].
Qed.

Lemma holds_app l1 l2 k : holds (l1 ++ l2) k = holds l1 k + holds l2 k.
Proof. unfold holds. rewrite !filter_app, !length_app. lia. Qed.

Lemma holds_SetNotErase l k :
  holds (map EvSetNotErase l) k = Z.of_nat (length (filter (fun x => x = k) l)).
Proof.
  unfold holds. rewrite !filter_map_SetNotErase.
  rewrite (filter_length_none (fun k0 => EvSetNotErase k0 = EvSetErase k)) by done.
  rewrite (filter_length_ext (fun k0 => EvSetNotErase k0 = EvSetNotErase k)
             (fun x => x = k)) by naive_solver.
  lia.
Qed.

Lemma holds_SetErase l k :
  holds (map EvSetErase l) k = - Z.of_nat (length (filter (fun x => x = k) l)).
Proof.
  unfold holds. rewrite !filter_map_SetErase.
  rewrite (filter_length_none (fun k0 => EvSetErase k0 = EvSetNotErase k)) by done.
  rewrite (filter_length_ext (fun k0 => EvSetErase k0 = EvSetErase k)
             (fun x => x = k)) by naive_solver.
  lia.
Qed.

Lemma check_consistency_nil d conn : candidateKFs (check_consistency d conn []) = [].
Proof. done. Qed.

Lemma FindLoopInCandidateKFs_nil env w cur loop fs :
  (FindLoopInCandidateKFs env w cur [] loop fs).1 = Some (false, loop).
Proof. done. Qed.

(** [Detect] returns, whatever the collaborators answer. *)
Lemma Detect_total env d w cur loop last :
  exists o, Detect env d w cur loop last = Some o.
Proof.
  unfold Detect. destruct (_ <? _); [eauto|].
  destruct (DetectLoopCandidates _ _ _) as [|k tmp]; [eauto|].
  destruct (candidateKFs _) as [|c cands]; [eauto|].
  destruct (FindLoopInCandidateKFs_total env w cur (c :: cands) loop (fixScale_ d))
    as [[b l] Hr].
  destruct (FindLoopInCandidateKFs _ _ _ _ _ _) as [r log1]. simpl in Hr. subst r.
  destruct b; [|eauto].
  destruct (gather_loopMapPoints _ _ _) as [pts w'].
  destruct (40 <=? _); eauto.
Qed.

(** [Detect] from the point where [FindLoopInCandidateKFs] has returned
    true with [loop1]. *)
Lemma Detect_after_found env d w cur loop last loop1 :
  let tmp := DetectLoopCandidates env cur (minScore env w cur) in
  let cands := candidateKFs (check_consistency d (fun k => kf_connected (kfs w k)) tmp) in
  let connectedKFs :=
    match matchedKF loop1 with
    | Some m => kf_covisible (kfs w m) ++ [m]
    | None => []
    end in
  let gathered := gather_loopMapPoints (kf_id (kfs w cur)) w connectedKFs in
  let matched := SearchByProjection env cur (Scw loop1) gathered.1 (matchedPoints loop1) in
  (Int.to_int (kf_id (kfs w cur)) <? Int.add last 10) = false ->
  (FindLoopInCandidateKFs env w cur cands loop (fixScale_ d)).1 = Some (true, loop1) ->
  Detect env d w cur loop last =
    Some {| o_found := 40 <=? count_matches matched;
            o_loop := {| matchedKF := matchedKF loop1; Scw := Scw loop1;
                         matchedPoints := matched; loopMapPoints := gathered.1 |};
            o_detector := set_prevConsistentGroups
              (currConsistentGroups
                 (check_consistency d (fun k => kf_connected (kfs w k)) tmp)) d;
            o_world := gathered.2;
            o_log := [EvDetectLoopCandidates cur] ++ map EvSetNotErase cands
              ++ map EvSetErase
                   (if 40 <=? count_matches matched
                    then filter (fun k => Some k ≠ matchedKF loop1) cands
                    else cands) |}.
Proof.
  intros tmp cands connectedKFs gathered matched Hf Hr.
  unfold Detect. rewrite Hf. fold tmp.
  destruct tmp as [|k0 tmp0] eqn:Etmp.
  { subst cands. rewrite check_consistency_nil, FindLoopInCandidateKFs_nil in Hr.
    done. }
  fold cands. destruct cands as [|c0 cands0] eqn:Ecands.
  { rewrite FindLoopInCandidateKFs_nil in Hr. done. }
  pose proof (FindLoopInCandidateKFs_log env w cur (c0 :: cands0) loop (fixScale_ d)) as Hl.
  destruct (FindLoopInCandidateKFs env w cur (c0 :: cands0) loop (fixScale_ d))
    as [r log1]. cbn [fst snd] in Hr, Hl. subst r log1.
  fold connectedKFs. fold gathered.
  destruct gathered as [pts w'] eqn:Eg. cbn [fst snd] in *. fold matched.
  destruct (40 <=? count_matches matched); reflexivity.
Qed.

End DetectFacts.

(** ** The detector: consistency over consecutive keyframes, admission
    filter, acceptance *)

Section DetectorProperties.
Import LoopDetector.

(** C1 (as amended): consecutive keyframes that each yield the single
    candidate [A] with the same covisibility group [g], the first of them
    finding no consistent group in the cache.  The group is stored with
    count 0 on the first keyframe, 1 on the second and 2 on the third, and
    none of the three admits [A]; the fourth stores count 3 and admits [A].
    In any call, a candidate is handed to the Sim3 stage exactly when some
    cached group consistent with its group has count + 1 >= minConsistency_. *)
Theorem consistency_admits_on_fourth_keyframe
    (d0 : t) (A : KFptr) (g : gset KFptr) (c1 c2 c3 c4 : KFptr -> gset KFptr) :
  minConsistency_ d0 = 3 ->
  Forall (fun pg => IsConsistent pg.1 g = false) (prevConsistentGroups_ d0) ->
  c1 A ∪ {[A]} = g -> c2 A ∪ {[A]} = g -> c3 A ∪ {[A]} = g -> c4 A ∪ {[A]} = g ->
  let d1 := after_check d0 c1 [A] in
  let d2 := after_check d1 c2 [A] in
  let d3 := after_check d2 c3 [A] in
  let d4 := after_check d3 c4 [A] in
  (prevConsistentGroups_ d1 = [(g, 0)]
   /\ candidateKFs (check_consistency d0 c1 [A]) = [])
  /\ (prevConsistentGroups_ d2 = [(g, 1)]
      /\ candidateKFs (check_consistency d1 c2 [A]) = [])
  /\ (prevConsistentGroups_ d3 = [(g, 2)]
      /\ candidateKFs (check_consistency d2 c3 [A]) = [])
  /\ (prevConsistentGroups_ d4 = [(g, 3)]
      /\ candidateKFs (check_consistency d3 c4 [A]) = [A])
  /\ (forall d conn tmp k,
        k ∈ candidateKFs (check_consistency d conn tmp)
        <-> k ∈ tmp
            /\ exists iG pg n,
                 prevConsistentGroups_ d !! iG = Some (pg, n)
                 /\ IsConsistent pg (conn k ∪ {[k]}) = true
                 /\ minConsistency_ d <= Int.add n 1).
Proof.
  intros Hmin Hnone E1 E2 E3 E4 d1 d2 d3 d4.
  rewrite <- E1 in Hnone.
  destruct (check_first_seen d0 c1 A Hnone) as [G1 A1].
  assert (P1 : prevConsistentGroups_ d1 = [(g, 0)]).
  { unfold d1, after_check. simpl. by rewrite G1, E1. }
  assert (P1' : prevConsistentGroups_ d1 = [(c2 A ∪ {[A]}, 0)]) by by rewrite E2.
  destruct (check_seen_again d1 c2 A 0 P1') as [G2 A2].
  assert (P2 : prevConsistentGroups_ d2 = [(g, 1)]).
  { unfold d2, after_check. simpl. by rewrite G2, E2. }
  assert (P2' : prevConsistentGroups_ d2 = [(c3 A ∪ {[A]}, 1)]) by by rewrite E3.
  destruct (check_seen_again d2 c3 A 1 P2') as [G3 A3].
  assert (P3 : prevConsistentGroups_ d3 = [(g, 2)]).
  { unfold d3, after_check. simpl. by rewrite G3, E3. }
  assert (P3' : prevConsistentGroups_ d3 = [(c4 A ∪ {[A]}, 2)]) by by rewrite E4.
  destruct (check_seen_again d3 c4 A 2 P3') as [G4 A4].
  assert (P4 : prevConsistentGroups_ d4 = [(g, 3)]).
  { unfold d4, after_check. simpl. by rewrite G4, E4. }
  assert (M1 : minConsistency_ d1 = 3) by done.
  assert (M2 : minConsistency_ d2 = 3) by done.
  assert (M3 : minConsistency_ d3 = 3) by done.
  rewrite M1 in A2. rewrite M2 in A3. rewrite M3 in A4.
  do 4 (split; [done|]).
  intros d conn tmp k.
  rewrite check_consistency_candidates, list_elem_of_filter, reaches_true.
  tauto.
Qed.

(** C2: a call whose keyframe id is below [lastLoopKFId + 10] returns
    false at once, with the loop, the detector and the map as they were and
    no call logged (so no database query); hence a call that accepts a loop
    has [currentKF.id - lastLoopKFId >= 10].  The id is a non-negative
    [frameid_t] and [lastLoopKFId + 10] is computed on [int] without
    overflow. *)
Theorem Detect_admission_filter {G : Geometry}
    (env : Env) (d : t) (w : World) (currentKF : KFptr) (loop : Loop)
    (lastLoopKFId : Z) :
  0 <= kf_id (kfs w currentKF) ->
  Int.INT_MIN <= lastLoopKFId -> lastLoopKFId + 10 <= Int.INT_MAX ->
  (kf_id (kfs w currentKF) < lastLoopKFId + 10 ->
   Detect env d w currentKF loop lastLoopKFId
   = Some {| o_found := false; o_loop := loop; o_detector := d; o_world := w;
             o_log := [] |})
  /\ (forall o, Detect env d w currentKF loop lastLoopKFId = Some o ->
                o_found o = true ->
                kf_id (kfs w currentKF) - lastLoopKFId >= 10).
Proof.
  intros Hid Hlo Hhi.
  assert (Hadd : Int.add lastLoopKFId 10 = lastLoopKFId + 10).
  { apply add_small. unfold Int.in_int. lia. }
  split.
  - intros Hlt. unfold Detect. rewrite Hadd.
    rewrite to_int_in_int by (unfold Int.in_int, Int.INT_MIN in *; lia).
    by rewrite (proj2 (Z.ltb_lt _ _) Hlt).
  - intros o Ho Hfound. unfold Detect in Ho. rewrite Hadd in Ho.
    destruct (Int.to_int (kf_id (kfs w currentKF)) <? lastLoopKFId + 10) eqn:E.
    + inversion Ho; subst. done.
    + apply Z.ltb_ge in E. pose proof (to_int_le _ Hid). lia.
Qed.

Lemma nonnull_positions_length start pts :
  length (nonnull_positions start pts) = length (filter (fun m => is_Some m) pts).
Proof.
  revert start. induction pts as [|[p|] pts IH]; intros start; [done| |].
  - cbn [nonnull_positions]. rewrite filter_cons, decide_True by by eexists.
    simpl. by rewrite IH.
  - cbn [nonnull_positions]. rewrite filter_cons, decide_False; [apply IH|].
    intros [? ?]. discriminate.
Qed.

Lemma nonnull_positions_elem start pts j :
  j ∈ nonnull_positions start pts
  <-> (start <= j)%nat /\ exists p, pts !! (j - start)%nat = Some (Some p).
Proof.
  revert start. induction pts as [|m pts IH]; intros start.
  - simpl. split; [intros H; by apply elem_of_nil in H|]. intros (_ & p & H). done.
  - assert (Hrest : j ∈ nonnull_positions (S start) pts
                    <-> (start < j)%nat /\ exists p, (m :: pts) !! (j - start)%nat = Some (Some p)).
    { rewrite IH. split.
      - intros (Hle & p & Hp). split; [lia|]. exists p.
        replace (j - start)%nat with (S (j - S start)) by lia. done.
      - intros (Hlt & p & Hp). split; [lia|]. exists p.
        replace (j - start)%nat with (S (j - S start)) in Hp by lia. done. }
    destruct m as [p0|]; cbn [nonnull_positions].
    + rewrite elem_of_cons, Hrest. split.
      * intros [->|(Hlt & p & Hp)].
        -- split; [lia|]. exists p0. by rewrite Nat.sub_diag.
        -- split; [lia|]. by exists p.
      * intros (Hle & p & Hp). destruct (decide (j = start)) as [->|Hne]; [by left|].
        right. split; [lia|]. by exists p.
    + rewrite Hrest. split.
      * intros (Hlt & p & Hp). split; [lia|]. by exists p.
      * intros (Hle & p & Hp). destruct (decide (j = start)) as [->|Hne].
        -- rewrite Nat.sub_diag in Hp. discriminate.
        -- split; [lia|]. by exists p.
Qed.

Lemma nonnull_positions_NoDup start pts : NoDup (nonnull_positions start pts).
Proof.
  revert start. induction pts as [|[p|] pts IH]; intros start; cbn [nonnull_positions].
  - constructor.
  - apply NoDup_cons. split; [|apply IH].
    intros Hin. apply nonnull_positions_elem in Hin as [Hle _]. lia.
  - apply IH.
Qed.

(** At least [n] entries are non-null iff there are [n] distinct indices
    that hold a non-null entry. *)
Lemma count_matches_at_least (n : nat) (pts : list (option MPptr)) :
  Z.of_nat n <= count_matches pts
  <-> exists js, NoDup js /\ length js = n
                 /\ forall j, j ∈ js -> exists p, pts !! j = Some (Some p).
Proof.
  unfold count_matches. rewrite <- (nonnull_positions_length 0). split.
  - intros Hle. exists (take n (nonnull_positions 0 pts)).
    split; [eapply sublist_NoDup; [apply nonnull_positions_NoDup|apply sublist_take]|].
    split; [rewrite length_take; lia|].
    intros j Hj. apply elem_of_take in Hj as (i & Hi & _).
    apply list_elem_of_lookup_2 in Hi.
    apply nonnull_positions_elem in Hi as (_ & q & Hq).
    rewrite Nat.sub_0_r in Hq. by exists q.
  - intros (js & Hnd & Hlen & Hall).
    assert (Hsub : js ⊆+ nonnull_positions 0 pts).
    { apply NoDup_submseteq; [done|]. intros j Hj.
      apply nonnull_positions_elem. split; [lia|].
      rewrite Nat.sub_0_r. by apply Hall. }
    apply submseteq_length in Hsub. lia.
Qed.

(** C7: once [FindLoopInCandidateKFs] has found a candidate and the
    projection search has filled [matchedPoints], [Detect] returns true iff
    at least 40 slots are non-null.  When it returns true, the calls after
    the [SetNotErase] of the candidates are one [SetErase] per admitted
    candidate other than the matched keyframe; when it returns false, one
    [SetErase] per admitted candidate, so that the call leaves no hold on
    any keyframe.  The vector counted is the one the projection search
    filled, and the count is stated on its entries: the loop is accepted
    iff 40 distinct indices of it hold a non-null pointer. *)
Theorem Detect_accepts_iff_40_matches {G : Geometry}
    (env : Env) (d : t) (w : World) (currentKF : KFptr) (loop loop1 : Loop)
    (lastLoopKFId : Z) :
  let tmp := DetectLoopCandidates env currentKF (minScore env w currentKF) in
  let cands := candidateKFs (check_consistency d (fun k => kf_connected (kfs w k)) tmp) in
  (Int.to_int (kf_id (kfs w currentKF)) <? Int.add lastLoopKFId 10) = false ->
  (FindLoopInCandidateKFs env w currentKF cands loop (fixScale_ d)).1
    = Some (true, loop1) ->
  exists o,
    Detect env d w currentKF loop lastLoopKFId = Some o
    /\ matchedKF (o_loop o) = matchedKF loop1
    /\ (o_found o = true <-> 40 <= count_matches (matchedPoints (o_loop o)))
    /\ (o_found o = true ->
        o_log o = [EvDetectLoopCandidates currentKF] ++ map EvSetNotErase cands
                  ++ map EvSetErase
                       (filter (fun k => Some k ≠ matchedKF loop1) cands))
    /\ (o_found o = false ->
        o_log o = [EvDetectLoopCandidates currentKF] ++ map EvSetNotErase cands
                  ++ map EvSetErase cands
        /\ forall k, holds (o_log o) k = 0)
    /\ matchedPoints (o_loop o)
       = SearchByProjection env currentKF (Scw loop1) (loopMapPoints (o_loop o))
           (matchedPoints loop1)
    /\ (o_found o = true <->
        exists js : list nat,
          NoDup js /\ length js = 40%nat
          /\ forall j, j ∈ js -> exists p, matchedPoints (o_loop o) !! j = Some (Some p))
    /\ (forall P rest, count_matches (Some P :: rest) = 1 + count_matches rest)
    /\ (forall rest, count_matches (None :: rest) = count_matches rest)
    /\ count_matches [] = 0.
Proof.
  intros tmp cands Hf Hr.
  eexists. split; [by apply Detect_after_found|]. cbn [o_found o_loop o_log matchedKF matchedPoints loopMapPoints].
  split; [done|]. split; [apply Z.leb_le|].
  split; [intros ->; done|]. split.
  { intros ->. split; [done|].
    intros k. rewrite !holds_app, holds_SetNotErase, holds_SetErase.
    unfold holds. simpl. lia. }
  split; [done|]. split.
  { rewrite Z.leb_le. apply (count_matches_at_least 40). }
  split; [|split; [|done]].
  - intros P rest. unfold count_matches.
    rewrite filter_cons, decide_True by by eexists. simpl. lia.
  - intros rest. unfold count_matches.
    rewrite filter_cons, decide_False; [done|]. intros [? ?]. discriminate.
Qed.

End DetectorProperties.

Section DetectorRuns.
Import LoopDetector Symbolic.

(** A fresh detector and four keyframes that each propose keyframe 1 with
    the group {1, 2}: admitted on the fourth. *)
Lemma consistency_admits_on_fourth_keyframe_witness :
  let c := fun _ : KFptr => ({[2%nat]} : gset KFptr) in
  let d0 := new true in
  minConsistency_ d0 = 3
  /\ Forall (fun pg => IsConsistent pg.1 ({[2%nat]} ∪ {[1%nat]}) = false)
            (prevConsistentGroups_ d0)
  /\ candidateKFs
       (check_consistency
          (after_check (after_check (after_check d0 c [1%nat]) c [1%nat]) c [1%nat])
          c [1%nat]) = [1%nat].
Proof.
  intros c d0. split; [reflexivity|]. split; [constructor|].
  pose proof (consistency_admits_on_fourth_keyframe d0 1%nat ({[2%nat]} ∪ {[1%nat]})
                c c c c eq_refl (Forall_nil_2 _) eq_refl eq_refl eq_refl eq_refl) as H.
  apply H.
Defined.

(** C1 as stated does not hold: a fresh detector that sees keyframes
    20, 21 and 22, each proposing keyframe 1 with the group {1, 2}, admits
    nothing on the third; the three calls of [Detect] log the database query
    and no [SetNotErase], and the third consistency check hands no candidate
    to the Sim3 stage. *)
Lemma third_keyframe_does_not_admit :
  let c := fun k : KFptr => kf_connected (kfs Example.world k) in
  let d0 := new true in
  (map (fun o => (o_found o, o_log o))
     <$> Detect_stream (Example.env true 40) d0 Example.world
           [20%nat; 21%nat; 22%nat] 0)
  = Some [(false, [EvDetectLoopCandidates 20%nat]);
          (false, [EvDetectLoopCandidates 21%nat]);
          (false, [EvDetectLoopCandidates 22%nat])]
  /\ ~ 1%nat ∈ candidateKFs
         (check_consistency (after_check (after_check d0 c [1%nat]) c [1%nat])
            c [1%nat]).
Proof.
  split.
  - vm_compute. reflexivity.
  - vm_compute. intros H. inversion H.
Qed.

(** The same stream with a fourth keyframe: the candidate is handed to the
    Sim3 stage on the fourth call and the loop is accepted. *)
Example fourth_keyframe_admits :
  (map (fun o => (o_found o, o_log o))
     <$> Detect_stream (Example.env true 40) (new true) Example.world
           [20%nat; 21%nat; 22%nat; 23%nat] 0)
  = Some [(false, [EvDetectLoopCandidates 20%nat]);
          (false, [EvDetectLoopCandidates 21%nat]);
          (false, [EvDetectLoopCandidates 22%nat]);
          (true, [EvDetectLoopCandidates 23%nat; EvSetNotErase 1%nat])].
Proof. vm_compute. reflexivity. Qed.

(** Keyframe 5 right after a loop closed at keyframe 0. *)
Lemma Detect_admission_filter_witness :
  0 <= kf_id (kfs Example.world 5%nat)
  /\ Int.INT_MIN <= 0 /\ 0 + 10 <= Int.INT_MAX
  /\ kf_id (kfs Example.world 5%nat) < 0 + 10
  /\ Detect (Example.env true 40) (new true) Example.world 5%nat Loop_fresh 0
     = Some {| o_found := false; o_loop := Loop_fresh; o_detector := new true;
               o_world := Example.world; o_log := [] |}.
Proof.
  assert (H1 : 0 <= kf_id (kfs Example.world 5%nat)) by (simpl; lia).
  assert (H2 : Int.INT_MIN <= 0) by (unfold Int.INT_MIN; lia).
  assert (H3 : 0 + 10 <= Int.INT_MAX) by (unfold Int.INT_MAX; lia).
  assert (H4 : kf_id (kfs Example.world 5%nat) < 0 + 10) by (simpl; lia).
  repeat (split; [assumption|]).
  exact (proj1 (Detect_admission_filter (Example.env true 40) (new true)
                  Example.world 5%nat Loop_fresh 0 H1 H2 H3) H4).
Defined.

(** Keyframe 20 with the group of keyframe 1 cached at count 2, a solver
    that succeeds and 40 slots matched after the projection search. *)
Lemma Detect_accepts_iff_40_matches_witness :
  let d := set_prevConsistentGroups [({[1%nat; 2%nat]}, 2)] (new true) in
  let loop1 :=
    set_match 1%nat (sim3_mul (Atom 7) (sim3_of_pose (Atom 101)))
      (replicate 25 (Some 1%nat)) Loop_fresh in
  (Int.to_int (kf_id (kfs Example.world 20%nat)) <? Int.add 0 10) = false
  /\ (FindLoopInCandidateKFs (MoreExamples.env_proj 40) Example.world 20%nat [1%nat]
        Loop_fresh true).1 = Some (true, loop1)
  /\ (FindLoopInCandidateKFs (MoreExamples.env_proj 39) Example.world 20%nat [1%nat]
        Loop_fresh true).1 = Some (true, loop1)
  /\ (exists o,
        Detect (MoreExamples.env_proj 40) d Example.world 20%nat Loop_fresh 0 = Some o
        /\ matchedPoints (o_loop o) = None :: replicate 40 (Some 1%nat) ++ [None]
        /\ o_found o = true)
  /\ (exists o,
        Detect (MoreExamples.env_proj 39) d Example.world 20%nat Loop_fresh 0 = Some o
        /\ matchedPoints (o_loop o) = None :: replicate 39 (Some 1%nat) ++ [None]
        /\ o_found o = false).
Proof.
  intros d loop1.
  assert (H1 : (Int.to_int (kf_id (kfs Example.world 20%nat)) <? Int.add 0 10) = false)
    by (vm_compute; reflexivity).
  assert (H2 : (FindLoopInCandidateKFs (MoreExamples.env_proj 40) Example.world 20%nat
                  [1%nat] Loop_fresh true).1 = Some (true, loop1))
    by (vm_compute; reflexivity).
  assert (H3 : (FindLoopInCandidateKFs (MoreExamples.env_proj 39) Example.world 20%nat
                  [1%nat] Loop_fresh true).1 = Some (true, loop1))
    by (vm_compute; reflexivity).
  split; [exact H1|]. split; [exact H2|]. split; [exact H3|]. split.
  - destruct (Detect_accepts_iff_40_matches (MoreExamples.env_proj 40) d Example.world
                20%nat Loop_fresh loop1 0 H1 H2)
      as (o & Ho & _ & _ & _ & _ & Hmp & Hpos & _).
    exists o. split; [exact Ho|]. split; [exact Hmp|].
    apply (proj2 Hpos). exists (seq 1 40).
    split; [apply NoDup_seq|]. split; [apply length_seq|].
    intros j Hj. apply elem_of_seq in Hj. exists 1%nat. rewrite Hmp.
    destruct j as [|j]; [lia|].
    change ((replicate 40 (Some 1%nat) ++ [None]) !! j = Some (Some 1%nat)).
    rewrite lookup_app_l by (rewrite length_replicate; lia).
    apply lookup_replicate_2. lia.
  - destruct (Detect_accepts_iff_40_matches (MoreExamples.env_proj 39) d Example.world
                20%nat Loop_fresh loop1 0 H1 H3)
      as (o & Ho & _ & Hcount & _ & _ & Hmp & _).
    exists o. split; [exact Ho|]. split; [exact Hmp|].
    destruct (o_found o); [|reflexivity].
    exfalso. pose proof (proj1 Hcount eq_refl) as Hle. rewrite Hmp in Hle.
    vm_compute in Hle. apply Hle. reflexivity.
Defined.

End DetectorRuns.

(** ** GlobalBA: the map-point pass, stale workers, the flags after Stop *)

Section GlobalBAFacts.
Context {G : Geometry}.
Import GlobalBA.

Lemma correct_mappoint_kfs loopKFId w p :
  kfs (correct_mappoint loopKFId w p) = kfs w.
Proof.
  unfold correct_mappoint. destruct (mp_isBad _); [done|].
  destruct (_ =? _); [done|]. destruct (negb _); done.
Qed.

Lemma correct_mappoint_other loopKFId w p q :
  q <> p -> mps (correct_mappoint loopKFId w p) q = mps w q.
Proof.
  intros Hne. unfold correct_mappoint. destruct (mp_isBad _); [done|].
  destruct (_ =? _); [simpl; by rewrite fn_lookup_insert_ne|].
  destruct (negb _); [done|]. simpl. by rewrite fn_lookup_insert_ne.
Qed.

(** What the pass makes of a map point is a function of the point and of
    the keyframes. *)
Lemma correct_mappoint_at loopKFId w1 w2 p :
  kfs w1 = kfs w2 -> mps w1 p = mps w2 p ->
  mps (correct_mappoint loopKFId w1 p) p = mps (correct_mappoint loopKFId w2 p) p.
Proof.
  intros Hk Hp. unfold correct_mappoint. rewrite Hk, Hp.
  destruct (mp_isBad _); [done|].
  destruct (_ =? _); [simpl; by rewrite !fn_lookup_insert|].
  destruct (negb _); [done|]. simpl. by rewrite !fn_lookup_insert.
Qed.

Lemma fold_correct_mappoint_kfs loopKFId l w :
  kfs (fold_left (correct_mappoint loopKFId) l w) = kfs w.
Proof.
  revert w. induction l as [|a l IH]; intros w; [done|].
  simpl. by rewrite IH, correct_mappoint_kfs.
Qed.

Lemma fold_correct_mappoint_other loopKFId l w q :
  q ∉ l -> mps (fold_left (correct_mappoint loopKFId) l w) q = mps w q.
Proof.
  revert w. induction l as [|a l IH]; intros w Hq; [done|].
  apply not_elem_of_cons in Hq as [Hne Hq]. simpl.
  rewrite IH by done. by apply correct_mappoint_other.
Qed.

Lemma fold_correct_mappoint_at loopKFId l w p :
  NoDup l -> p ∈ l ->
  mps (fold_left (correct_mappoint loopKFId) l w) p
  = mps (correct_mappoint loopKFId w p) p.
Proof.
  revert w. induction l as [|a l IH]; intros w Hnd Hp; [by apply elem_of_nil in Hp|].
  apply NoDup_cons in Hnd as [Ha Hnd]. simpl.
  destruct (decide (p = a)) as [->|Hne].
  - by apply fold_correct_mappoint_other.
  - apply elem_of_cons in Hp as [?|Hp]; [done|].
    rewrite IH by done. apply correct_mappoint_at.
    + apply correct_mappoint_kfs.
    + by apply correct_mappoint_other.
Qed.

(** C4: the map-point pass of the global bundle adjustment task.  For a
    map point of the map that is not bad: stamped with [loopKFId], its
    position becomes its [posGBA]; otherwise, with a reference keyframe
    stamped with [loopKFId], its position becomes the old position taken
    into the camera by the reference's [TcwBefGBA] and back by the inverse
    of the reference's pose; with an unstamped reference keyframe it is
    left as it is.  Nothing else of the point changes. *)
Theorem correct_mappoints_spec (loopKFId : Z) (w : World) (P : MPptr) :
  NoDup (allMapPoints w) -> P ∈ allMapPoints w ->
  mp_isBad (mps w P) = false ->
  let x := mps w P in
  let x' := mps (correct_mappoints loopKFId w) P in
  let referenceKF := kfs w (mp_referenceKF x) in
  (mp_BAGlobalForKF x = loopKFId -> x' = SetWorldPos (mp_posGBA x) x)
  /\ (mp_BAGlobalForKF x <> loopKFId ->
      kf_BAGlobalForKF referenceKF = loopKFId ->
      let Xc := vec_add (rot_apply (pose_R (kf_TcwBefGBA referenceKF)) (mp_worldPos x))
                        (pose_t (kf_TcwBefGBA referenceKF)) in
      let Twc := pose_inv (kf_pose referenceKF) in
      x' = SetWorldPos (vec_add (rot_apply (pose_R Twc) Xc) (pose_t Twc)) x)
  /\ (mp_BAGlobalForKF x <> loopKFId ->
      kf_BAGlobalForKF referenceKF <> loopKFId ->
      x' = x).
Proof.
  intros Hnd Hin Hbad x x' referenceKF.
  assert (Hx' : x' = mps (correct_mappoint loopKFId w P) P).
  { unfold x', correct_mappoints. by apply fold_correct_mappoint_at. }
  rewrite Hx'. unfold correct_mappoint. fold x. fold referenceKF.
  unfold x in Hbad |- *. rewrite Hbad. fold x.
  split; [|split].
  - intros ->. rewrite Z.eqb_refl. simpl. by rewrite fn_lookup_insert.
  - intros Hne Href. rewrite (proj2 (Z.eqb_neq _ _) Hne), Href, Z.eqb_refl.
    simpl. by rewrite fn_lookup_insert.
  - intros Hne Href.
    rewrite (proj2 (Z.eqb_neq _ _) Hne), (proj2 (Z.eqb_neq _ _) Href). done.
Qed.









End GlobalBAFacts.

Section GlobalBARuns.
Import GlobalBA Symbolic.

(** Map point 2 of the example map: not stamped, its reference keyframe 1
    is. *)
Lemma correct_mappoints_spec_witness :
  NoDup (allMapPoints Example.world)
  /\ 2%nat ∈ allMapPoints Example.world
  /\ mp_isBad (mps Example.world 2%nat) = false
  /\ mp_worldPos (mps (correct_mappoints 7 Example.world) 2%nat)
     = vec_add (rot_apply (pose_R (pose_inv (Atom 101)))
                  (vec_add (rot_apply (pose_R (Atom 301)) (Atom 402))
                           (pose_t (Atom 301))))
               (pose_t (pose_inv (Atom 101))).
Proof.
  assert (H1 : NoDup (allMapPoints Example.world)) by (refine (bool_decide_unpack _ _); vm_compute; exact I).
  assert (H2 : 2%nat ∈ allMapPoints Example.world) by (refine (bool_decide_unpack _ _); vm_compute; exact I).
  assert (H3 : mp_isBad (mps Example.world 2%nat) = false) by reflexivity.
  repeat (split; [assumption|]).
  destruct (correct_mappoints_spec 7 Example.world 2%nat H1 H2 H3) as (_ & H & _).
  rewrite H; [reflexivity| simpl; lia | reflexivity].
Defined.



(** C9, counterexample: [Stop] arrives after [Run] has started the worker
    and before the worker has read [fullBAIdx_].  The worker then reads the
    incremented index, is not stale, and its epilogue sets
    [running_ = false] and [finished_ = true], although [Run] is not called
    again. *)
Theorem Stop_before_the_index_is_read_lets_the_flags_flip :
  let s := {| gba := new; world := Example.world; workers := [] |} in
  let tr := [LCapture 0; LRunning; LEpilogue 0 5; LFinished] in
  exists s1 s',
    steps s [LRun 7] = Some s1
    /\ Running (gba s1) = true /\ Finished (gba s1) = false
    /\ workers s1 = [Spawned 7]
    /\ forallb (fun l => negb (is_LRun l)) tr = true
    /\ steps s1 (LStop :: tr) = Some s'
    /\ Running (gba s') = false /\ Finished (gba s') = true.
Proof.
  intros s tr. eexists _, _. split; [reflexivity|].
  split; [reflexivity|]. split; [reflexivity|]. split; [reflexivity|].
  split; [reflexivity|]. split; [vm_compute; reflexivity|].
  split; reflexivity.
Qed.

(** C6, counterexample: [Stop] does not make the running worker stale
    when that worker has not read [fullBAIdx_] yet.  [Run 7] starts a
    worker, [Stop] and a new [Run 8] follow before the worker reads the
    index; the worker of [Run 7] then reads the current index, and when it
    comes back it moves keyframe 1 and map point 1, bumps the big-change
    index and sets the flags of the task. *)
Theorem worker_started_before_Stop_still_writes :
  let s := {| gba := new; world := Example.world; workers := [] |} in
  exists s1 s2 s3,
    steps s [LRun 7; LStop; LRun 8] = Some s1
    /\ workers s1 = [Spawned 7; Spawned 8]
    /\ fullBAIdx_ (gba s1) = Int.incr (fullBAIdx_ (gba s))
    /\ step s1 (LCapture 0) = Some s2
    /\ workers s2 = [Captured 7 (fullBAIdx_ (gba s1)); Spawned 8]
    /\ world s2 = Example.world
    /\ Running (gba s2) = true /\ Finished (gba s2) = false
    /\ step s2 (LEpilogue 0 5) = Some s3
    /\ Running (gba s3) = false /\ Finished (gba s3) = true
    /\ bigChangeId (world s2) = 0 /\ bigChangeId (world s3) = 1
    /\ kf_pose (kfs (world s2) 1%nat) = Atom 101
    /\ kf_pose (kfs (world s3) 1%nat) = Atom 201
    /\ mp_worldPos (mps (world s2) 1%nat) = Atom 401
    /\ mp_worldPos (mps (world s3) 1%nat) = Atom 501.
Proof.
  intros s. eexists _, _, _. split; [reflexivity|].
  split; [reflexivity|]. split; [vm_compute; reflexivity|]. split; [reflexivity|].
  split; [reflexivity|]. split; [reflexivity|]. split; [reflexivity|].
  split; [reflexivity|]. split; [vm_compute; reflexivity|].
  repeat (split; [vm_compute; reflexivity|]). vm_compute; reflexivity.
Qed.

End GlobalBARuns.

(** ** LoopCorrector: the Sim3 maps and the map-point pass *)

Section SMapFacts.
Context {V : Type}.
Import LoopCorrector.

Lemma find_assign_eq (k : KFptr) (v : V) m : SMap.find k (SMap.assign k v m) = Some v.
Proof.
  induction m as [|[k' v'] m IH]; simpl.
  - by rewrite Nat.eqb_refl.
  - destruct (k <? k')%nat eqn:E1; simpl; [by rewrite Nat.eqb_refl|].
    destruct (k =? k')%nat eqn:E2; simpl; [by rewrite Nat.eqb_refl|].
    by rewrite E2.
Qed.

Lemma find_assign_ne (k k' : KFptr) (v : V) m :
  k <> k' -> SMap.find k' (SMap.assign k v m) = SMap.find k' m.
Proof.
  intros Hne. apply Nat.eqb_neq in Hne. rewrite Nat.eqb_sym in Hne.
  induction m as [|[k0 v0] m IH]; simpl.
  - by rewrite Hne.
  - destruct (k <? k0)%nat eqn:E1; simpl; [by rewrite Hne|].
    destruct (k =? k0)%nat eqn:E2; simpl.
    + apply Nat.eqb_eq in E2. subst k0. by rewrite Hne.
    + by rewrite IH.
Qed.

Lemma elem_of_assign (k : KFptr) (v : V) m x :
  x ∈ SMap.assign k v m -> x = (k, v) \/ x ∈ m.
Proof.
  induction m as [|[k0 v0] m IH]; simpl.
  - intros H. apply list_elem_of_singleton in H. by left.
  - destruct (k <? k0)%nat; [|destruct (k =? k0)%nat].
    + intros H. apply elem_of_cons in H as [?|?]; auto.
    + intros H. apply elem_of_cons in H as [?|?]; [by left|].
      right. by apply elem_of_cons; right.
    + intros H. apply elem_of_cons in H as [?|H].
      * right. by apply elem_of_cons; left.
      * destruct (IH H); [by left|]. right. by apply elem_of_cons; right.
Qed.

Lemma at_or_insert_value (dflt : V) k m :
  (SMap.at_or_insert dflt k m).1 = default dflt (SMap.find k m).
Proof. unfold SMap.at_or_insert. by destruct (SMap.find k m). Qed.

Lemma at_or_insert_find (dflt : V) k m k' :
  default dflt (SMap.find k' (SMap.at_or_insert dflt k m).2)
  = default dflt (SMap.find k' m).
Proof.
  unfold SMap.at_or_insert. destruct (SMap.find k m) eqn:E; [done|]. simpl.
  destruct (decide (k = k')) as [->|Hne].
  - by rewrite find_assign_eq, E.
  - by rewrite find_assign_ne.
Qed.

End SMapFacts.

Section PropagateFacts.
Context {G : Geometry}.
Import LoopCorrector.

Lemma propagate_fold_skip w C Twc Scw l c n N :
  N ∉ l \/ N = C ->
  SMap.find N (fold_left (propagate_step w C Twc Scw) l (c, n)).1 = SMap.find N c.
Proof.
  revert c n. induction l as [|a l IH]; intros c n H; [done|].
  cbn [fold_left]. unfold propagate_step at 2.
  rewrite IH.
  - destruct (decide (a ≠ C)) as [Ha|Ha]; [|done].
    apply find_assign_ne. destruct H as [H| ->]; [|done].
    apply not_elem_of_cons in H as [? _]. done.
  - destruct H as [H|H]; [|by right]. left.
    by apply not_elem_of_cons in H as [_ ?].
Qed.


Lemma propagate_fold_noncorrected_skip w C Twc Scw l c n N :
  N ∉ l ->
  SMap.find N (fold_left (propagate_step w C Twc Scw) l (c, n)).2 = SMap.find N n.
Proof.
  revert c n. induction l as [|a l IH]; intros c n H; [done|].
  apply not_elem_of_cons in H as [Hne H].
  cbn [fold_left]. unfold propagate_step at 2. rewrite IH by done.
  by apply find_assign_ne.
Qed.

Lemma propagate_fold_noncorrected w C Twc Scw l c n N :
  N ∈ l ->
  SMap.find N (fold_left (propagate_step w C Twc Scw) l (c, n)).2
  = Some (sim3_of_pose (kf_pose (kfs w N))).
Proof.
  revert c n. induction l as [|a l IH]; intros c n Hin;
    [by apply elem_of_nil in Hin|].
  cbn [fold_left]. unfold propagate_step at 2.
  destruct (decide (N ∈ l)) as [Hl|Hl]; [by apply IH|].
  apply elem_of_cons in Hin as [->|?]; [|done].
  rewrite propagate_fold_noncorrected_skip by done. apply find_assign_eq.
Qed.

(** The keys of [CorrectedSim3] are connected keyframes or the current
    keyframe. *)
Lemma propagate_fold_keys w C Twc Scw l c n x :
  x ∈ (fold_left (propagate_step w C Twc Scw) l (c, n)).1 -> x.1 ∈ l \/ x ∈ c.
Proof.
  revert c n. induction l as [|a l IH]; intros c n H; [by right|].
  cbn [fold_left] in H. unfold propagate_step at 2 in H.
  apply IH in H as [H|H]; [left; by apply elem_of_cons; right|].
  destruct (decide (a ≠ C)); [|by right].
  apply elem_of_assign in H as [->|H]; [|by right]. left. by apply elem_of_cons; left.
Qed.


End PropagateFacts.

Section CorrectFacts.
Context {G : Geometry}.
Import LoopCorrector.

Lemma eligible_dec cid x :
  eligible cid x <-> mp_isBad x || (mp_correctedByKF x =? cid) = false.
Proof.
  unfold eligible. rewrite orb_false_iff, Z.eqb_neq. done.
Qed.

Lemma correct_point_eligible cid nid c w log p :
  eligible cid (mps w p) ->
  correct_point cid nid c (w, log) (Some p)
  = (set_mp p (corrected_point cid nid c (mps w p)) w,
     log ++ [EvUpdateNormalAndDepth p]).
Proof.
  intros H. apply eligible_dec in H. unfold correct_point. by rewrite H.
Qed.

Lemma correct_point_skip cid nid c w log p :
  ~ eligible cid (mps w p) ->
  correct_point cid nid c (w, log) (Some p) = (w, log).
Proof.
  intros H. rewrite eligible_dec in H. apply not_false_is_true in H.
  unfold correct_point. by rewrite H.
Qed.

Lemma corrected_point_not_eligible cid nid c x :
  ~ eligible cid (corrected_point cid nid c x).
Proof. unfold eligible. simpl. tauto. Qed.

(** The map points of one keyframe: every eligible point in its slots is
    written once, nothing else changes, every written point is logged. *)
Lemma fold_correct_point cid nid c slots w log :
  let r := fold_left (correct_point cid nid c) slots (w, log) in
  kfs r.1 = kfs w
  /\ (forall q, eligible cid (mps w q) -> Some q ∈ slots ->
        mps r.1 q = corrected_point cid nid c (mps w q)
        /\ EvUpdateNormalAndDepth q ∈ r.2)
  /\ (forall q, ~ (eligible cid (mps w q) /\ Some q ∈ slots) ->
        mps r.1 q = mps w q)
  /\ (forall e, e ∈ log -> e ∈ r.2).
Proof.
  cbv zeta. revert w log. induction slots as [|m slots IH]; intros w log.
  { simpl. split; [done|]. split; [|done].
    intros q _ H. by apply elem_of_nil in H. }
  cbn [fold_left]. destruct m as [p|].
  2:{ simpl. destruct (IH w log) as (I1 & I2 & I3 & I4).
      split; [done|]. split; [|split; [|done]].
      - intros q He Hq. apply elem_of_cons in Hq as [?|Hq]; [done|]. by apply I2.
      - intros q Hn. apply I3. intros [? ?]. apply Hn. split; [done|].
        by apply elem_of_cons; right. }
  destruct (decide (eligible cid (mps w p))) as [Hp|Hp].
  - rewrite correct_point_eligible by done.
    destruct (IH (set_mp p (corrected_point cid nid c (mps w p)) w)
                 (log ++ [EvUpdateNormalAndDepth p])) as (I1 & I2 & I3 & I4).
    split; [done|]. split; [|split].
    + intros q He Hq. destruct (decide (q = p)) as [->|Hne].
      * split.
        -- rewrite I3; [simpl; by rewrite fn_lookup_insert|].
           simpl. rewrite fn_lookup_insert. intros [? _].
           by eapply corrected_point_not_eligible.
        -- apply I4. apply elem_of_app. right. by apply list_elem_of_singleton.
      * apply elem_of_cons in Hq as [?|Hq]; [congruence|].
        assert (Hm : mps (set_mp p (corrected_point cid nid c (mps w p)) w) q = mps w q)
          by (simpl; by rewrite fn_lookup_insert_ne).
        rewrite <- Hm. apply I2; [by rewrite Hm|done].
    + intros q Hn. destruct (decide (q = p)) as [->|Hne].
      * exfalso. apply Hn. split; [done|]. by apply elem_of_cons; left.
      * assert (Hm : mps (set_mp p (corrected_point cid nid c (mps w p)) w) q = mps w q)
          by (simpl; by rewrite fn_lookup_insert_ne).
        rewrite <- Hm. apply I3. rewrite Hm. intros [? ?]. apply Hn.
        split; [done|]. by apply elem_of_cons; right.
    + intros e He. apply I4. apply elem_of_app. by left.
  - rewrite correct_point_skip by done.
    destruct (IH w log) as (I1 & I2 & I3 & I4).
    split; [done|]. split; [|split; [|done]].
    + intros q He Hq. apply elem_of_cons in Hq as [Hq|Hq]; [|by apply I2].
      inversion Hq; subst. done.
    + intros q Hn. apply I3. intros [? ?]. apply Hn. split; [done|].
      by apply elem_of_cons; right.
Qed.

End CorrectFacts.

Section CorrectPass.
Context {G : Geometry}.
Import LoopCorrector.

Lemma correct_keyframe_unfold env cur w NC log N S :
  correct_keyframe env cur (w, NC, log) (N, S)
  = let correction :=
      sim3_mul (sim3_inv S) (default sim3_default (SMap.find N NC)) in
    let r := fold_left
               (correct_point (kf_id (kfs w cur)) (kf_id (kfs w N)) correction)
               (kf_mapPoints (kfs w N)) (w, log) in
    (UpdateConnections (links env) N
       (set_kf N
          (SetPose (pose_make (sim3_R S)
                      (scalar_mul (scalar_inv (sim3_scale S)) (sim3_t S)))
             (kfs r.1 N)) r.1),
     (SMap.at_or_insert sim3_default N NC).2, r.2).
Proof.
  unfold correct_keyframe.
  rewrite <- at_or_insert_value.
  destruct (SMap.at_or_insert sim3_default N NC) as [Siw NC'].
  cbn [fst snd]. cbv zeta.
  destruct (fold_left _ _ _) as [w1 log1]. done.
Qed.

(** One entry of [CorrectedSim3]. *)
Lemma correct_keyframe_spec env cur w NC log N S :
  let r := correct_keyframe env cur (w, NC, log) (N, S) in
  let cid := kf_id (kfs w cur) in
  let nid := kf_id (kfs w N) in
  let c := sim3_mul (sim3_inv S) (default sim3_default (SMap.find N NC)) in
  (forall k, kf_id (kfs r.1.1 k) = kf_id (kfs w k)
             /\ kf_mapPoints (kfs r.1.1 k) = kf_mapPoints (kfs w k))
  /\ (forall k, default sim3_default (SMap.find k r.1.2)
                = default sim3_default (SMap.find k NC))
  /\ (forall q, eligible cid (mps w q) -> Some q ∈ kf_mapPoints (kfs w N) ->
        mps r.1.1 q = corrected_point cid nid c (mps w q)
        /\ EvUpdateNormalAndDepth q ∈ r.2)
  /\ (forall q, ~ (eligible cid (mps w q) /\ Some q ∈ kf_mapPoints (kfs w N)) ->
        mps r.1.1 q = mps w q)
  /\ (forall e, e ∈ log -> e ∈ r.2).
Proof.
  cbv zeta. rewrite correct_keyframe_unfold. cbv zeta.
  pose proof (fold_correct_point (kf_id (kfs w cur)) (kf_id (kfs w N))
                (sim3_mul (sim3_inv S) (default sim3_default (SMap.find N NC)))
                (kf_mapPoints (kfs w N)) w log) as H.
  cbv zeta in H. destruct H as (H1 & H2 & H3 & H4).
  destruct (fold_left _ _ _) as [w1 log1]. cbn [fst snd] in *.
  split; [|split; [|done]].
  - intros k. simpl. destruct (decide (N = k)) as [->|Hne].
    + rewrite fn_lookup_insert. simpl. by rewrite H1.
    + rewrite fn_lookup_insert_ne by done. simpl. by rewrite H1.
  - intros k. apply at_or_insert_find.
Qed.

(** The whole pass, from any point of it. *)
Lemma fold_correct_keyframe env cur es w NC log :
  let r := fold_left (correct_keyframe env cur) es (w, NC, log) in
  let cid := kf_id (kfs w cur) in
  (forall k, kf_id (kfs r.1.1 k) = kf_id (kfs w k)
             /\ kf_mapPoints (kfs r.1.1 k) = kf_mapPoints (kfs w k))
  /\ (forall q,
        mps r.1.1 q = mps w q
        \/ exists N S,
             (N, S) ∈ es /\ Some q ∈ kf_mapPoints (kfs w N)
             /\ eligible cid (mps w q)
             /\ mps r.1.1 q
                = corrected_point cid (kf_id (kfs w N))
                    (sim3_mul (sim3_inv S) (default sim3_default (SMap.find N NC)))
                    (mps w q))
  /\ (forall q N S,
        (N, S) ∈ es -> Some q ∈ kf_mapPoints (kfs w N) -> eligible cid (mps w q) ->
        mp_correctedByKF (mps r.1.1 q) = cid /\ EvUpdateNormalAndDepth q ∈ r.2)
  /\ (forall e, e ∈ log -> e ∈ r.2).
Proof.
  cbv zeta. revert w NC log. induction es as [|[N0 S0] es IH]; intros w NC log.
  { simpl. split; [done|]. split; [by left|]. split; [|done].
    intros q N S H. by apply elem_of_nil in H. }
  cbn [fold_left].
  pose proof (correct_keyframe_spec env cur w NC log N0 S0) as H0.
  cbv zeta in H0. destruct H0 as (K1 & K2 & K3 & K4 & K5).
  destruct (correct_keyframe env cur (w, NC, log) (N0, S0)) as [[w1 NC1] log1].
  cbn [fst snd] in *.
  destruct (IH w1 NC1 log1) as (I1 & I2 & I3 & I4).
  assert (Hcid : kf_id (kfs w1 cur) = kf_id (kfs w cur)) by apply K1.
  rewrite Hcid in I2, I3.
  split; [|split; [|split]].
  - intros k. destruct (I1 k) as [-> ->]. apply K1.
  - intros q.
    destruct (decide (eligible (kf_id (kfs w cur)) (mps w q)
                      /\ Some q ∈ kf_mapPoints (kfs w N0))) as [[He Hq]|Hn].
    + (* written by the first entry, skipped by the others *)
      destruct (K3 q He Hq) as [Hw _]. right. exists N0, S0.
      split; [by apply elem_of_cons; left|]. split; [done|]. split; [done|].
      destruct (I2 q) as [->|(N & S & _ & _ & He1 & _)]; [done|].
      rewrite Hw in He1. by apply corrected_point_not_eligible in He1.
    + rewrite <- (K4 q Hn).
      destruct (I2 q) as [->|(N & S & Hin & Hq & He & Hw)]; [by left|].
      right. exists N, S. split; [by apply elem_of_cons; right|].
      destruct (K1 N) as [Eid Emp]. rewrite Emp in Hq. rewrite Eid, K2 in Hw.
      done.
  - intros q N S Hin Hq He.
    destruct (decide (Some q ∈ kf_mapPoints (kfs w N0))) as [Hq0|Hq0].
    + destruct (K3 q He Hq0) as [Hw Hlog]. split; [|by apply I4].
      destruct (I2 q) as [->|(N' & S' & _ & _ & He1 & _)].
      * by rewrite Hw.
      * rewrite Hw in He1. by apply corrected_point_not_eligible in He1.
    + apply elem_of_cons in Hin as [Hin|Hin]; [inversion Hin; subst; done|].
      apply (I3 q N S Hin).
      * by rewrite (proj2 (K1 N)).
      * rewrite K4; [done|]. intros [_ ?]. done.
  - intros e He. by apply I4, K5.
Qed.

End CorrectPass.

Section CorrectFrame.
Context {G : Geometry}.
Import LoopCorrector.

Lemma same_stamps_refl w : same_stamps w w.
Proof. done. Qed.

Lemma same_stamps_trans w1 w2 w3 :
  same_stamps w1 w2 -> same_stamps w2 w3 -> same_stamps w1 w3.
Proof.
  intros H1 H2 p. destruct (H1 p) as [-> ->]. apply H2.
Qed.

Lemma same_stamps_mps w1 w2 : mps w1 = mps w2 -> same_stamps w1 w2.
Proof. intros H p. by rewrite H. Qed.

Lemma fold_same_stamps {A} (f : World -> A -> World) l w :
  (forall w a, same_stamps (f w a) w) -> same_stamps (fold_left f l w) w.
Proof.
  intros Hf. revert w. induction l as [|a l IH]; intros w; [done|].
  simpl. eapply same_stamps_trans; [apply IH|apply Hf].
Qed.

Lemma fuse_slot_stamps env cur acc im :
  env_keeps_stamps env -> same_stamps (fuse_slot env cur acc im).1 acc.1.
Proof.
  intros (Hr & _ & _). destruct acc as [w log], im as [i [loopMP|]]; [|done].
  unfold fuse_slot. destruct (mjoin _) as [currMP|]; [apply Hr|done].
Qed.

Lemma fold_fuse_slot_stamps env cur l acc :
  env_keeps_stamps env ->
  same_stamps (fold_left (fuse_slot env cur) l acc).1 acc.1.
Proof.
  intros He. revert acc. induction l as [|im l IH]; intros acc; [done|].
  simpl. eapply same_stamps_trans; [apply IH|by apply fuse_slot_stamps].
Qed.

Lemma fuse_keyframe_stamps env pts w v :
  env_keeps_stamps env -> same_stamps (fuse_keyframe env pts w v) w.
Proof.
  intros (Hr & Hf & _). destruct v as [k S]. unfold fuse_keyframe.
  pose proof (Hf k S pts w) as H1. simpl in H1.
  destruct (Fuse env k S pts w) as [w1 rs]. simpl in H1.
  eapply same_stamps_trans; [|exact H1].
  apply fold_same_stamps. intros w' [r l]. unfold replace_point. simpl.
  destruct r; [apply Hr|done].
Qed.

Lemma fold_connections_step_mps env cs l acc :
  mps (fold_left (connections_step env cs) l acc).1 = mps acc.1.
Proof.
  revert acc. induction l as [|k l IH]; intros [w lc]; [done|].
  simpl. by rewrite IH.
Qed.

(** From the end of the map-point pass to the end of [Correct], the
    stamps stay, provided the collaborators leave them alone. *)
Lemma Correct_stamps env fixScale cur loop g w g' w' log :
  env_keeps_stamps env ->
  Correct env fixScale cur loop g w = Some (g', w', log) ->
  let w0 := UpdateConnections (links env) cur w in
  let maps := propagate w0 cur (LoopDetector.Scw loop)
                (kf_covisible (kfs w0 cur) ++ [cur]) in
  same_stamps w' (correct_map_points env cur maps.1 maps.2 w0).1.1.
Proof.
  intros He H. cbv zeta. unfold Correct in H.
  destruct (LoopDetector.matchedKF loop) as [m|]; [|done].
  destruct (if GlobalBA.Running g then GlobalBA.Stop g else (g, [])) as [g1 logStop].
  destruct (propagate _ _ _ _) as [C NC]. cbn [fst snd].
  destruct (correct_map_points _ _ _ _ _) as [[w1 NC'] log1]. cbn [fst snd].
  pose proof (fold_fuse_slot_stamps env cur
                (imap pair (LoopDetector.matchedPoints loop)) (w1, log1) He) as H2.
  destruct (fold_left (fuse_slot env cur) _ _) as [w2 log2]. cbn [fst snd] in H2.
  pose proof (fold_connections_step_mps env
                (kf_covisible (kfs (UpdateConnections (links env) cur w) cur) ++ [cur])
                (kf_covisible (kfs (UpdateConnections (links env) cur w) cur) ++ [cur])
                (fold_left (fuse_keyframe env (LoopDetector.loopMapPoints loop)) C w2, []))
    as H4.
  destruct (fold_left (connections_step env _) _ _) as [w4 lc]. cbn [fst snd] in H4.
  destruct (GlobalBA.Run _ _) as [g2 logRun]. inversion H; subst. clear H.
  destruct He as (Hr & Hf & Ho).
  eapply same_stamps_trans; [apply same_stamps_mps; reflexivity|].
  eapply same_stamps_trans; [apply Ho|].
  eapply same_stamps_trans; [apply same_stamps_mps; exact H4|].
  eapply same_stamps_trans; [|exact H2].
  apply fold_same_stamps. intros w' v. by apply fuse_keyframe_stamps.
Qed.

Lemma assign_fst {V} (k : KFptr) (v : V) m x :
  x ∈ map fst (SMap.assign k v m) -> x = k \/ x ∈ map fst m.
Proof.
  intros Hx. apply list_elem_of_fmap in Hx as ([k' v'] & -> & Hin).
  apply elem_of_assign in Hin as [Heq|Hin]; [inversion Heq; by left|].
  right. apply list_elem_of_fmap. by exists (k', v').
Qed.

Lemma sorted_keys_assign {V} (k : KFptr) (v : V) m :
  StronglySorted lt (map fst m) -> StronglySorted lt (map fst (SMap.assign k v m)).
Proof.
  induction m as [|[k0 v0] m IH]; simpl; intros Hs.
  - by repeat constructor.
  - apply StronglySorted_inv in Hs as [Hs Hall].
    destruct (k <? k0)%nat eqn:E1; [|destruct (k =? k0)%nat eqn:E2].
    + apply Nat.ltb_lt in E1. simpl. constructor.
      * by constructor.
      * constructor; [done|]. eapply List.Forall_impl; [|exact Hall].
        intros a Ha. simpl in Ha. lia.
    + apply Nat.eqb_eq in E2. subst k0. simpl. by constructor.
    + apply Nat.ltb_ge in E1. apply Nat.eqb_neq in E2. simpl. constructor; [by apply IH|].
      apply List.Forall_forall. intros a Ha. apply list_elem_of_In in Ha.
      apply (assign_fst k v m a) in Ha as [->|Ha]; [lia|].
      rewrite List.Forall_forall in Hall. apply Hall. by apply list_elem_of_In.
Qed.

Lemma sorted_keys_propagate w C Twc Scw l c n :
  StronglySorted lt (map fst c) ->
  StronglySorted lt (map fst (fold_left (propagate_step w C Twc Scw) l (c, n)).1).
Proof.
  revert c n. induction l as [|k l IH]; intros c n Hc; [done|].
  cbn [fold_left]. unfold propagate_step at 2.
  destruct (decide (k ≠ C)); apply IH; [by apply sorted_keys_assign|done].
Qed.

(** In a map with increasing keys an entry is what [find] returns. *)
Lemma sorted_find {V} (k : KFptr) (v : V) m :
  StronglySorted lt (map fst m) -> (k, v) ∈ m -> SMap.find k m = Some v.
Proof.
  induction m as [|[k0 v0] m IH]; simpl; intros Hs Hin; [by apply elem_of_nil in Hin|].
  apply StronglySorted_inv in Hs as [Hs Hall].
  apply elem_of_cons in Hin as [Heq|Hin].
  - inversion Heq; subst. by rewrite Nat.eqb_refl.
  - destruct (k =? k0)%nat eqn:E; [|by apply IH].
    apply Nat.eqb_eq in E. subst k0. exfalso.
    rewrite List.Forall_forall in Hall.
    assert (Hk : (k < k)%nat).
    { apply Hall. apply list_elem_of_In. apply list_elem_of_fmap. by exists (k, v). }
    lia.
Qed.

(** C5: the map-point pass of [Correct].  [w0] is the map when the pass
    starts, [maps] are [CorrectedSim3] and [NonCorrectedSim3].
    - A map point that is visited while not bad and not stamped with the
      current keyframe's id gets the position [(CorrectedSwi * Siw).Map(old)],
      [correctedByKF = currentKF.id], [correctedReference = N.id], and
      [UpdateNormalAndDepth] is called on it.
    - After the pass a map point is either as it was, or it was eligible
      and has been written once, with the correction and the id of a
      keyframe [N] of [CorrectedSim3] that observes it; every eligible point
      observed by a keyframe of [CorrectedSim3] has been written.
    - Hence, if no map point carried the current keyframe's id before, and
      the collaborators called later leave the stamps alone, every map
      point with [correctedByKF == currentKF.id] after [Correct] has as
      [correctedReference] the id of a connected keyframe (or the current
      one) that observes it.
    - Member by member: the visit of an eligible point writes
      [worldPos = c.Map(old worldPos)], both stamps and nothing else of the
      map; after the pass a written point has
      [worldPos = (CorrectedSiw.Inverse() * Sim3(Tiw)).Map(old worldPos)]
      for the entry [CorrectedSiw] of a connected keyframe [N] that
      observes it, [Tiw] being the pose of [N] when the pass starts. *)
Theorem Correct_map_points_spec (env : Env) (fixScale : bool) (currentKF : KFptr)
    (loop : LoopDetector.Loop) (g : GlobalBA.t) (w : World) :
  let w0 := UpdateConnections (links env) currentKF w in
  let connectedKFs := kf_covisible (kfs w0 currentKF) ++ [currentKF] in
  let maps := propagate w0 currentKF (LoopDetector.Scw loop) connectedKFs in
  let currentId := kf_id (kfs w0 currentKF) in
  let pass := correct_map_points env currentKF maps.1 maps.2 w0 in
  let correction N CorrectedSiw :=
    sim3_mul (sim3_inv CorrectedSiw) (default sim3_default (SMap.find N maps.2)) in
  (forall connectedId c wl logl P,
     eligible currentId (mps wl P) ->
     correct_point currentId connectedId c (wl, logl) (Some P)
     = (set_mp P (corrected_point currentId connectedId c (mps wl P)) wl,
        logl ++ [EvUpdateNormalAndDepth P]))
  /\ (forall P,
        mps pass.1.1 P = mps w0 P
        \/ exists N CorrectedSiw,
             (N, CorrectedSiw) ∈ maps.1 /\ N ∈ connectedKFs
             /\ Some P ∈ kf_mapPoints (kfs w0 N)
             /\ eligible currentId (mps w0 P)
             /\ mps pass.1.1 P
                = corrected_point currentId (kf_id (kfs w0 N))
                    (correction N CorrectedSiw) (mps w0 P))
  /\ (forall N CorrectedSiw P,
        (N, CorrectedSiw) ∈ maps.1 -> Some P ∈ kf_mapPoints (kfs w0 N) ->
        eligible currentId (mps w0 P) ->
        mp_correctedByKF (mps pass.1.1 P) = currentId
        /\ EvUpdateNormalAndDepth P ∈ pass.2)
  /\ (env_keeps_stamps env ->
      (forall p, mp_correctedByKF (mps w0 p) <> currentId) ->
      forall g' w' log,
        Correct env fixScale currentKF loop g w = Some (g', w', log) ->
        forall P, mp_correctedByKF (mps w' P) = currentId ->
          exists N, N ∈ connectedKFs /\ Some P ∈ kf_mapPoints (kfs w0 N)
                    /\ mp_correctedReference (mps w' P) = kf_id (kfs w0 N))
  /\ (forall connectedId c wl logl P,
        eligible currentId (mps wl P) ->
        let r := correct_point currentId connectedId c (wl, logl) (Some P) in
        mp_worldPos (mps r.1 P) = sim3_map c (mp_worldPos (mps wl P))
        /\ mp_correctedByKF (mps r.1 P) = currentId
        /\ mp_correctedReference (mps r.1 P) = connectedId
        /\ mp_isBad (mps r.1 P) = false
        /\ (forall Q, Q <> P -> mps r.1 Q = mps wl Q)
        /\ kfs r.1 = kfs wl
        /\ r.2 = logl ++ [EvUpdateNormalAndDepth P])
  /\ (forall P,
        mps pass.1.1 P = mps w0 P
        \/ exists N CorrectedSiw,
             SMap.find N maps.1 = Some CorrectedSiw /\ N ∈ connectedKFs
             /\ Some P ∈ kf_mapPoints (kfs w0 N)
             /\ mp_isBad (mps w0 P) = false
             /\ mp_correctedByKF (mps w0 P) <> currentId
             /\ mp_worldPos (mps pass.1.1 P)
                = sim3_map (sim3_mul (sim3_inv CorrectedSiw)
                                     (sim3_of_pose (kf_pose (kfs w0 N))))
                           (mp_worldPos (mps w0 P))
             /\ mp_correctedByKF (mps pass.1.1 P) = currentId
             /\ mp_correctedReference (mps pass.1.1 P) = kf_id (kfs w0 N)).
Proof.
  intros w0 connectedKFs maps currentId pass correction.
  pose proof (fold_correct_keyframe env currentKF maps.1 w0 maps.2 []) as H.
  cbv zeta in H. fold currentId in H.
  change (fold_left (correct_keyframe env currentKF) maps.1 (w0, maps.2, []))
    with pass in H.
  destruct H as (_ & H2 & H3 & _).
  assert (Hkeys : forall N S, (N, S) ∈ maps.1 -> N ∈ connectedKFs).
  { intros N S Hin. unfold maps, propagate in Hin.
    apply propagate_fold_keys in Hin as [Hin|Hin]; [done|].
    simpl in Hin. apply list_elem_of_singleton in Hin. inversion Hin; subst.
    unfold connectedKFs. apply elem_of_app. right. by apply list_elem_of_singleton. }
  assert (H2' : forall P,
        mps pass.1.1 P = mps w0 P
        \/ exists N CorrectedSiw,
             (N, CorrectedSiw) ∈ maps.1 /\ N ∈ connectedKFs
             /\ Some P ∈ kf_mapPoints (kfs w0 N)
             /\ eligible currentId (mps w0 P)
             /\ mps pass.1.1 P
                = corrected_point currentId (kf_id (kfs w0 N))
                    (correction N CorrectedSiw) (mps w0 P)).
  { intros P. destruct (H2 P) as [?|(N & S & Hin & ?)]; [by left|].
    right. exists N, S. split; [done|]. split; [by eapply Hkeys|done]. }
  split; [|split; [exact H2'|split; [intros N S P; apply H3|split; [|split]]]].
  - intros connectedId c wl logl P He. by apply correct_point_eligible.
  - intros He Hfresh g' w' log HC P HP.
    pose proof (Correct_stamps env fixScale currentKF loop g w g' w' log He HC) as Hs.
    cbv zeta in Hs. fold w0 in Hs. fold connectedKFs in Hs. fold maps in Hs.
    fold pass in Hs. destruct (Hs P) as [Sby Sref].
    rewrite Sby in HP. rewrite Sref.
    destruct (H2' P) as [Hsame|(N & S & _ & HN & Hobs & _ & Hw)].
    + rewrite Hsame in HP. by apply Hfresh in HP.
    + exists N. split; [done|]. split; [done|]. by rewrite Hw.
  - intros connectedId c wl logl P He. cbv zeta.
    rewrite correct_point_eligible by done. cbn [fst snd set_mp mps kfs].
    rewrite fn_lookup_insert. cbn. destruct He as [Hb _].
    do 3 (split; [done|]). split; [done|]. split; [|done].
    intros Q HQ. by rewrite fn_lookup_insert_ne.
  - intros P. destruct (H2' P) as [?|(N & S & Hin & HN & Hobs & [Hb Hby] & Hw)];
      [by left|].
    right. exists N, S.
    assert (Hsorted : StronglySorted lt (map fst maps.1)).
    { unfold maps, propagate.
      apply (sorted_keys_propagate w0 currentKF
               (pose_inv (kf_pose (kfs w0 currentKF))) (LoopDetector.Scw loop)
               connectedKFs (SMap.assign currentKF (LoopDetector.Scw loop) []) []).
      by repeat constructor. }
    split; [by apply sorted_find|]. split; [done|]. split; [done|].
    split; [done|]. split; [done|].
    assert (Hsiw : SMap.find N maps.2 = Some (sim3_of_pose (kf_pose (kfs w0 N)))).
    { unfold maps, propagate. by apply propagate_fold_noncorrected. }
    rewrite Hw. unfold correction. rewrite Hsiw. done.
Qed.

End CorrectFrame.

Section CorrectorRuns.
Import LoopCorrector Symbolic.


Lemma cenv_keeps_stamps : env_keeps_stamps Example.cenv.
Proof. repeat split. Qed.

(** [Correct] on the example map for current keyframe 1: map point 1,
    observed by keyframe 1, ends with [correctedByKF = 1] and the id of a
    connected keyframe as [correctedReference]. *)
Lemma Correct_map_points_spec_witness :
  let w0 := UpdateConnections (links Example.cenv) 1%nat Example.world in
  (forall p, mp_correctedByKF (mps w0 p) <> kf_id (kfs w0 1%nat))
  /\ exists g' w' log,
       Correct Example.cenv true 1%nat Example.loop15 GlobalBA.new Example.world
       = Some (g', w', log)
       /\ mp_correctedByKF (mps w' 1%nat) = kf_id (kfs w0 1%nat)
       /\ mp_worldPos (mps Example.world 1%nat) = Atom 401
       /\ mp_worldPos (mps w' 1%nat)
          = sim3_map (sim3_mul (sim3_inv (Atom 9)) (sim3_of_pose (Atom 101))) (Atom 401)
       /\ mp_correctedReference (mps w' 1%nat) = 1
       /\ (exists N, N ∈ kf_covisible (kfs w0 1%nat) ++ [1%nat]
                     /\ Some 1%nat ∈ kf_mapPoints (kfs w0 N)
                     /\ mp_correctedReference (mps w' 1%nat) = kf_id (kfs w0 N))
       /\ (let r := correct_point 1 1
                      (sim3_mul (sim3_inv (Atom 9)) (sim3_of_pose (Atom 101)))
                      (w0, []) (Some 1%nat) in
           mp_worldPos (mps r.1 1%nat)
           = sim3_map (sim3_mul (sim3_inv (Atom 9)) (sim3_of_pose (Atom 101))) (Atom 401)).
Proof.
  intros w0.
  assert (Hfresh : forall p, mp_correctedByKF (mps w0 p) <> kf_id (kfs w0 1%nat))
    by (intros p; simpl; lia).
  split; [exact Hfresh|].
  eexists _, _, _. split; [reflexivity|].
  match goal with
  | |- ?A /\ _ => assert (Hby : A) by (vm_compute; reflexivity)
  end.
  split; [exact Hby|].
  split; [reflexivity|]. split; [vm_compute; reflexivity|].
  split; [vm_compute; reflexivity|].
  pose proof (Correct_map_points_spec Example.cenv true 1%nat
                Example.loop15 GlobalBA.new Example.world)
    as (_ & _ & _ & H4 & H5 & _).
  split.
  - exact (H4 cenv_keeps_stamps Hfresh _ _ _ eq_refl 1%nat Hby).
  - assert (He : eligible 1 (mps w0 1%nat)) by (split; [reflexivity|simpl; lia]).
    exact (proj1 (H5 1 (sim3_mul (sim3_inv (Atom 9)) (sim3_of_pose (Atom 101)))
                    w0 [] 1%nat He)).
Defined.

End CorrectorRuns.

(** ** The main loop: reset requests *)

Section ResetFacts.
Context {G : Geometry}.
Import LoopClosingImpl.

Lemma process_resetRequested denv cenv st w st' w' log :
  process denv cenv st w = Some (st', w', log) ->
  resetRequested_ st' = resetRequested_ st.
Proof.
  unfold process. destruct (keyFrameQueue_ st) as [|cur rest].
  { intros H. by inversion H. }
  destruct (LoopDetector.Detect _ _ _ _ _ _) as [o|]; [|done].
  destruct (LoopDetector.o_found o).
  - destruct (LoopCorrector.Correct _ _ _ _ _ _) as [[[g w1] logC]|]; [|done].
    intros H. by inversion H.
  - intros H. by inversion H.
Qed.

(** A step other than a poll of [RequestReset] or [ResetIfRequested] leaves
    a waiting requester waiting and a set flag set. *)
Lemma step_keeps_waiting s l s1 :
  step s l = Some s1 ->
  l <> LResetIfRequested ->
  requester s = ResetWaiting -> resetRequested_ (impl s) = true ->
  requester s1 = ResetWaiting /\ resetRequested_ (impl s1) = true.
Proof.
  intros Hs Hl Hr Hf. destruct l; simpl in Hs.
  - inversion Hs; subst. simpl. split; [done|].
    unfold InsertKeyFrame. by destruct (negb _).
  - destruct (main s); try done.
    destruct (process denv cenv (impl s) (shared_map s)) as [[[st w] log]|] eqn:E; [|done].
    inversion Hs; subst. simpl. split; [done|].
    by rewrite (process_resetRequested _ _ _ _ _ _ _ E).
  - done.
  - destruct (main s); try done. destruct (CheckFinish (impl s)); by inversion Hs; subst.
  - by inversion Hs; subst.
  - by rewrite Hr in Hs.
  - rewrite Hr, Hf in Hs. simpl in Hs. by inversion Hs; subst.
  - by inversion Hs; subst.
Qed.




End ResetFacts.

Section ResetProperty.
Context {G : Geometry}.
Import LoopClosingImpl.


End ResetProperty.

(** ** The cull guard over an iteration of the main loop *)

Section GuardFacts.
Context {G : Geometry}.
Import LoopDetector.

Lemma holds_cons e log k : holds (e :: log) k = holds [e] k + holds log k.
Proof. change (e :: log) with ([e] ++ log). apply holds_app. Qed.

Lemma holds_no_guard log k :
  Forall (fun e => is_guard e = false) log -> holds log k = 0.
Proof.
  induction 1 as [|e log He _ IH]; [done|].
  rewrite holds_cons, IH. destruct e; try done.
Qed.

Lemma no_guard_not_in log e :
  Forall (fun e => is_guard e = false) log -> is_guard e = true -> e ∉ log.
Proof.
  intros H He Hin. rewrite Forall_forall in H. apply H in Hin. congruence.
Qed.

Lemma holds_single_other e k :
  e <> EvSetNotErase k -> e <> EvSetErase k -> holds [e] k = 0.
Proof.
  intros H1 H2. unfold holds. rewrite !filter_cons, !filter_nil.
  rewrite !decide_False by done. done.
Qed.

Lemma holds_single_SetNotErase k : holds [EvSetNotErase k] k = 1.
Proof.
  unfold holds. rewrite !filter_cons, !filter_nil.
  rewrite decide_True by done. rewrite decide_False by done. done.
Qed.

Lemma count_filter_filter (X : KFptr) (P : KFptr -> Prop) `{!forall x, Decision (P x)} l :
  length (filter (fun x => x = X) (filter P l))
  = if decide (P X) then length (filter (fun x => x = X) l) else 0%nat.
Proof.
  induction l as [|a l IH]; [by destruct (decide (P X))|].
  rewrite (filter_cons P). destruct (decide (P a)) as [Ha|Ha].
  - rewrite !filter_cons. destruct (decide (a = X)) as [->|Hne]; simpl; rewrite IH.
    + destruct (decide (P X)); [done|contradiction].
    + done.
  - rewrite IH, filter_cons. destruct (decide (a = X)) as [->|Hne]; [|done].
    destruct (decide (P X)); [contradiction|done].
Qed.

Lemma count_pos (X : KFptr) l : X ∈ l -> (1 <= length (filter (fun x => x = X) l))%nat.
Proof.
  induction l as [|a l IH]; intros H; [by apply elem_of_nil in H|].
  rewrite filter_cons. destruct (decide (a = X)); [simpl; lia|].
  apply elem_of_cons in H as [?|H]; [congruence|]. by apply IH.
Qed.

(** The shapes of the log of [Detect]. *)
Lemma Detect_log_cases env d w cur loop last o :
  Detect env d w cur loop last = Some o ->
  let tmp := DetectLoopCandidates env cur (minScore env w cur) in
  let cands := candidateKFs (check_consistency d (fun k => kf_connected (kfs w k)) tmp) in
  let Q := [EvDetectLoopCandidates cur] in
  (o_found o = false
   /\ (o_log o = [] \/ o_log o = Q
       \/ o_log o = Q ++ map EvSetNotErase cands ++ map EvSetErase cands
                      ++ [EvSetErase cur]
       \/ o_log o = Q ++ map EvSetNotErase cands ++ map EvSetErase cands))
  \/ (o_found o = true
      /\ exists m, matchedKF (o_loop o) = Some m /\ m ∈ cands
           /\ o_log o = Q ++ map EvSetNotErase cands
                          ++ map EvSetErase (filter (fun k => Some k ≠ Some m) cands)).
Proof.
  intros H tmp cands Q. unfold Detect in H. fold tmp in H.
  destruct (_ <? _); [inversion H; subst; left; auto|].
  destruct tmp as [|k0 tmp0] eqn:Etmp; [inversion H; subst; left; auto|].
  fold cands in H.
  destruct cands as [|c0 cands0] eqn:Ecands; [inversion H; subst; left; auto|].
  pose proof (FindLoopInCandidateKFs_log env w cur (c0 :: cands0) loop (fixScale_ d)) as Hl.
  pose proof (FindLoopInCandidateKFs_matched env w cur (c0 :: cands0) loop (fixScale_ d)) as Hm.
  destruct (FindLoopInCandidateKFs env w cur (c0 :: cands0) loop (fixScale_ d))
    as [r log1]. cbn [fst snd] in Hl, Hm. subst log1.
  destruct r as [[[|] loop1]|]; [| |done].
  - destruct (Hm loop1 eq_refl) as (m & Em & Hin).
    destruct (gather_loopMapPoints _ _ _) as [pts w'].
    destruct (40 <=? _); inversion H; subst; clear H.
    + right. split; [done|]. exists m. simpl. rewrite Em. done.
    + left. split; [done|]. do 3 right. done.
  - inversion H; subst. left. split; [done|]. right. right. left. done.
Qed.

(** In any call, a keyframe other than the current one gets no more
    [SetErase] than [SetNotErase]. *)
Lemma Detect_holds_nonneg env d w cur loop last o X :
  Detect env d w cur loop last = Some o -> X <> cur -> 0 <= holds (o_log o) X.
Proof.
  intros H Hne. apply Detect_log_cases in H. cbv zeta in H.
  destruct H as [[_ [->|[->|[->| ->]]]]|[_ (m & _ & _ & ->)]].
  - done.
  - done.
  - rewrite !holds_app, holds_SetNotErase, holds_SetErase.
    rewrite (holds_single_other (EvDetectLoopCandidates cur)) by done.
    rewrite (holds_single_other (EvSetErase cur)) by congruence. lia.
  - rewrite !holds_app, holds_SetNotErase, holds_SetErase.
    rewrite (holds_single_other (EvDetectLoopCandidates cur)) by done. lia.
  - rewrite !holds_app, holds_SetNotErase, holds_SetErase.
    rewrite (holds_single_other (EvDetectLoopCandidates cur)) by done.
    rewrite count_filter_filter. destruct (decide _); lia.
Qed.

End GuardFacts.

Section CorrectLog.
Context {G : Geometry}.
Import LoopCorrector.

Abbreviation quiet := (Forall (fun e => is_guard e = false)).

Lemma fold_correct_point_quiet cid nid c slots w log :
  quiet log -> quiet (fold_left (correct_point cid nid c) slots (w, log)).2.
Proof.
  revert w log. induction slots as [|m slots IH]; intros w log H; [done|].
  cbn [fold_left]. destruct m as [p|]; [|by apply IH].
  unfold correct_point at 2. destruct (_ || _); [by apply IH|].
  apply IH. apply Forall_app. split; [done|]. by repeat constructor.
Qed.

Lemma fold_correct_keyframe_quiet env cur es w NC log :
  quiet log -> quiet (fold_left (correct_keyframe env cur) es (w, NC, log)).2.
Proof.
  revert w NC log. induction es as [|[N S] es IH]; intros w NC log H; [done|].
  cbn [fold_left]. rewrite correct_keyframe_unfold. cbv zeta.
  apply IH. by apply fold_correct_point_quiet.
Qed.

Lemma fold_fuse_slot_quiet env cur l acc :
  quiet acc.2 -> quiet (fold_left (fuse_slot env cur) l acc).2.
Proof.
  revert acc. induction l as [|[i m] l IH]; intros [w log] H; [done|].
  cbn [fold_left]. apply IH. unfold fuse_slot. destruct m as [loopMP|]; [|done].
  destruct (mjoin _); [done|]. simpl. apply Forall_app. split; [done|].
  by repeat constructor.
Qed.

Lemma Detach_quiet g : quiet (GlobalBA.Detach g).2.
Proof. unfold GlobalBA.Detach. destruct (GlobalBA.thread_ g); by repeat constructor. Qed.

(** [Correct] makes no call on the cull guard of any keyframe. *)
Lemma Correct_quiet env fixScale cur loop g w g' w' log :
  Correct env fixScale cur loop g w = Some (g', w', log) -> quiet log.
Proof.
  unfold Correct. destruct (LoopDetector.matchedKF loop) as [m|]; [|done].
  assert (Hstop : quiet (if GlobalBA.Running g then GlobalBA.Stop g else (g, [])).2).
  { destruct (GlobalBA.Running g); [apply Detach_quiet|constructor]. }
  destruct (if GlobalBA.Running g then GlobalBA.Stop g else (g, [])) as [g1 logStop].
  destruct (propagate _ _ _ _) as [C NC].
  pose proof (fold_correct_keyframe_quiet env cur C
                (UpdateConnections (links env) cur w) NC [] (Forall_nil_2 _)) as H1.
  unfold correct_map_points.
  destruct (fold_left (correct_keyframe env cur) _ _) as [[w1 NC'] log1].
  pose proof (fold_fuse_slot_quiet env cur
                (imap pair (LoopDetector.matchedPoints loop)) (w1, log1) H1) as H2.
  destruct (fold_left (fuse_slot env cur) _ _) as [w2 log2].
  destruct (fold_left (connections_step env _) _ _) as [w4 lc].
  match goal with |- context [GlobalBA.Run ?id ?x] =>
    assert (Hrun : quiet (GlobalBA.Run id x).2);
    [|destruct (GlobalBA.Run id x) as [g2 logRun]] end.
  { unfold GlobalBA.Run.
    match goal with |- context [GlobalBA.Detach ?y] =>
      pose proof (Detach_quiet y) as Hd; destruct (GlobalBA.Detach y) as [g2 logd] end.
    simpl in *. apply Forall_app. split; [done|]. by repeat constructor. }
  intros H. inversion H; subst. cbn [snd] in *.
  repeat first [apply Forall_cons; split; [done|] | apply Forall_app; split; [done|]].
  by repeat constructor.
Qed.

End CorrectLog.

Ltac holds_split :=
  repeat match goal with
  | |- context [holds (?a ++ ?b) ?k] => rewrite (holds_app a b k)
  | |- context [holds (?e :: ?l) ?k] =>
      lazymatch l with
      | [] => fail
      | _ => rewrite (holds_cons e l k)
      end
  end.

Section GuardProperty.
Context {G : Geometry}.
Import LoopDetector LoopClosingImpl.

(** C10 (as amended): one turn of the main loop on current keyframe
    [currentKF].
    - Whatever the outcome, a keyframe other than [currentKF] gets no more
      [SetErase] than [SetNotErase] in that turn: a [SetErase] on it undoes
      a hold taken in the same turn.
    - If [Detect] accepts a loop (the database not proposing the current
      keyframe itself), then in that turn the detector, the corrector and
      the main loop call [SetErase] neither on the current keyframe nor on
      the matched keyframe; the turn leaves one hold on the current
      keyframe and at least one on the matched keyframe. *)
Theorem accepted_loop_keeps_its_holds
    (denv : LoopDetector.Env) (cenv : LoopCorrector.Env) (st st' : LoopClosingImpl.t)
    (w w' : World) (log : list event) (currentKF : KFptr) (rest : list KFptr) :
  keyFrameQueue_ st = currentKF :: rest ->
  process denv cenv st w = Some (st', w', log) ->
  (forall X, X <> currentKF -> 0 <= holds log X)
  /\ (forall o,
        Detect denv (detector_ st) w currentKF Loop_fresh (Int.to_int (lastLoopKFId_ st))
          = Some o ->
        o_found o = true ->
        currentKF ∉ DetectLoopCandidates denv currentKF (minScore denv w currentKF) ->
        exists matched,
          matchedKF (o_loop o) = Some matched
          /\ lastLoopKFId_ st' = kf_id (kfs w' currentKF)
          /\ (EvSetErase currentKF ∉ log) /\ (EvSetErase matched ∉ log)
          /\ holds log currentKF = 1 /\ 1 <= holds log matched).
Proof.
  intros Hq Hp. unfold process in Hp. rewrite Hq in Hp.
  destruct (Detect denv (detector_ st) w currentKF Loop_fresh
              (Int.to_int (lastLoopKFId_ st))) as [o|] eqn:HD; [|done].
  split.
  - intros X HX. pose proof (Detect_holds_nonneg _ _ _ _ _ _ _ X HD HX) as H0.
    destruct (o_found o).
    + destruct (LoopCorrector.Correct _ _ _ _ _ _) as [[[g1 w1] logC]|] eqn:HC; [|done].
      inversion Hp; subst. clear Hp.
      pose proof (Correct_quiet _ _ _ _ _ _ _ _ _ HC) as Hquiet.
      holds_split. rewrite (holds_no_guard logC) by done.
      rewrite !holds_single_other by congruence. lia.
    + inversion Hp; subst. clear Hp. holds_split.
      rewrite !holds_single_other by congruence. lia.
  - intros o' Ho' Hfound Hnot. inversion Ho'; subst o'. clear Ho'.
    rewrite Hfound in Hp.
    destruct (LoopCorrector.Correct _ _ _ _ _ _) as [[[g1 w1] logC]|] eqn:HC; [|done].
    inversion Hp; subst. clear Hp.
    pose proof (Correct_quiet _ _ _ _ _ _ _ _ _ HC) as Hquiet.
    apply Detect_log_cases in HD. cbv zeta in HD.
    destruct HD as [[Hf _]|[_ (m & Em & Hin & Hlog)]]; [congruence|].
    set (tmp := DetectLoopCandidates denv currentKF (minScore denv w currentKF)) in *.
    set (cands := candidateKFs (check_consistency (detector_ st)
                    (fun k => kf_connected (kfs w k)) tmp)) in *.
    assert (Hsub : forall k, k ∈ cands -> k ∈ tmp).
    { intros k Hk. unfold cands in Hk. rewrite check_consistency_candidates in Hk.
      by apply list_elem_of_filter in Hk as [_ ?]. }
    assert (Hcur : currentKF ∉ cands) by (intros Hk; by apply Hnot, Hsub).
    assert (Hm : m <> currentKF) by (intros ->; done).
    exists m. split; [done|]. split; [done|].
    rewrite Hlog.
    assert (Herase : forall X, (X = currentKF \/ X = m) ->
      EvSetErase X ∉ ([EvSetNotErase currentKF]
         ++ ([EvDetectLoopCandidates currentKF] ++ map EvSetNotErase cands
             ++ map EvSetErase (filter (fun k => Some k ≠ Some m) cands))
         ++ [EvDBAdd currentKF]) ++ logC).
    { intros X HX Hin'. rewrite !elem_of_app in Hin'.
      destruct Hin' as [[Hin'|[[Hin'|[Hin'|Hin']]|Hin']]|Hin'].
      - apply list_elem_of_singleton in Hin'. done.
      - apply list_elem_of_singleton in Hin'. done.
      - apply list_elem_of_fmap in Hin' as (k & ? & _). done.
      - apply list_elem_of_fmap in Hin' as (k & Ek & Hk). inversion Ek; subst k.
        apply list_elem_of_filter in Hk as [Hk1 Hk2].
        destruct HX as [->| ->]; [done|]. by apply Hk1.
      - apply list_elem_of_singleton in Hin'. done.
      - by apply (no_guard_not_in logC (EvSetErase X)) in Hin'. }
    split; [apply Herase; by left|]. split; [apply Herase; by right|].
    holds_split. rewrite !(holds_no_guard logC) by done.
    rewrite !holds_SetNotErase, !holds_SetErase, !count_filter_filter.
    rewrite holds_single_SetNotErase.
    rewrite !(holds_single_other (EvDetectLoopCandidates currentKF)) by done.
    rewrite !(holds_single_other (EvDBAdd currentKF)) by done.
    rewrite (holds_single_other (EvSetNotErase currentKF) m) by congruence.
    rewrite (decide_True (P := Some currentKF ≠ Some m)) by congruence.
    rewrite (decide_False (P := Some m ≠ Some m)) by (intros H; by apply H).
    pose proof (count_pos m cands Hin). lia.
Qed.

End GuardProperty.

Section MainLoopRuns.
Import LoopDetector LoopClosingImpl Symbolic.


(** Keyframe 20, the group of keyframe 1 cached with count 2, a solver
    that succeeds and 40 projected matches: the loop is accepted. *)
Lemma accepted_loop_keeps_its_holds_witness :
  let st := Example.closer [20%nat] in
  let denv := Example.env true 40 in
  keyFrameQueue_ st = [20%nat]
  /\ (20%nat ∉ DetectLoopCandidates denv 20%nat (minScore denv Example.world 20%nat))
  /\ exists st' w' log,
       process denv Example.cenv st Example.world = Some (st', w', log)
       /\ (forall X, X <> 20%nat -> 0 <= holds log X)
       /\ exists matched,
            lastLoopKFId_ st' = kf_id (kfs w' 20%nat)
            /\ (EvSetErase 20%nat ∉ log) /\ (EvSetErase matched ∉ log)
            /\ holds log 20%nat = 1 /\ 1 <= holds log matched.
Proof.
  intros st denv.
  assert (H1 : keyFrameQueue_ st = [20%nat]) by reflexivity.
  assert (H2 : 20%nat ∉ DetectLoopCandidates denv 20%nat (minScore denv Example.world 20%nat)).
  { simpl. intros H. apply list_elem_of_singleton in H. lia. }
  split; [exact H1|]. split; [exact H2|].
  destruct (process denv Example.cenv st Example.world) as [[[st' w'] log]|] eqn:E;
    [|vm_compute in E; discriminate].
  exists st', w', log. split; [reflexivity|].
  destruct (accepted_loop_keeps_its_holds denv Example.cenv st st' Example.world w' log
              20%nat [] H1 E) as [T2 T1].
  split; [exact T2|].
  destruct (Detect denv (detector_ st) Example.world 20%nat Loop_fresh
              (Int.to_int (lastLoopKFId_ st))) as [o|] eqn:ED;
    [|vm_compute in ED; discriminate].
  assert (Hfound : o_found o = true).
  { vm_compute in ED. inversion ED. reflexivity. }
  destruct (T1 o eq_refl Hfound H2) as (matched & _ & Hlast & Hrest).
  exists matched. split; [exact Hlast|exact Hrest].
Defined.

(** C10 as stated does not hold: keyframe 20 closes a loop with
    keyframe 1 (a loop edge between them is added and [lastLoopKFId_]
    becomes 20); on keyframe 30 the database proposes keyframe 1 again, the
    Sim3 solver fails, and the detector calls [SetErase] on keyframe 1.
    The calls on the cull guards, in order: *)
Lemma later_turn_calls_SetErase_on_the_matched_keyframe :
  let s := Example.threads [20%nat; 30%nat] AtProcess in
  let guards s := filter (fun e => is_guard e = true) (calls s) in
  ((fun s1 => (lastLoopKFId_ (impl s1),
               bool_decide (EvAddLoopEdge 1%nat 20%nat ∈ calls s1), guards s1))
     <$> steps s [LProcess (Example.env true 40) Example.cenv])
  = Some (20, true, [EvSetNotErase 20%nat; EvSetNotErase 1%nat])
  /\ (guards
        <$> steps s [LProcess (Example.env true 40) Example.cenv;
                     LResetIfRequested; LCheckFinish;
                     LProcess (Example.env false 40) Example.cenv])
     = Some [EvSetNotErase 20%nat; EvSetNotErase 1%nat;
             EvSetNotErase 30%nat; EvSetNotErase 1%nat;
             EvSetErase 1%nat; EvSetErase 30%nat; EvSetErase 30%nat].
Proof. split; vm_compute; reflexivity. Qed.

End MainLoopRuns.

(** ** The main loop always completes its turn *)

Section ProcessTotal.
Context {G : Geometry}.
Import LoopDetector LoopClosingImpl.

Lemma Correct_total cenv fixScale cur loop g w m :
  matchedKF loop = Some m ->
  exists r, LoopCorrector.Correct cenv fixScale cur loop g w = Some r.
Proof.
  intros Hm. unfold LoopCorrector.Correct. rewrite Hm.
  destruct (if GlobalBA.Running g then GlobalBA.Stop g else (g, [])) as [g1 logStop].
  destruct (LoopCorrector.propagate _ _ _ _) as [C NC].
  destruct (LoopCorrector.correct_map_points _ _ _ _ _) as [[w1 NC'] log1].
  destruct (fold_left (LoopCorrector.fuse_slot cenv cur) _ _) as [w2 log2].
  destruct (fold_left (LoopCorrector.connections_step cenv _) _ _) as [w4 lc].
  destruct (GlobalBA.Run _ _) as [g2 logRun]. eauto.
Qed.

(** The block of [Run] that processes a keyframe returns, whatever the
    collaborators answer: the solver loop ends and an accepted loop has its
    matched keyframe. *)
Lemma process_total denv cenv st w :
  exists r, process denv cenv st w = Some r.
Proof.
  unfold process. destruct (keyFrameQueue_ st) as [|cur rest]; [eauto|].
  destruct (Detect_total denv (detector_ st) w cur Loop_fresh
              (Int.to_int (lastLoopKFId_ st))) as [o Ho].
  rewrite Ho. destruct (o_found o) eqn:Hf; [|eauto].
  apply Detect_log_cases in Ho. cbv zeta in Ho.
  destruct Ho as [[Hf' _]|[_ (m & Hm & _)]]; [congruence|].
  destruct (Correct_total cenv (fixScale_ (detector_ st)) cur (o_loop o) (GBA_ st)
              (o_world o) m Hm) as [[[g1 w1] logC] HC].
  rewrite HC. eauto.
Qed.

End ProcessTotal.

(** * Further properties *)

(** ** The consistency cache *)

Section CacheFacts.
Import LoopDetector.

Lemma consistentGroupsIds_elem prev g iG :
  iG ∈ consistentGroupsIds prev g ->
  exists pg m, prev !! iG = Some (pg, m) /\ IsConsistent pg g = true
               /\ nth iG prev (∅, 0) = (pg, m).
Proof.
  unfold consistentGroupsIds. intros H. apply list_elem_of_filter in H as [Hc Hseq].
  apply elem_of_seq in Hseq.
  destruct (lookup_lt_is_Some_2 prev iG) as [[pg m] Hl]; [lia|].
  exists pg, m. rewrite (nth_lookup_Some _ _ _ _ Hl) in Hc |- *. done.
Qed.

Lemma group_step_groups (Q : ConsistentGroup -> Prop) prev minC k g c b iG :
  Forall Q (currConsistentGroups c) ->
  Q (g, Int.add (nth iG prev (∅, 0)).2 1) ->
  Forall Q (currConsistentGroups (group_step prev minC k g (c, b) iG).1).
Proof.
  intros Hc Hq. unfold group_step. cbv zeta.
  destruct (negb (nth iG (consistentFound c) false));
    destruct (_ && _); simpl; try done;
    apply Forall_app; split; try done; by repeat constructor.
Qed.

Lemma fold_group_step_groups (Q : ConsistentGroup -> Prop) prev minC k g ids c b :
  Forall Q (currConsistentGroups c) ->
  (forall iG, iG ∈ ids -> Q (g, Int.add (nth iG prev (∅, 0)).2 1)) ->
  Forall Q (currConsistentGroups (fold_left (group_step prev minC k g) ids (c, b)).1).
Proof.
  revert c b. induction ids as [|iG ids IH]; intros c b Hc Hq; [done|].
  cbn [fold_left].
  pose proof (group_step_groups Q prev minC k g c b iG Hc
                (Hq iG (list_elem_of_here _ _))) as H1.
  destruct (group_step prev minC k g (c, b) iG) as [c' b'].
  apply IH; [done|]. intros i Hi. apply Hq. by apply list_elem_of_further.
Qed.

Lemma candidate_step_groups (Q : ConsistentGroup -> Prop) prev minC conn c k :
  Forall Q (currConsistentGroups c) ->
  (forall iG, iG ∈ consistentGroupsIds prev (conn k ∪ {[k]}) ->
     Q (conn k ∪ {[k]}, Int.add (nth iG prev (∅, 0)).2 1)) ->
  (consistentGroupsIds prev (conn k ∪ {[k]}) = [] -> Q (conn k ∪ {[k]}, 0)) ->
  Forall Q (currConsistentGroups (candidate_step prev minC conn c k)).
Proof.
  intros Hc Hq H0. unfold candidate_step.
  pose proof (fold_group_step_groups Q prev minC k (conn k ∪ {[k]})
                (consistentGroupsIds prev (conn k ∪ {[k]})) c false Hc Hq) as H1.
  destruct (fold_left _ _ _) as [c1 b1]. simpl in H1.
  destruct (consistentGroupsIds prev (conn k ∪ {[k]})); [|done].
  simpl. apply Forall_app. split; [done|]. repeat constructor. by apply H0.
Qed.

Lemma fold_candidate_step_groups prev minC conn tmp l c :
  (forall k, k ∈ l -> k ∈ tmp) ->
  Forall (accounted prev conn tmp) (currConsistentGroups c) ->
  Forall (accounted prev conn tmp)
    (currConsistentGroups (fold_left (candidate_step prev minC conn) l c)).
Proof.
  revert c. induction l as [|k l IH]; intros c Hsub Hc; [done|].
  cbn [fold_left]. apply IH.
  { intros k' Hk'. apply Hsub. by apply list_elem_of_further. }
  assert (Hk : k ∈ tmp) by (apply Hsub; apply list_elem_of_here).
  apply candidate_step_groups; [done| |].
  - intros iG HiG. destruct (consistentGroupsIds_elem _ _ _ HiG) as (pg & m & Hl & Hcons & Hn).
    exists k. split; [done|]. split; [done|]. right. exists iG, pg, m.
    rewrite Hn. done.
  - intros Hnil. exists k. split; [done|]. split; [done|]. by left.
Qed.

(** X1: every entry of the cache that the consistency check builds is the
    covisibility group of one of the call's candidates; its count is 0 when
    no cached group is consistent with it, and otherwise the count of a
    consistent cached group plus one ([int] addition). *)
Theorem new_cache_entries_accounted (d : t) (conn : KFptr -> gset KFptr)
    (tmp : list KFptr) :
  Forall (accounted (prevConsistentGroups_ d) conn tmp)
    (currConsistentGroups (check_consistency d conn tmp)).
Proof.
  unfold check_consistency. apply fold_candidate_step_groups; [done|constructor].
Qed.

(** The number of cached groups already continued. *)
Lemma count_true_insert (cf : list bool) (i : nat) :
  (i < length cf)%nat -> nth i cf false = false ->
  length (filter (fun b => b = true) (<[i := true]> cf))
  = S (length (filter (fun b => b = true) cf)).
Proof.
  revert i. induction cf as [|b cf IH]; intros i Hi Hn; [simpl in Hi; lia|].
  destruct i as [|i]; simpl in *.
  - subst b. rewrite !filter_cons. simpl. done.
  - rewrite !filter_cons. destruct (decide (b = true)); simpl; rewrite IH; try done; lia.
Qed.

Lemma group_step_balance prev minC k g c b iG :
  (iG < length (consistentFound c))%nat ->
  let r := (group_step prev minC k g (c, b) iG).1 in
  length (consistentFound r) = length (consistentFound c)
  /\ (length (currConsistentGroups r)
      + length (filter (fun b => b = true) (consistentFound c))
      = length (currConsistentGroups c)
        + length (filter (fun b => b = true) (consistentFound r)))%nat.
Proof.
  intros Hi. unfold group_step. cbv zeta.
  destruct (nth iG (consistentFound c) false) eqn:En; simpl.
  - destruct (_ && _); simpl; split; done.
  - destruct (_ && _); simpl; rewrite length_insert, length_app, count_true_insert by done;
      simpl; split; lia.
Qed.

Lemma fold_group_step_balance prev minC k g ids c b :
  Forall (fun iG => (iG < length (consistentFound c))%nat) ids ->
  let r := (fold_left (group_step prev minC k g) ids (c, b)).1 in
  length (consistentFound r) = length (consistentFound c)
  /\ (length (currConsistentGroups r)
      + length (filter (fun b => b = true) (consistentFound c))
      = length (currConsistentGroups c)
        + length (filter (fun b => b = true) (consistentFound r)))%nat.
Proof.
  cbv zeta. revert c b. induction ids as [|iG ids IH]; intros c b Hids; [done|].
  apply Forall_cons in Hids as [Hi Hids]. cbn [fold_left].
  pose proof (group_step_balance prev minC k g c b iG Hi) as H1. cbv zeta in H1.
  destruct (group_step prev minC k g (c, b) iG) as [c' b']. simpl in H1.
  destruct H1 as [L1 B1]. rewrite <- L1 in Hids.
  destruct (IH c' b' Hids) as [L2 B2]. split; lia.
Qed.

Lemma consistentGroupsIds_lt prev g :
  Forall (fun iG => (iG < length prev)%nat) (consistentGroupsIds prev g).
Proof.
  apply Forall_forall. intros iG H. unfold consistentGroupsIds in H.
  apply list_elem_of_filter in H as [_ H]. apply elem_of_seq in H. lia.
Qed.

Lemma candidate_step_balance prev minC conn c k :
  length (consistentFound c) = length prev ->
  let r := candidate_step prev minC conn c k in
  length (consistentFound r) = length prev
  /\ (length (currConsistentGroups r)
      + length (filter (fun b => b = true) (consistentFound c))
      = length (currConsistentGroups c)
        + length (filter (fun b => b = true) (consistentFound r))
        + (if decide (consistentGroupsIds prev (conn k ∪ {[k]}) = []) then 1 else 0))%nat.
Proof.
  intros Hl. cbv zeta. unfold candidate_step.
  pose proof (consistentGroupsIds_lt prev (conn k ∪ {[k]})) as Hids.
  rewrite <- Hl in Hids.
  pose proof (fold_group_step_balance prev minC k (conn k ∪ {[k]})
                (consistentGroupsIds prev (conn k ∪ {[k]})) c false Hids) as H1.
  cbv zeta in H1. destruct (fold_left _ _ _) as [c1 b1]. simpl in H1.
  destruct H1 as [L1 B1].
  destruct (consistentGroupsIds prev (conn k ∪ {[k]})); simpl.
  - rewrite length_app. simpl. split; lia.
  - split; lia.
Qed.

Lemma fold_candidate_step_balance prev minC conn l c :
  length (consistentFound c) = length prev ->
  let r := fold_left (candidate_step prev minC conn) l c in
  length (consistentFound r) = length prev
  /\ (length (currConsistentGroups r)
      + length (filter (fun b => b = true) (consistentFound c))
      = length (currConsistentGroups c)
        + length (filter (fun b => b = true) (consistentFound r))
        + length (filter (fun k => consistentGroupsIds prev (conn k ∪ {[k]}) = []) l))%nat.
Proof.
  cbv zeta. revert c. induction l as [|k l IH]; intros c Hl; [simpl; split; lia|].
  cbn [fold_left].
  pose proof (candidate_step_balance prev minC conn c k Hl) as H1. cbv zeta in H1.
  destruct H1 as [L1 B1]. destruct (IH _ L1) as [L2 B2].
  rewrite filter_cons.
  destruct (decide (consistentGroupsIds prev (conn k ∪ {[k]}) = [])); simpl; split; lia.
Qed.

(** X2: a cached group is continued by at most one group of the new cache
    (the [consistentFound] vector): the new cache has at most as many
    entries as the old one, plus one per candidate that no cached group is
    consistent with. *)
Theorem new_cache_size (d : t) (conn : KFptr -> gset KFptr) (tmp : list KFptr) :
  (length (currConsistentGroups (check_consistency d conn tmp))
   <= length (prevConsistentGroups_ d)
      + length (filter (fun k => consistentGroupsIds (prevConsistentGroups_ d)
                                   (conn k ∪ {[k]}) = []) tmp))%nat.
Proof.
  unfold check_consistency.
  pose proof (fold_candidate_step_balance (prevConsistentGroups_ d) (minConsistency_ d)
                conn tmp
                {| currConsistentGroups := [];
                   consistentFound := replicate (length (prevConsistentGroups_ d)) false;
                   candidateKFs := [] |}) as H.
  cbv zeta in H. simpl in H. rewrite length_replicate in H.
  destruct (H eq_refl) as [L B].
  pose proof (length_filter (fun b => b = true)
                (consistentFound
                   (fold_left (candidate_step (prevConsistentGroups_ d)
                                 (minConsistency_ d) conn) tmp
                      {| currConsistentGroups := [];
                         consistentFound :=
                           replicate (length (prevConsistentGroups_ d)) false;
                         candidateKFs := [] |}))) as Hf.
  lia.
Qed.

(** X3: the candidates handed to the Sim3 stage are candidates of the
    database, in the database's order, each at most as often as the
    database returned it; without duplicates there, there are none among
    the admitted. *)
Theorem admitted_candidates_sublist (d : t) (conn : KFptr -> gset KFptr)
    (tmp : list KFptr) :
  candidateKFs (check_consistency d conn tmp) `sublist_of` tmp
  /\ (NoDup tmp -> NoDup (candidateKFs (check_consistency d conn tmp))).
Proof.
  rewrite check_consistency_candidates. split.
  - apply sublist_filter.
  - apply NoDup_filter.
Qed.

Lemma fold_candidate_step_empty_cache minC conn l c :
  consistentFound c = [] ->
  fold_left (candidate_step [] minC conn) l c
  = {| currConsistentGroups :=
         currConsistentGroups c ++ map (fun k => (conn k ∪ {[k]}, 0)) l;
       consistentFound := [];
       candidateKFs := candidateKFs c |}.
Proof.
  revert c. induction l as [|k l IH]; intros c Hc.
  - simpl. rewrite app_nil_r. destruct c; simpl in *; by subst.
  - cbn [fold_left]. rewrite IH; [|by rewrite <- Hc]. simpl.
    by rewrite <- app_assoc.
Qed.

(** X4: a keyframe for which the database returns no candidate empties the
    cache, and with an empty cache nothing can be admitted: the next call
    of [Detect], whatever it is given, returns false without any call to
    [SetNotErase] or [SetErase], and stores the group of each of its
    candidates with count 0. *)
Theorem no_candidates_resets_consistency {G : Geometry}
    (env : Env) (d : t) (w : World) (currentKF : KFptr) (loop : Loop)
    (lastLoopKFId : Z) (o : outcome) :
  Detect env d w currentKF loop lastLoopKFId = Some o ->
  (Int.to_int (kf_id (kfs w currentKF)) <? Int.add lastLoopKFId 10) = false ->
  DetectLoopCandidates env currentKF (minScore env w currentKF) = [] ->
  o_found o = false /\ o_world o = w /\ o_loop o = loop
  /\ prevConsistentGroups_ (o_detector o) = []
  /\ forall env' w' currentKF' loop' lastLoopKFId' o',
       Detect env' (o_detector o) w' currentKF' loop' lastLoopKFId' = Some o' ->
       o_found o' = false /\ o_world o' = w'
       /\ Forall (fun e => is_guard e = false) (o_log o')
       /\ ((Int.to_int (kf_id (kfs w' currentKF')) <? Int.add lastLoopKFId' 10) = false ->
           prevConsistentGroups_ (o_detector o')
           = map (fun k => (kf_connected (kfs w' k) ∪ {[k]}, 0))
               (DetectLoopCandidates env' currentKF' (minScore env' w' currentKF'))).
Proof.
  intros HD Hf Hnil. unfold Detect in HD. rewrite Hf, Hnil in HD.
  inversion HD; subst; clear HD. simpl.
  do 4 (split; [done|]).
  intros env' w' cur' loop' last' o' HD'. unfold Detect in HD'.
  destruct (Int.to_int (kf_id (kfs w' cur')) <? Int.add last' 10) eqn:Ef'.
  { inversion HD'; subst. simpl. repeat (split; [done|]). done. }
  destruct (DetectLoopCandidates env' cur' (minScore env' w' cur')) as [|k0 tmp0] eqn:Etmp.
  { inversion HD'; subst. simpl. split; [done|]. split; [done|].
    split; [by repeat constructor|done]. }
  unfold check_consistency in HD'. cbn [prevConsistentGroups_ set_prevConsistentGroups] in HD'.
  rewrite fold_candidate_step_empty_cache in HD' by done.
  cbn [candidateKFs currConsistentGroups] in HD'.
  inversion HD'; subst. simpl. split; [done|]. split; [done|].
  split; [by repeat constructor|done].
Qed.

End CacheFacts.

Section CacheRuns.
Import LoopDetector Symbolic.

(** The database proposes keyframe 1 once. *)
Lemma admitted_candidates_sublist_witness :
  let d := LoopClosingImpl.detector_ (Example.closer []) in
  let conn := fun k => kf_connected (kfs Example.world k) in
  NoDup [1%nat] /\ NoDup (candidateKFs (check_consistency d conn [1%nat])).
Proof.
  intros d conn.
  assert (H : NoDup [1%nat]) by (refine (bool_decide_unpack _ _); vm_compute; exact I).
  split; [exact H|].
  exact (proj2 (admitted_candidates_sublist d conn [1%nat]) H).
Defined.

(** Keyframe 20 with a cached group and a database that proposes nothing. *)
Lemma no_candidates_resets_consistency_witness :
  let d := LoopClosingImpl.detector_ (Example.closer []) in
  (Int.to_int (kf_id (kfs Example.world 20%nat)) <? Int.add 0 10) = false
  /\ DetectLoopCandidates MoreExamples.env_none 20%nat
       (minScore MoreExamples.env_none Example.world 20%nat) = []
  /\ exists o,
       Detect MoreExamples.env_none d Example.world 20%nat Loop_fresh 0 = Some o
       /\ prevConsistentGroups_ d <> []
       /\ prevConsistentGroups_ (o_detector o) = [].
Proof.
  intros d.
  assert (H1 : (Int.to_int (kf_id (kfs Example.world 20%nat)) <? Int.add 0 10) = false)
    by (vm_compute; reflexivity).
  assert (H2 : DetectLoopCandidates MoreExamples.env_none 20%nat
                 (minScore MoreExamples.env_none Example.world 20%nat) = [])
    by reflexivity.
  split; [exact H1|]. split; [exact H2|].
  destruct (Detect MoreExamples.env_none d Example.world 20%nat Loop_fresh 0)
    as [o|] eqn:E; [|vm_compute in E; discriminate].
  exists o. split; [reflexivity|]. split; [simpl; discriminate|].
  exact (proj1 (proj2 (proj2 (proj2
    (no_candidates_resets_consistency MoreExamples.env_none d Example.world 20%nat
       Loop_fresh 0 o E H1 H2))))).
Defined.

End CacheRuns.

(** ** What FindLoopInCandidateKFs returns *)

Section FindLoopSpec.
Context {G : Geometry}.
Import LoopDetector.

Lemma setup_slot_ok env w cur fs k : slot_ok env w cur fs (setup_slot env w cur fs k).1.
Proof.
  unfold setup_slot, slot_ok. destruct (kf_isBad (kfs w k)) eqn:Eb; [done|].
  destruct (SearchByBoW env cur k) as [n vm] eqn:Es. destruct (n <? 20) eqn:En; [done|].
  simpl. intros _. rewrite Eb, Es. simpl. apply Z.ltb_ge in En. done.
Qed.

Lemma setup_fold_ok env w cur fs cands acc n :
  Forall (slot_ok env w cur fs) acc ->
  Forall (slot_ok env w cur fs)
    (fold_left
       (fun acc candidateKF =>
          let '(s, counted) := setup_slot env w cur fs candidateKF in
          (acc.1 ++ [s], if counted then acc.2 + 1 else acc.2))
       cands (acc, n)).1.
Proof.
  revert acc n. induction cands as [|k cands IH]; intros acc n Hacc; [done|].
  cbn [fold_left]. pose proof (setup_slot_ok env w cur fs k) as Hk.
  destruct (setup_slot env w cur fs k) as [s counted]. cbn [fst snd] in *.
  apply IH. apply Forall_app. split; [done|]. by apply Forall_singleton.
Qed.

Lemma ransac_pass_keeps_ok env w cur fs loop todo n todo' n' :
  Forall (slot_ok env w cur fs) todo ->
  ransac_pass env w cur fs loop todo n = inr (todo', n') ->
  Forall (slot_ok env w cur fs) todo'.
Proof.
  revert n todo' n'. induction todo as [|s rest IH]; intros n todo' n' Hok H.
  - simpl in H. inversion H; subst. done.
  - apply Forall_cons in Hok as [Hs Hrest].
    cbn [ransac_pass] in H. destruct (s_discarded s) eqn:Hd.
    + destruct (ransac_pass env w cur fs loop rest n) as [l|[rest' m]] eqn:E; [done|].
      inversion H; subst. apply Forall_cons. split; [done|]. by eapply IH.
    + destruct (iterate (s_solver s)) as [o solver'] eqn:Hit.
      set (n1 := if terminate solver' then n - 1 else n) in H.
      assert (Hnext :
        match ransac_pass env w cur fs loop rest n1 with
        | inl l => inl l
        | inr (rest', n'0) =>
            inr ({| s_candidateKF := s_candidateKF s;
                    s_discarded := terminate solver';
                    s_solver := solver'; s_vmatches := s_vmatches s |} :: rest', n'0)
        end = inr (todo', n')).
      { destruct (it_found o); [|done].
        destruct (OptimizeSim3 _ _ _ _ _ _) as [[nI ms] S'].
        destruct (20 <=? nI); [done|done]. }
      clear H.
      destruct (ransac_pass env w cur fs loop rest n1) as [l|[rest' m]] eqn:E; [done|].
      inversion Hnext; subst. apply Forall_cons. split; [|by eapply IH].
      unfold slot_ok in *. simpl. intros _.
      destruct (Hs Hd) as (H1 & H2 & H3 & H4). repeat (split; [done|]).
      unfold iterate in Hit. destruct (s_solver s) as [|o' r] eqn:Es; inversion Hit; subst.
      * done.
      * etrans; [|exact H4]. by apply suffix_cons_r.
Qed.

Lemma ransac_pass_found env w cur fs loop todo n l :
  Forall (slot_ok env w cur fs) todo ->
  ransac_pass env w cur fs loop todo n = inl l ->
  exists s, s ∈ todo /\ s_discarded s = false
            /\ found_by env w cur fs loop (s_candidateKF s) l.
Proof.
  revert n. induction todo as [|s rest IH]; intros n Hok H; [done|].
  apply Forall_cons in Hok as [Hs Hrest].
  cbn [ransac_pass] in H. destruct (s_discarded s) eqn:Hd.
  - destruct (ransac_pass env w cur fs loop rest n) as [l'|[rest' m]] eqn:E; [|done].
    inversion H; subst. destruct (IH _ Hrest E) as (s' & ? & ?).
    exists s'. split; [by apply list_elem_of_further|done].
  - destruct (iterate (s_solver s)) as [o solver'] eqn:Hit.
    set (n1 := if terminate solver' then n - 1 else n) in H.
    destruct (Hs Hd) as (H1 & H2 & H3 & H4).
    assert (Hcases :
      (it_found o = true
       /\ 20 <= (OptimizeSim3 env cur (s_candidateKF s)
                   (SearchBySim3 env cur (s_candidateKF s)
                      (select_inliers (it_isInlier o) (s_vmatches s)) (it_Scm o))
                   (it_Scm o) fs).1.1
       /\ l = set_match (s_candidateKF s)
                (sim3_mul (OptimizeSim3 env cur (s_candidateKF s)
                             (SearchBySim3 env cur (s_candidateKF s)
                                (select_inliers (it_isInlier o) (s_vmatches s)) (it_Scm o))
                             (it_Scm o) fs).2
                   (sim3_of_pose (kf_pose (kfs w (s_candidateKF s)))))
                (OptimizeSim3 env cur (s_candidateKF s)
                   (SearchBySim3 env cur (s_candidateKF s)
                      (select_inliers (it_isInlier o) (s_vmatches s)) (it_Scm o))
                   (it_Scm o) fs).1.2 loop)
      \/ (exists l', ransac_pass env w cur fs loop rest n1 = inl l' /\ l = l')).
    { destruct (it_found o) eqn:Ef.
      - destruct (OptimizeSim3 _ _ _ _ _ _) as [[nI ms] S'] eqn:Eo. simpl.
        destruct (20 <=? nI) eqn:E20.
        + inversion H; subst. left. apply Z.leb_le in E20. done.
        + destruct (ransac_pass env w cur fs loop rest n1) as [l'|[rest' m]] eqn:E;
            inversion H; subst; eauto.
      - destruct (ransac_pass env w cur fs loop rest n1) as [l'|[rest' m]] eqn:E;
          inversion H; subst; eauto. }
    destruct Hcases as [(Ef & H20 & ->)|(l' & E & ->)].
    + exists s. split; [apply list_elem_of_here|]. split; [done|].
      unfold found_by. cbv zeta. rewrite <- H3. exists o.
      split; [|done].
      unfold iterate in Hit. destruct (s_solver s) as [|o' r] eqn:Es; inversion Hit; subst.
      * simpl in Ef. done.
      * rewrite H3. destruct H4 as [pre ->]. apply elem_of_app. right.
        apply list_elem_of_here.
    + destruct (IH _ Hrest E) as (s' & ? & ?).
      exists s'. split; [by apply list_elem_of_further|done].
Qed.

Lemma ransac_while_spec fuel env w cur fs loop slots n b l :
  Forall (slot_ok env w cur fs) slots ->
  ransac_while fuel env w cur fs loop slots n = Some (b, l) ->
  (b = false -> l = loop)
  /\ (b = true ->
      exists k, k ∈ map s_candidateKF slots
                /\ kf_isBad (kfs w k) = false
                /\ 20 <= (SearchByBoW env cur k).1
                /\ found_by env w cur fs loop k l).
Proof.
  revert slots n. induction fuel as [|fuel IH]; intros slots n Hok H; [done|].
  cbn [ransac_while] in H. destruct (0 <? n).
  - destruct (ransac_pass env w cur fs loop slots n) as [l'|[slots' n']] eqn:E.
    + inversion H; subst. split; [done|]. intros _.
      destruct (ransac_pass_found _ _ _ _ _ _ _ _ Hok E) as (s & Hin & Hd & Hf).
      rewrite Forall_forall in Hok. destruct (Hok s Hin Hd) as (H1 & H2 & _).
      exists (s_candidateKF s). split; [|done].
      apply list_elem_of_fmap. eauto.
    + destruct (ransac_pass_continues _ _ _ _ _ _ _ _ _ E) as (Hm & _ & _).
      rewrite <- Hm. eapply IH; [|exact H]. by eapply ransac_pass_keeps_ok.
  - inversion H; subst. split; [done|]. done.
Qed.

(** X5: [FindLoopInCandidateKFs] returns, whatever the collaborators
    answer.  When it returns false the loop is left as it was.  When it
    returns true, the matched keyframe is one of the candidates, is not
    bad, had at least 20 BoW matches, and the loop holds the result of a
    successful solver iteration refined by [OptimizeSim3] to at least 20
    inliers, with [Scw = Scm * Sim3(pose of the candidate)].  In particular
    it returns false when every candidate is bad or has fewer than 20 BoW
    matches. *)
Theorem FindLoopInCandidateKFs_spec (env : Env) (w : World) (currentKF : KFptr)
    (candidateKFs : list KFptr) (loop : Loop) (fixScale : bool) :
  exists b l,
    (FindLoopInCandidateKFs env w currentKF candidateKFs loop fixScale).1 = Some (b, l)
    /\ (b = false -> l = loop)
    /\ (b = true ->
        exists k, k ∈ candidateKFs
                  /\ kf_isBad (kfs w k) = false
                  /\ 20 <= (SearchByBoW env currentKF k).1
                  /\ found_by env w currentKF fixScale loop k l)
    /\ ((forall k, k ∈ candidateKFs ->
           kf_isBad (kfs w k) = true \/ (SearchByBoW env currentKF k).1 < 20) ->
        b = false).
Proof.
  destruct (FindLoopInCandidateKFs_total env w currentKF candidateKFs loop fixScale)
    as [[b l] Hr].
  exists b, l. split; [done|].
  unfold FindLoopInCandidateKFs in Hr.
  destruct (setup_spec env w currentKF fixScale candidateKFs) as [Hm _].
  pose proof (setup_fold_ok env w currentKF fixScale candidateKFs [] 0 (Forall_nil_2 _)) as Hok.
  fold (setup env w currentKF fixScale candidateKFs) in Hok.
  destruct (setup env w currentKF fixScale candidateKFs) as [slots n]. cbn [fst snd] in *.
  destruct (ransac_while_spec _ _ _ _ _ _ _ _ _ _ Hok Hr) as [Hfalse Htrue].
  rewrite Hm in Htrue. split; [done|]. split; [done|].
  intros Hall. destruct b; [|done].
  destruct (Htrue eq_refl) as (k & Hk & Hbad & H20 & _).
  destruct (Hall k Hk) as [?|?]; [congruence|lia].
Qed.

End FindLoopSpec.

(** ** The reference score and the loop map points of Detect *)

Section DetectMore.
Context {G : Geometry}.
Import LoopDetector.

Lemma fmin_le_l a b : (fmin a b <= a)%Q.
Proof.
  unfold fmin. destruct (Qle_bool a b) eqn:E; [apply Qle_refl|].
  destruct (Qlt_le_dec b a) as [Hlt|Hle]; [by apply Qlt_le_weak|].
  apply Qle_bool_iff in Hle. congruence.
Qed.

Lemma fmin_le_r a b : (fmin a b <= b)%Q.
Proof.
  unfold fmin. destruct (Qle_bool a b) eqn:E; [by apply Qle_bool_iff|apply Qle_refl].
Qed.

Lemma minScore_fold env w cur l m0 :
  let f := fun m neighborKF =>
             if kf_isBad (kfs w neighborKF) then m
             else fmin m (Float.to_float (score env cur neighborKF)) in
  let m := fold_left f l m0 in
  (m <= m0)%Q
  /\ (forall n, n ∈ l -> kf_isBad (kfs w n) = false ->
        (m <= Float.to_float (score env cur n))%Q)
  /\ (m = m0 \/ exists n, n ∈ l /\ kf_isBad (kfs w n) = false
                          /\ m = Float.to_float (score env cur n)).
Proof.
  cbv zeta. revert m0. induction l as [|k l IH]; intros m0; cbn [fold_left].
  - split; [apply Qle_refl|]. split; [|by left]. intros n Hn. by apply elem_of_nil in Hn.
  - destruct (kf_isBad (kfs w k)) eqn:Ek.
    + destruct (IH m0) as (I1 & I2 & I3). split; [done|]. split.
      * intros n Hn Hb. apply elem_of_cons in Hn as [->|Hn]; [congruence|by apply I2].
      * destruct I3 as [?|(n & ? & ? & ?)]; [by left|right].
        exists n. split; [by apply list_elem_of_further|done].
    + destruct (IH (fmin m0 (Float.to_float (score env cur k)))) as (I1 & I2 & I3). split.
      { eapply Qle_trans; [exact I1|apply fmin_le_l]. }
      split.
      * intros n Hn Hb. apply elem_of_cons in Hn as [->|Hn]; [|by apply I2].
        eapply Qle_trans; [exact I1|apply fmin_le_r].
      * destruct I3 as [Heq|(n & ? & ? & ?)].
        -- rewrite Heq. unfold fmin.
           destruct (Qle_bool m0 (Float.to_float (score env cur k))); [by left|].
           right. exists k. split; [apply list_elem_of_here|done].
        -- right. exists n. split; [by apply list_elem_of_further|done].
Qed.

(** The cast to [float] on values whose rounding is known: 1 is kept;
    the [double] nearest to 0.1 becomes 13421773 / 2^27, which is above it;
    a value halfway between two [float]s goes to the one with the even
    significand, also among the subnormals. *)
Example to_float_values :
  (Float.to_float 1 == 1)%Q
  /\ (Float.to_float (3602879701896397 # 2 ^ 55) == 13421773 # 2 ^ 27)%Q
  /\ (3602879701896397 # 2 ^ 55 < Float.to_float (3602879701896397 # 2 ^ 55))%Q
  /\ (Float.to_float (1 + (1 # 2 ^ 24)) == 1)%Q
  /\ (Float.to_float (1 + (3 # 2 ^ 24)) == 1 + (1 # 2 ^ 22))%Q
  /\ (Float.to_float (3 # 2 ^ 150) == 1 # 2 ^ 148)%Q
  /\ (Float.to_float (1 # 2 ^ 150) == 0)%Q
  /\ (Float.to_float (- (1 # 3)) == - (11184811 # 2 ^ 25))%Q
  /\ (Float.to_float 16777217 == 16777216)%Q.
Proof. repeat split; vm_compute; reflexivity. Qed.

(** X6: the reference score that [Detect] hands to the database is at
    most 1 and at most the score, cast to [float], of every covisible
    neighbour that is not bad, and it is attained: it is 1 or the [float]
    of the score of such a neighbour.  Bad neighbours do not count.  The
    value is the [float], not the [double] the vocabulary returned: when
    the only neighbour scores the [double] nearest to 0.1, the database
    gets 13421773 / 2^27. *)
Theorem minScore_is_least_neighbour_score (env : Env) (w : World) (currentKF : KFptr) :
  let m := minScore env w currentKF in
  (m <= 1)%Q
  /\ (forall n, n ∈ kf_covisible (kfs w currentKF) -> kf_isBad (kfs w n) = false ->
        (m <= Float.to_float (score env currentKF n))%Q)
  /\ (m = 1%Q
      \/ exists n, n ∈ kf_covisible (kfs w currentKF) /\ kf_isBad (kfs w n) = false
                   /\ m = Float.to_float (score env currentKF n))
  /\ (forall n, kf_covisible (kfs w currentKF) = [n] -> kf_isBad (kfs w n) = false ->
        score env currentKF n = (3602879701896397 # 2 ^ 55)%Q ->
        (m == 13421773 # 2 ^ 27)%Q /\ (score env currentKF n < m)%Q).
Proof.
  cbv zeta.
  destruct (minScore_fold env w currentKF (kf_covisible (kfs w currentKF)) 1%Q)
    as (H1 & H2 & H3).
  split; [exact H1|]. split; [exact H2|]. split; [exact H3|].
  intros n Hn Hb Hs. unfold minScore. rewrite Hn. cbn [fold_left]. rewrite Hb, Hs.
  vm_compute. split; [reflexivity|reflexivity].
Qed.

Lemma elem_of_concat {A} (x : A) (ls : list (list A)) :
  x ∈ concat ls <-> exists l, x ∈ l /\ l ∈ ls.
Proof.
  induction ls as [|l ls IH]; cbn [concat].
  - split; [intros H; by apply elem_of_nil in H|].
    intros (l & _ & H). by apply elem_of_nil in H.
  - rewrite elem_of_app, IH. split.
    + intros [?|(l' & ? & ?)]; [exists l; split; [done|apply list_elem_of_here]|].
      exists l'. split; [done|by apply list_elem_of_further].
    + intros (l' & Hx & Hl). apply elem_of_cons in Hl as [->|Hl]; [by left|].
      right. eauto.
Qed.

Lemma gathered_start currentId w : gathered currentId w [] ([], w).
Proof.
  unfold gathered. cbn [fst snd]. split; [constructor|]. split.
  - intros p. split; [intros Hp; by apply elem_of_nil in Hp|].
    intros [Hp _]. by apply elem_of_nil in Hp.
  - do 4 (split; [done|]). intros p. destruct (decide (p ∈ [])) as [Hp|]; [|done].
    by apply elem_of_nil in Hp.
Qed.

Lemma gather_point_step currentId w seen acc m :
  gathered currentId w seen acc ->
  gathered currentId w (seen ++ [m]) (gather_point currentId acc m).
Proof.
  destruct acc as [pts w']. unfold gathered. cbn [fst snd].
  intros (Hnd & Hiff & Hk & Ho & Ha & Hb & Hm).
  destruct m as [p|]; cbn [gather_point].
  - rewrite (Hm p).
    destruct (decide (p ∈ pts)) as [Hin|Hnin].
    + cbn [set_loopPointForKF mp_isBad mp_loopPointForKF]. rewrite Z.eqb_refl, orb_true_r.
      cbn [fst snd]. split; [done|]. split.
      { intros q. rewrite Hiff, elem_of_app, list_elem_of_singleton. split.
        - intros (? & ? & ?). auto.
        - intros ([?|Heq] & ? & ?); [done|]. inversion Heq; subst q.
          by apply Hiff in Hin as (? & ? & ?). }
      done.
    + destruct (mp_isBad (mps w p)) eqn:Ebad; cbn [orb].
      { cbn [fst snd]. split; [done|]. split; [|done].
        intros q. rewrite Hiff, elem_of_app, list_elem_of_singleton. split.
        - intros (? & ? & ?). auto.
        - intros ([?|Heq] & ? & ?); [done|]. inversion Heq; subst q. congruence. }
      destruct (mp_loopPointForKF (mps w p) =? currentId) eqn:Elp.
      { cbn [fst snd]. split; [done|]. split; [|done].
        apply Z.eqb_eq in Elp.
        intros q. rewrite Hiff, elem_of_app, list_elem_of_singleton. split.
        - intros (? & ? & ?). auto.
        - intros ([?|Heq] & ? & ?); [done|]. inversion Heq; subst q. congruence. }
      apply Z.eqb_neq in Elp. cbn [fst snd set_mp kfs mps keyFrameOrigins allMapPoints bigChangeId].
      split.
      { apply NoDup_app. split; [done|]. split; [|apply NoDup_singleton].
        intros q Hq Hq'. apply list_elem_of_singleton in Hq'. by subst q. }
      split.
      { intros q. rewrite !elem_of_app, !list_elem_of_singleton, Hiff. split.
        - intros [(? & ? & ?)| ->]; auto.
        - intros ([?|Heq] & ? & ?); [by left|]. inversion Heq. by right. }
      do 4 (split; [done|]). intros q.
      destruct (decide (q = p)) as [->|Hne].
      * rewrite fn_lookup_insert. rewrite decide_True; [done|].
        apply elem_of_app. right. by apply list_elem_of_singleton.
      * rewrite fn_lookup_insert_ne by done. rewrite Hm.
        destruct (decide (q ∈ pts)) as [Hq|Hq].
        -- rewrite decide_True; [done|]. apply elem_of_app. by left.
        -- rewrite decide_False; [done|]. rewrite elem_of_app, list_elem_of_singleton.
           intros [?|?]; done.
  - cbn [fst snd]. split; [done|]. split; [|done].
    intros q. rewrite Hiff, elem_of_app, list_elem_of_singleton. split.
    + intros (? & ? & ?). auto.
    + intros ([?|Heq] & ? & ?); [done|]. discriminate.
Qed.

Lemma gather_points_fold currentId w seen acc ms :
  gathered currentId w seen acc ->
  gathered currentId w (seen ++ ms) (fold_left (gather_point currentId) ms acc).
Proof.
  revert seen acc. induction ms as [|m ms IH]; intros seen acc H; cbn [fold_left].
  - by rewrite app_nil_r.
  - replace (seen ++ m :: ms) with ((seen ++ [m]) ++ ms) by by rewrite <- app_assoc.
    apply IH. by apply gather_point_step.
Qed.

Lemma gather_keyframes_fold currentId w seen acc ks :
  gathered currentId w seen acc ->
  gathered currentId w (seen ++ concat (map (fun k => kf_mapPoints (kfs w k)) ks))
    (fold_left
       (fun acc connectedKF =>
          fold_left (gather_point currentId) (kf_mapPoints (kfs acc.2 connectedKF)) acc)
       ks acc).
Proof.
  revert seen acc. induction ks as [|k ks IH]; intros seen acc H; cbn [fold_left map concat].
  - by rewrite app_nil_r.
  - rewrite app_assoc. apply IH.
    assert (Hk : kfs acc.2 = kfs w) by (destruct H as (_ & _ & Hk & _); exact Hk).
    rewrite Hk. by apply gather_points_fold.
Qed.

Lemma gather_loopMapPoints_gathered currentId w connectedKFs :
  gathered currentId w (concat (map (fun k => kf_mapPoints (kfs w k)) connectedKFs))
    (gather_loopMapPoints currentId w connectedKFs).
Proof.
  exact (gather_keyframes_fold currentId w [] ([], w) connectedKFs
           (gathered_start currentId w)).
Qed.

(** X7: the loop that gathers [loop.loopMapPoints] (source lines 259-273)
    collects, each once, exactly the map points observed by one of the
    keyframes given that are neither bad nor already stamped with the id of
    the current keyframe; it stamps [loopPointForKF] of these points and
    writes nothing else to the map. *)
Theorem gather_loopMapPoints_spec (currentId : Z) (w : World) (connectedKFs : list KFptr) :
  let r := gather_loopMapPoints currentId w connectedKFs in
  NoDup r.1
  /\ (forall p, p ∈ r.1 <->
        (exists k, k ∈ connectedKFs /\ Some p ∈ kf_mapPoints (kfs w k))
        /\ mp_isBad (mps w p) = false /\ mp_loopPointForKF (mps w p) <> currentId)
  /\ kfs r.2 = kfs w /\ keyFrameOrigins r.2 = keyFrameOrigins w
  /\ allMapPoints r.2 = allMapPoints w /\ bigChangeId r.2 = bigChangeId w
  /\ (forall p, mps r.2 p
                = if decide (p ∈ r.1) then set_loopPointForKF currentId (mps w p)
                  else mps w p).
Proof.
  cbv zeta.
  destruct (gather_loopMapPoints_gathered currentId w connectedKFs)
    as (Hnd & Hiff & Hrest).
  split; [done|]. split; [|done].
  intros p. rewrite Hiff. split.
  - intros (Hin & ? & ?). split; [|done].
    apply elem_of_concat in Hin as (l & Hp & Hl).
    apply list_elem_of_fmap in Hl as (k & -> & Hk). eauto.
  - intros ((k & Hk & Hp) & ? & ?). split; [|done].
    apply elem_of_concat. exists (kf_mapPoints (kfs w k)). split; [done|].
    apply list_elem_of_fmap. eauto.
Qed.

(** X8: whatever [Detect] returns, it writes nothing to the keyframes, to
    the lists of the map or to the big-change index, and it keeps the
    detector's [fixScale_] and [minConsistency_]; a map point is left as it
    was unless it is one of [loop.loopMapPoints], was not bad, and got only
    its [loopPointForKF] set to the id of the current keyframe.  When a loop
    is accepted, [loop.loopMapPoints] has no repetition and all its points
    are not bad and carry that stamp. *)
Theorem Detect_writes_only_loop_stamps (env : Env) (d : t) (w : World) (currentKF : KFptr)
    (loop : Loop) (lastLoopKFId : Z) (o : outcome) :
  Detect env d w currentKF loop lastLoopKFId = Some o ->
  let currentId := kf_id (kfs w currentKF) in
  kfs (o_world o) = kfs w /\ keyFrameOrigins (o_world o) = keyFrameOrigins w
  /\ allMapPoints (o_world o) = allMapPoints w /\ bigChangeId (o_world o) = bigChangeId w
  /\ fixScale_ (o_detector o) = fixScale_ d
  /\ minConsistency_ (o_detector o) = minConsistency_ d
  /\ (forall p,
        mps (o_world o) p = mps w p
        \/ (p ∈ loopMapPoints (o_loop o) /\ mp_isBad (mps w p) = false
            /\ mps (o_world o) p = set_loopPointForKF currentId (mps w p)))
  /\ (o_found o = true ->
      NoDup (loopMapPoints (o_loop o))
      /\ forall p, p ∈ loopMapPoints (o_loop o) ->
           mp_isBad (mps (o_world o) p) = false
           /\ mp_loopPointForKF (mps (o_world o) p) = currentId).
Proof.
  intros HD. cbv zeta. unfold Detect in HD.
  destruct (Int.to_int (kf_id (kfs w currentKF)) <? Int.add lastLoopKFId 10).
  { inversion HD; subst o. simpl. do 6 (split; [done|]). split; [by left|done]. }
  destruct (DetectLoopCandidates env currentKF (minScore env w currentKF)) as [|t0 tmp].
  { inversion HD; subst o. simpl. do 6 (split; [done|]). split; [by left|done]. }
  destruct (candidateKFs (check_consistency d _ (t0 :: tmp))) as [|c0 cands].
  { inversion HD; subst o. simpl. do 6 (split; [done|]). split; [by left|done]. }
  destruct (FindLoopInCandidateKFs env w currentKF (c0 :: cands) loop (fixScale_ d))
    as [r log1].
  destruct r as [[[|] loop1]|]; [| |done].
  2:{ inversion HD; subst o. simpl. do 6 (split; [done|]). split; [by left|done]. }
  set (connectedKFs := match matchedKF loop1 with
                       | Some m => kf_covisible (kfs w m) ++ [m]
                       | None => []
                       end) in HD.
  pose proof (gather_loopMapPoints_gathered (kf_id (kfs w currentKF)) w connectedKFs)
    as (Hnd & Hiff & Hk & Ho & Ha & Hb & Hm).
  destruct (gather_loopMapPoints (kf_id (kfs w currentKF)) w connectedKFs) as [pts w'].
  cbn [fst snd] in *.
  assert (Hpts : forall p,
            mps w' p = mps w p
            \/ (p ∈ pts /\ mp_isBad (mps w p) = false
                /\ mps w' p = set_loopPointForKF (kf_id (kfs w currentKF)) (mps w p))).
  { intros p. rewrite (Hm p). destruct (decide (p ∈ pts)) as [Hp|Hp]; [right|by left].
    split; [done|]. by apply Hiff in Hp as (_ & ? & _). }
  assert (Hst : forall p, p ∈ pts ->
            mp_isBad (mps w' p) = false
            /\ mp_loopPointForKF (mps w' p) = kf_id (kfs w currentKF)).
  { intros p Hp. rewrite (Hm p), decide_True by done. simpl.
    by apply Hiff in Hp as (_ & ? & _). }
  destruct (40 <=? count_matches _); inversion HD; subst o; simpl;
    do 6 (split; [done|]); (split; [done|]); done.
Qed.

End DetectMore.

Section DetectRuns.
Import LoopDetector Symbolic.

(** Keyframe 20 closes a loop with keyframe 1: map points 1 and 2 are
    gathered and stamped. *)
Lemma Detect_writes_only_loop_stamps_witness :
  let d := LoopClosingImpl.detector_ (Example.closer []) in
  exists o,
    Detect (Example.env true 40) d Example.world 20%nat Loop_fresh 0 = Some o
    /\ o_found o = true
    /\ loopMapPoints (o_loop o) = [1%nat; 2%nat]
    /\ kfs (o_world o) = kfs Example.world
    /\ NoDup (loopMapPoints (o_loop o)).
Proof.
  intros d.
  destruct (Detect (Example.env true 40) d Example.world 20%nat Loop_fresh 0)
    as [o|] eqn:E; [|vm_compute in E; discriminate].
  exists o. split; [reflexivity|].
  pose proof (Detect_writes_only_loop_stamps (Example.env true 40) d Example.world
                20%nat Loop_fresh 0 o E) as (Hk & _ & _ & _ & _ & _ & _ & Hf).
  assert (Hfound : o_found o = true)
    by (vm_compute in E; injection E as <-; reflexivity).
  split; [exact Hfound|].
  split; [vm_compute in E; injection E as <-; reflexivity|].
  split; [exact Hk|]. exact (proj1 (Hf Hfound)).
Defined.

End DetectRuns.

(** ** The calls of the corrector *)

Section CorrectorCalls.
Context {G : Geometry}.
Import LoopCorrector.

Abbreviation corrector_only := (Forall (fun e => by_corrector e = true)).

Lemma fold_correct_point_calls cid nid c slots w log :
  corrector_only log ->
  corrector_only (fold_left (correct_point cid nid c) slots (w, log)).2.
Proof.
  revert w log. induction slots as [|m slots IH]; intros w log H; [done|].
  cbn [fold_left]. destruct m as [p|]; [|by apply IH].
  unfold correct_point at 2. destruct (_ || _); [by apply IH|].
  apply IH. apply Forall_app. split; [done|]. by apply Forall_singleton.
Qed.

Lemma fold_correct_keyframe_calls env cur es w NC log :
  corrector_only log ->
  corrector_only (fold_left (correct_keyframe env cur) es (w, NC, log)).2.
Proof.
  revert w NC log. induction es as [|[N S] es IH]; intros w NC log H; [done|].
  cbn [fold_left]. rewrite correct_keyframe_unfold. cbv zeta.
  apply IH. by apply fold_correct_point_calls.
Qed.

Lemma fold_fuse_slot_calls env cur l acc :
  corrector_only acc.2 -> corrector_only (fold_left (fuse_slot env cur) l acc).2.
Proof.
  revert acc. induction l as [|[i m] l IH]; intros [w log] H; [done|].
  cbn [fold_left]. apply IH. unfold fuse_slot. destruct m as [loopMP|]; [|done].
  destruct (mjoin _); [done|]. simpl. apply Forall_app. split; [done|].
  by repeat constructor.
Qed.

Lemma Detach_calls g : corrector_only (GlobalBA.Detach g).2.
Proof. unfold GlobalBA.Detach. destruct (GlobalBA.thread_ g); by repeat constructor. Qed.

Lemma Correct_calls env fixScale cur loop g w g' w' log :
  Correct env fixScale cur loop g w = Some (g', w', log) -> corrector_only log.
Proof.
  unfold Correct. destruct (LoopDetector.matchedKF loop) as [m|]; [|done].
  assert (Hstop : corrector_only
            (if GlobalBA.Running g then GlobalBA.Stop g else (g, [])).2).
  { destruct (GlobalBA.Running g); [apply Detach_calls|constructor]. }
  destruct (if GlobalBA.Running g then GlobalBA.Stop g else (g, [])) as [g1 logStop].
  destruct (propagate _ _ _ _) as [C NC].
  pose proof (fold_correct_keyframe_calls env cur C
                (UpdateConnections (links env) cur w) NC [] (Forall_nil_2 _)) as H1.
  unfold correct_map_points.
  destruct (fold_left (correct_keyframe env cur) _ _) as [[w1 NC'] log1].
  pose proof (fold_fuse_slot_calls env cur
                (imap pair (LoopDetector.matchedPoints loop)) (w1, log1) H1) as H2.
  destruct (fold_left (fuse_slot env cur) _ _) as [w2 log2].
  destruct (fold_left (connections_step env _) _ _) as [w4 lc].
  match goal with |- context [GlobalBA.Run ?id ?x] =>
    assert (Hrun : corrector_only (GlobalBA.Run id x).2);
    [|destruct (GlobalBA.Run id x) as [g2 logRun]] end.
  { unfold GlobalBA.Run.
    match goal with |- context [GlobalBA.Detach ?y] =>
      pose proof (Detach_calls y) as Hd; destruct (GlobalBA.Detach y) as [g2 logd] end.
    simpl in *. apply Forall_app. split; [done|]. by repeat constructor. }
  intros H. inversion H; subst. cbn [snd] in *.
  repeat first [apply Forall_cons; split; [done|] | apply Forall_app; split; [done|]].
  by repeat constructor.
Qed.

End CorrectorCalls.

(** ** One turn of the main loop *)

Section ProcessFacts.
Context {G : Geometry}.
Import LoopDetector LoopClosingImpl.

Lemma filter_nil_Forall {A} (P : A -> Prop) `{!forall x, Decision (P x)} (l : list A) :
  Forall (fun x => ~ P x) l -> filter P l = [].
Proof.
  induction 1 as [|x l Hx _ IH]; [done|].
  rewrite filter_cons, decide_False by done. exact IH.
Qed.

Lemma Detect_calls env d w cur loop last o :
  Detect env d w cur loop last = Some o ->
  exists guards,
    (o_log o = [] \/ o_log o = EvDetectLoopCandidates cur :: guards)
    /\ Forall (fun e => is_guard e = true) guards.
Proof.
  intros H. apply Detect_log_cases in H. cbv zeta in H.
  assert (Hg : forall l, Forall (fun e => is_guard e = true) (map EvSetNotErase l)).
  { intros l. apply Forall_forall. intros e He.
    by apply list_elem_of_fmap in He as (k & -> & _). }
  assert (He : forall l, Forall (fun e => is_guard e = true) (map EvSetErase l)).
  { intros l. apply Forall_forall. intros e He.
    by apply list_elem_of_fmap in He as (k & -> & _). }
  destruct H as [[_ [->|[->|[->| ->]]]]|[_ (m & _ & _ & ->)]].
  - exists []. split; [by left|done].
  - exists []. split; [by right|done].
  - eexists. split; [right; reflexivity|].
    repeat (apply Forall_app; split; [done|]). by apply Forall_singleton.
  - eexists. split; [right; reflexivity|]. by apply Forall_app.
  - eexists. split; [right; reflexivity|]. by apply Forall_app.
Qed.

(** The calls of one turn: the guard on the keyframe taken, the calls of
    [Detect], the insertion into the database, then either the calls of
    [Correct] or the release of the keyframe. *)
Lemma process_calls denv cenv st w st' w' log cur rest :
  keyFrameQueue_ st = cur :: rest ->
  process denv cenv st w = Some (st', w', log) ->
  exists o after,
    Detect denv (detector_ st) w cur Loop_fresh (Int.to_int (lastLoopKFId_ st)) = Some o
    /\ log = EvSetNotErase cur :: o_log o ++ EvDBAdd cur :: after
    /\ (after = [EvSetErase cur] \/ Forall (fun e => by_corrector e = true) after)
    /\ keyFrameQueue_ st' = rest
    /\ finishRequested_ st' = finishRequested_ st /\ finished_ st' = finished_ st
    /\ resetRequested_ st' = resetRequested_ st
    /\ detector_ st' = o_detector o.
Proof.
  intros Hq Hp. unfold process in Hp. rewrite Hq in Hp.
  destruct (Detect denv (detector_ st) w cur Loop_fresh (Int.to_int (lastLoopKFId_ st)))
    as [o|] eqn:HD; [|done].
  exists o. destruct (o_found o).
  - destruct (LoopCorrector.Correct _ _ _ _ _ _) as [[[g1 w1] logC]|] eqn:HC; [|done].
    inversion Hp; subst. clear Hp. exists logC. split; [done|]. split.
    { cbn [app]. by rewrite <- app_assoc. }
    split; [right; by eapply Correct_calls|]. done.
  - inversion Hp; subst. clear Hp. exists [EvSetErase cur]. split; [done|]. split.
    { cbn [app]. by rewrite <- app_assoc. }
    split; [by left|]. done.
Qed.

Lemma process_DBAdd denv cenv st w st' w' log cur rest :
  keyFrameQueue_ st = cur :: rest ->
  process denv cenv st w = Some (st', w', log) ->
  filter (fun e => is_DBAdd e = true) log = [EvDBAdd cur].
Proof.
  intros Hq Hp.
  destruct (process_calls _ _ _ _ _ _ _ _ _ Hq Hp) as (o & after & HD & -> & Haft & _).
  destruct (Detect_calls _ _ _ _ _ _ _ HD) as (guards & Hlog & Hg).
  assert (H1 : filter (fun e => is_DBAdd e = true) (o_log o) = []).
  { apply filter_nil_Forall.
    destruct Hlog as [->| ->]; [done|]. apply Forall_cons. split; [done|].
    eapply Forall_impl; [exact Hg|]. intros e He. by destruct e. }
  assert (H2 : filter (fun e => is_DBAdd e = true) after = []).
  { apply filter_nil_Forall. destruct Haft as [->|Haft]; [by repeat constructor|].
    eapply Forall_impl; [exact Haft|]. intros e He. by destruct e. }
  rewrite filter_cons, decide_False by done.
  rewrite filter_app, H1, filter_cons, decide_True by done. by rewrite H2.
Qed.

(** X9: one turn of the main loop on a non-empty queue takes the keyframe
    at the front and nothing else from the queue, and leaves the reset and
    finish flags alone.  Its first call pins that keyframe with
    [SetNotErase]; it adds that keyframe to the database exactly once and
    adds no other keyframe; the database is never queried after the
    insertion, so a keyframe is not matched against itself through the
    turn that inserts it.  [lastLoopKFId_] stays or becomes the id of the
    keyframe taken. *)
Theorem process_adds_current_keyframe_once
    (denv : LoopDetector.Env) (cenv : LoopCorrector.Env) (st st' : LoopClosingImpl.t)
    (w w' : World) (log : list event) (currentKF : KFptr) (rest : list KFptr) :
  keyFrameQueue_ st = currentKF :: rest ->
  process denv cenv st w = Some (st', w', log) ->
  keyFrameQueue_ st' = rest
  /\ resetRequested_ st' = resetRequested_ st
  /\ finishRequested_ st' = finishRequested_ st /\ finished_ st' = finished_ st
  /\ head log = Some (EvSetNotErase currentKF)
  /\ filter (fun e => is_DBAdd e = true) log = [EvDBAdd currentKF]
  /\ (exists before after,
        log = before ++ EvDBAdd currentKF :: after
        /\ Forall (fun e => is_query e = false) after)
  /\ (lastLoopKFId_ st' = lastLoopKFId_ st
      \/ lastLoopKFId_ st' = kf_id (kfs w' currentKF)).
Proof.
  intros Hq Hp.
  pose proof (process_DBAdd _ _ _ _ _ _ _ _ _ Hq Hp) as Hadd.
  destruct (process_calls _ _ _ _ _ _ _ _ _ Hq Hp)
    as (o & after & HD & Hlog & Haft & Hrest & Hfr & Hfin & Hres & _).
  do 4 (split; [done|]). split; [by rewrite Hlog|]. split; [done|]. split.
  - exists (EvSetNotErase currentKF :: o_log o), after. split; [by rewrite Hlog|].
    destruct Haft as [->|Haft]; [by repeat constructor|].
    eapply Forall_impl; [exact Haft|]. intros e He. by destruct e.
  - unfold process in Hp. rewrite Hq, HD in Hp. destruct (o_found o).
    + destruct (LoopCorrector.Correct _ _ _ _ _ _) as [[[g1 w1] logC]|]; [|done].
      inversion Hp; subst. by right.
    + inversion Hp; subst. by left.
Qed.

(** X10: when the candidates pass the consistency check but
    [FindLoopInCandidateKFs] finds no transform, the turn releases the
    current keyframe twice, once in [Detect] and once in [Run], against the
    one [SetNotErase] of [Run]: its calls leave the cull guard of the
    current keyframe at minus one and every other guard balanced; the map
    and [lastLoopKFId_] are unchanged. *)
Theorem failed_Sim3_stage_releases_current_twice
    (denv : LoopDetector.Env) (cenv : LoopCorrector.Env) (st : LoopClosingImpl.t)
    (w : World) (currentKF : KFptr) (rest : list KFptr) (l : Loop) :
  let tmp := DetectLoopCandidates denv currentKF (minScore denv w currentKF) in
  let cands := candidateKFs (check_consistency (detector_ st)
                               (fun k => kf_connected (kfs w k)) tmp) in
  keyFrameQueue_ st = currentKF :: rest ->
  (Int.to_int (kf_id (kfs w currentKF)) <? Int.add (Int.to_int (lastLoopKFId_ st)) 10)
    = false ->
  cands <> [] ->
  (FindLoopInCandidateKFs denv w currentKF cands Loop_fresh (fixScale_ (detector_ st))).1
    = Some (false, l) ->
  exists st' log,
    process denv cenv st w = Some (st', w, log)
    /\ length (filter (fun e => e = EvSetNotErase currentKF) log)
       = S (length (filter (fun k => k = currentKF) cands))
    /\ length (filter (fun e => e = EvSetErase currentKF) log)
       = S (S (length (filter (fun k => k = currentKF) cands)))
    /\ holds log currentKF = -1
    /\ (forall X, X <> currentKF -> holds log X = 0)
    /\ lastLoopKFId_ st' = lastLoopKFId_ st
    /\ keyFrameQueue_ st' = rest.
Proof.
  intros tmp cands Hq Hf Hne HF.
  assert (HD : Detect denv (detector_ st) w currentKF Loop_fresh
                 (Int.to_int (lastLoopKFId_ st))
               = Some {| o_found := false; o_loop := l;
                         o_detector := set_prevConsistentGroups
                           (currConsistentGroups
                              (check_consistency (detector_ st)
                                 (fun k => kf_connected (kfs w k)) tmp)) (detector_ st);
                         o_world := w;
                         o_log := [EvDetectLoopCandidates currentKF]
                                  ++ map EvSetNotErase cands ++ map EvSetErase cands
                                  ++ [EvSetErase currentKF] |}).
  { unfold Detect. rewrite Hf. fold tmp.
    destruct tmp as [|k0 tmp0] eqn:Etmp.
    { exfalso. apply Hne. subst cands. apply check_consistency_nil. }
    fold cands. destruct cands as [|c0 cands0] eqn:Ecands; [done|].
    pose proof (FindLoopInCandidateKFs_log denv w currentKF (c0 :: cands0) Loop_fresh
                  (fixScale_ (detector_ st))) as Hl.
    destruct (FindLoopInCandidateKFs denv w currentKF (c0 :: cands0) Loop_fresh
                (fixScale_ (detector_ st))) as [r log1].
    cbn [fst snd] in HF, Hl. subst r log1. reflexivity. }
  unfold process. rewrite Hq, HD. cbn [o_found o_log o_world o_detector].
  eexists _, _. split; [reflexivity|].
  assert (Hn : length (filter (fun e => e = EvSetNotErase currentKF)
                 (([EvSetNotErase currentKF]
                   ++ ([EvDetectLoopCandidates currentKF] ++ map EvSetNotErase cands
                       ++ map EvSetErase cands ++ [EvSetErase currentKF])
                   ++ [EvDBAdd currentKF]) ++ [EvSetErase currentKF]))
               = S (length (filter (fun k => k = currentKF) cands))).
  { rewrite !filter_app, !length_app, filter_map_SetNotErase, filter_map_SetErase.
    rewrite (filter_length_ext (fun k => EvSetNotErase k = EvSetNotErase currentKF)
               (fun k => k = currentKF)) by (intros k; split; congruence).
    rewrite (filter_length_none (fun k => EvSetErase k = EvSetNotErase currentKF))
      by (intros k; discriminate).
    rewrite !filter_cons, !filter_nil.
    rewrite decide_True by done. rewrite !decide_False by discriminate. simpl. lia. }
  assert (He : length (filter (fun e => e = EvSetErase currentKF)
                 (([EvSetNotErase currentKF]
                   ++ ([EvDetectLoopCandidates currentKF] ++ map EvSetNotErase cands
                       ++ map EvSetErase cands ++ [EvSetErase currentKF])
                   ++ [EvDBAdd currentKF]) ++ [EvSetErase currentKF]))
               = S (S (length (filter (fun k => k = currentKF) cands)))).
  { rewrite !filter_app, !length_app, filter_map_SetNotErase, filter_map_SetErase.
    rewrite (filter_length_ext (fun k => EvSetErase k = EvSetErase currentKF)
               (fun k => k = currentKF)) by (intros k; split; congruence).
    rewrite (filter_length_none (fun k => EvSetNotErase k = EvSetErase currentKF))
      by (intros k; discriminate).
    rewrite !filter_cons, !filter_nil.
    rewrite !(decide_True (P := EvSetErase currentKF = EvSetErase currentKF)) by done.
    rewrite !decide_False by discriminate. simpl. lia. }
  split; [exact Hn|]. split; [exact He|]. split.
  { unfold holds. rewrite Hn, He. lia. }
  split; [|done].
  intros X HX. holds_split.
  rewrite holds_SetNotErase, holds_SetErase.
  rewrite !holds_single_other by congruence. lia.
Qed.

End ProcessFacts.

(** ** The queue and the end of the main loop *)

Section MainLoopFacts.
Context {G : Geometry}.
Import LoopClosingImpl.

Lemma process_flags denv cenv st w st' w' log :
  process denv cenv st w = Some (st', w', log) ->
  finishRequested_ st' = finishRequested_ st /\ finished_ st' = finished_ st.
Proof.
  unfold process. destruct (keyFrameQueue_ st) as [|cur rest].
  { intros H. by inversion H. }
  destruct (LoopDetector.Detect _ _ _ _ _ _) as [o|]; [|done].
  destruct (LoopDetector.o_found o).
  - destruct (LoopCorrector.Correct _ _ _ _ _ _) as [[[g w1] logC]|]; [|done].
    intros H. by inversion H.
  - intros H. by inversion H.
Qed.

Lemma process_queue denv cenv st w st' w' log :
  process denv cenv st w = Some (st', w', log) ->
  (keyFrameQueue_ st = [] /\ keyFrameQueue_ st' = [] /\ log = [])
  \/ exists cur,
       keyFrameQueue_ st = cur :: keyFrameQueue_ st'
       /\ filter (fun e => is_DBAdd e = true) log = [EvDBAdd cur].
Proof.
  intros Hp. destruct (keyFrameQueue_ st) as [|cur rest] eqn:Hq.
  - left. unfold process in Hp. rewrite Hq in Hp. inversion Hp; subst; done.
  - right. exists cur.
    destruct (process_calls _ _ _ _ _ _ _ _ _ Hq Hp) as (o & after & _ & _ & _ & Hr & _).
    split; [by rewrite Hr|]. by eapply process_DBAdd.
Qed.

(** X11: along any run of the loop closer and the threads around it, the
    keyframes added to the database are taken from the queue in order:
    listed in the order of their insertion into the database and followed
    by the queue that is left, they form a subsequence of the initial queue
    followed by the keyframes handed to [InsertKeyFrame].  So no keyframe
    is processed that was not inserted, none is processed twice for one
    insertion, and none overtakes another; keyframes may only be dropped. *)
Theorem keyframes_are_processed_in_insertion_order (s s' : system) (tr : list label) :
  steps s tr = Some s' ->
  exists processed,
    filter (fun e => is_DBAdd e = true) (calls s')
    = filter (fun e => is_DBAdd e = true) (calls s) ++ map EvDBAdd processed
    /\ (processed ++ keyFrameQueue_ (impl s'))
         `sublist_of` (keyFrameQueue_ (impl s) ++ insertions tr).
Proof.
  revert s. induction tr as [|l tr IH]; intros s Hs.
  - simpl in Hs. inversion Hs; subst. exists []. simpl. by rewrite !app_nil_r.
  - cbn [steps] in Hs. destruct (step s l) as [s1|] eqn:Hl; [|done].
    destruct (IH s1 Hs) as (processed & Hc & Hsub).
    assert (Hsame : calls s1 = calls s -> keyFrameQueue_ (impl s1) ++ insertions tr
                      `sublist_of` keyFrameQueue_ (impl s) ++ insertions (l :: tr) ->
            exists processed0,
              filter (fun e => is_DBAdd e = true) (calls s')
              = filter (fun e => is_DBAdd e = true) (calls s) ++ map EvDBAdd processed0
              /\ (processed0 ++ keyFrameQueue_ (impl s'))
                   `sublist_of` (keyFrameQueue_ (impl s) ++ insertions (l :: tr))).
    { intros Hcalls Hq. exists processed. rewrite <- Hcalls. split; [done|].
      by etrans. }
    destruct l; simpl in Hl.
    + inversion Hl; subst s1. apply Hsame; [done|]. simpl.
      unfold InsertKeyFrame. destruct (negb _); simpl.
      * by rewrite <- app_assoc.
      * apply sublist_app; [done|]. by apply sublist_cons.
    + destruct (main s); try done.
      destruct (process denv cenv (impl s) (shared_map s)) as [[[st w] log]|] eqn:E;
        [|done].
      inversion Hl; subst s1. simpl in *.
      destruct (process_queue _ _ _ _ _ _ _ E) as [(Hq & Hq' & ->)|(cur & Hq & Hadd)].
      * exists processed. rewrite app_nil_r in Hc. split; [done|].
        by rewrite Hq, <- Hq'.
      * exists (cur :: processed). rewrite filter_app, Hadd, <- app_assoc in Hc.
        split; [done|]. rewrite Hq. simpl. by apply sublist_skip.
    + destruct (main s); try done. inversion Hl; subst s1. apply Hsame; [done|].
      simpl. unfold ResetIfRequested. destruct (resetRequested_ (impl s)); simpl.
      * apply sublist_inserts_l. done.
      * done.
    + destruct (main s); try done.
      destruct (CheckFinish (impl s)); inversion Hl; subst s1; by apply Hsame.
    + inversion Hl; subst s1. by apply Hsame.
    + destruct (requester s); try done. inversion Hl; subst s1. by apply Hsame.
    + destruct (requester s); try done.
      destruct (negb _); inversion Hl; subst s1; by apply Hsame.
    + inversion Hl; subst s1. by apply Hsame.
Qed.

Lemma step_finishRequested s l s1 :
  step s l = Some s1 ->
  finishRequested_ (impl s1) = true ->
  finishRequested_ (impl s) = true \/ l = LRequestFinish.
Proof.
  intros Hl H1. destruct l; simpl in Hl.
  - inversion Hl; subst s1. simpl in H1. unfold InsertKeyFrame in H1.
    destruct (negb _); by left.
  - destruct (main s); try done.
    destruct (process denv cenv (impl s) (shared_map s)) as [[[st w] log]|] eqn:E;
      [|done].
    inversion Hl; subst s1. simpl in H1.
    destruct (process_flags _ _ _ _ _ _ _ E) as [Hf _]. left. congruence.
  - destruct (main s); try done. inversion Hl; subst s1. simpl in H1.
    unfold ResetIfRequested in H1. destruct (resetRequested_ (impl s)); by left.
  - destruct (main s); try done.
    destruct (CheckFinish (impl s)); inversion Hl; subst s1; by left.
  - by right.
  - destruct (requester s); try done. inversion Hl; subst s1. by left.
  - destruct (requester s); try done.
    destruct (negb _); inversion Hl; subst s1; by left.
  - inversion Hl; subst s1. by left.
Qed.

(** Once the main loop has left, it stays out, nothing more is called and
    the finish flags stay. *)
Lemma step_after_exit s l s1 :
  step s l = Some s1 -> main s = Exited ->
  main s1 = Exited /\ calls s1 = calls s
  /\ finished_ (impl s1) = finished_ (impl s)
  /\ (finishRequested_ (impl s) = true -> finishRequested_ (impl s1) = true)
  /\ ((requester s = ResetIdle
       \/ (requester s = ResetWaiting /\ resetRequested_ (impl s) = true)) ->
      (requester s1 = ResetIdle
       \/ (requester s1 = ResetWaiting /\ resetRequested_ (impl s1) = true))).
Proof.
  intros Hl Hm. destruct l; simpl in Hl; rewrite ?Hm in Hl; try done.
  - inversion Hl; subst s1. simpl. unfold InsertKeyFrame. by destruct (negb _).
  - inversion Hl; subst s1. simpl. done.
  - destruct (requester s) eqn:Hr; try done. inversion Hl; subst s1. simpl.
    do 4 (split; [done|]). intros _. by right.
  - destruct (requester s) eqn:Hr; try done.
    destruct (resetRequested_ (impl s)) eqn:Hf; simpl in Hl; inversion Hl; subst s1.
    + rewrite Hr, Hf. done.
    + simpl. do 4 (split; [done|]). intros [?|[_ ?]]; done.
  - inversion Hl; subst s1. simpl. done.
Qed.

Lemma steps_after_exit tr s s' :
  steps s tr = Some s' -> main s = Exited ->
  main s' = Exited /\ calls s' = calls s
  /\ finished_ (impl s') = finished_ (impl s)
  /\ (finishRequested_ (impl s) = true -> finishRequested_ (impl s') = true)
  /\ ((requester s = ResetIdle
       \/ (requester s = ResetWaiting /\ resetRequested_ (impl s) = true)) ->
      (requester s' = ResetIdle
       \/ (requester s' = ResetWaiting /\ resetRequested_ (impl s') = true))).
Proof.
  revert s. induction tr as [|l tr IH]; intros s Hs Hm.
  - inversion Hs; subst. done.
  - cbn [steps] in Hs. destruct (step s l) as [s1|] eqn:Hl; [|done].
    destruct (step_after_exit _ _ _ Hl Hm) as (H1 & H2 & H3 & H4 & H5).
    destruct (IH s1 Hs H1) as (I1 & I2 & I3 & I4 & I5).
    split; [done|]. split; [congruence|]. split; [congruence|]. split; auto.
Qed.

(** X12: the main loop leaves [while (true)] only through [CheckFinish]:
    if a run takes it from inside the loop to after [SetFinish], then
    [RequestFinish] was called during the run or the flag was already set,
    and at the end [finished_] and [finishRequested_] are both true. *)
Theorem main_loop_leaves_only_on_request (s s' : system) (tr : list label) :
  steps s tr = Some s' ->
  main s <> Exited -> main s' = Exited ->
  (finishRequested_ (impl s) = true \/ LRequestFinish ∈ tr)
  /\ finishRequested_ (impl s') = true /\ finished_ (impl s') = true.
Proof.
  revert s. induction tr as [|l tr IH]; intros s Hs Hin Hout.
  - inversion Hs; subst. done.
  - cbn [steps] in Hs. destruct (step s l) as [s1|] eqn:Hl; [|done].
    assert (Hdec : main s1 = Exited \/ main s1 <> Exited)
      by (destruct (main s1); auto; right; discriminate).
    destruct Hdec as [Hm1|Hm1].
    + assert (Hnow : finishRequested_ (impl s) = true
                     /\ finishRequested_ (impl s1) = true
                     /\ finished_ (impl s1) = true).
      { destruct l; simpl in Hl.
        - inversion Hl; subst s1. done.
        - destruct (main s); try done.
          destruct (process _ _ _ _) as [[[st w] log]|]; [|done].
          inversion Hl; subst s1. done.
        - destruct (main s); try done. inversion Hl; subst s1. done.
        - destruct (main s); try done. unfold CheckFinish in Hl.
          destruct (finishRequested_ (impl s)) eqn:Hf; inversion Hl; subst s1; done.
        - inversion Hl; subst s1. done.
        - destruct (requester s); try done. inversion Hl; subst s1. done.
        - destruct (requester s); try done.
          destruct (negb _); inversion Hl; subst s1; done.
        - inversion Hl; subst s1. done. }
      destruct Hnow as (H0 & H1 & H2).
      destruct (steps_after_exit _ _ _ Hs Hm1) as (_ & _ & I3 & I4 & _).
      split; [by left|]. split; [by apply I4|]. congruence.
    + destruct (IH s1 Hs Hm1 Hout) as ([Hf|Hf] & I2 & I3).
      * split; [|done].
        destruct (step_finishRequested _ _ _ Hl Hf) as [?| ->]; [by left|].
        right. apply list_elem_of_here.
      * split; [|done]. right. by apply list_elem_of_further.
Qed.

Lemma waiting_after_exit tr s s' :
  steps s tr = Some s' -> main s = Exited ->
  requester s = ResetWaiting -> resetRequested_ (impl s) = true ->
  requester s' = ResetWaiting /\ resetRequested_ (impl s') = true.
Proof.
  revert s. induction tr as [|l tr IH]; intros s Hs Hm Hw Hf.
  - inversion Hs; subst. done.
  - cbn [steps] in Hs. destruct (step s l) as [s1|] eqn:Hl; [|done].
    destruct (step_after_exit _ _ _ Hl Hm) as (H1 & _).
    assert (Hne : l <> LResetIfRequested).
    { intros ->. simpl in Hl. by rewrite Hm in Hl. }
    destruct (step_keeps_waiting _ _ _ Hl Hne Hw Hf) as [Hw1 Hf1].
    by apply (IH s1).
Qed.

(** X13: once the main loop has left, a call of [RequestReset] never
    returns: whatever the other threads do, the caller stays in its
    polling loop, because [ResetIfRequested] is not run any more; nothing
    more is added to the call log either. *)
Theorem RequestReset_after_exit_never_returns (s s' : system) (tr : list label) :
  main s = Exited -> requester s = ResetIdle ->
  steps s tr = Some s' ->
  requester s' <> ResetReturned /\ main s' = Exited /\ calls s' = calls s
  /\ (LRequestResetSet ∈ tr ->
      requester s' = ResetWaiting /\ resetRequested_ (impl s') = true).
Proof.
  intros Hm Hr Hs.
  destruct (steps_after_exit _ _ _ Hs Hm) as (I1 & I2 & _ & _ & I5).
  split.
  { destruct (I5 (or_introl Hr)) as [E|[E _]]; rewrite E; discriminate. }
  do 2 (split; [done|]).
  clear I1 I2 I5. revert s Hm Hr Hs. induction tr as [|l tr IH]; intros s Hm Hr Hs Hin.
  { by apply elem_of_nil in Hin. }
  cbn [steps] in Hs. destruct (step s l) as [s1|] eqn:Hl; [|done].
  destruct (step_after_exit _ _ _ Hl Hm) as (H1 & _ & _ & _ & H5).
  destruct (H5 (or_introl Hr)) as [Hidle|[Hw Hf]].
  - apply (IH s1 H1 Hidle Hs).
    apply elem_of_cons in Hin as [<-|Hin]; [|done].
    simpl in Hl. rewrite Hr in Hl. inversion Hl; subst s1. done.
  - exact (waiting_after_exit tr s1 s' Hs H1 Hw Hf).
Qed.

End MainLoopFacts.

Section MainLoopMoreRuns.
Import LoopDetector LoopClosingImpl Symbolic.

(** Keyframes 20 and 21 are queued; the turn closes a loop on keyframe 20. *)
Lemma process_adds_current_keyframe_once_witness :
  exists st' w' log,
    process (Example.env true 40) Example.cenv (Example.closer [20%nat; 21%nat])
      Example.world = Some (st', w', log)
    /\ keyFrameQueue_ st' = [21%nat]
    /\ filter (fun e => is_DBAdd e = true) log = [EvDBAdd 20%nat].
Proof.
  destruct (process (Example.env true 40) Example.cenv
              (Example.closer [20%nat; 21%nat]) Example.world)
    as [[[st' w'] log]|] eqn:E; [|vm_compute in E; discriminate].
  exists st', w', log. split; [reflexivity|].
  pose proof (process_adds_current_keyframe_once (Example.env true 40) Example.cenv
                (Example.closer [20%nat; 21%nat]) st' Example.world w' log
                20%nat [21%nat] eq_refl E) as (H1 & _ & _ & _ & _ & H6 & _).
  split; [exact H1|exact H6].
Defined.

(** Keyframe 1 passes the consistency check; the solver finds nothing. *)
Lemma failed_Sim3_stage_releases_current_twice_witness :
  exists st' log,
    process (Example.env false 0) Example.cenv (Example.closer [20%nat]) Example.world
    = Some (st', Example.world, log)
    /\ holds log 20%nat = -1.
Proof.
  assert (H2 : (Int.to_int (kf_id (kfs Example.world 20%nat))
                <? Int.add (Int.to_int (lastLoopKFId_ (Example.closer [20%nat]))) 10)
               = false) by (vm_compute; reflexivity).
  assert (H3 : candidateKFs
                 (check_consistency (detector_ (Example.closer [20%nat]))
                    (fun k => kf_connected (kfs Example.world k))
                    (DetectLoopCandidates (Example.env false 0) 20%nat
                       (minScore (Example.env false 0) Example.world 20%nat))) <> [])
    by (vm_compute; discriminate).
  assert (H4 : (FindLoopInCandidateKFs (Example.env false 0) Example.world 20%nat
                  (candidateKFs
                     (check_consistency (detector_ (Example.closer [20%nat]))
                        (fun k => kf_connected (kfs Example.world k))
                        (DetectLoopCandidates (Example.env false 0) 20%nat
                           (minScore (Example.env false 0) Example.world 20%nat))))
                  Loop_fresh (fixScale_ (detector_ (Example.closer [20%nat])))).1
               = Some (false, Loop_fresh)) by (vm_compute; reflexivity).
  destruct (failed_Sim3_stage_releases_current_twice (Example.env false 0) Example.cenv
              (Example.closer [20%nat]) Example.world 20%nat [] Loop_fresh
              eq_refl H2 H3 H4) as (st' & log & Hp & _ & _ & Hh & _).
  exists st', log. split; [exact Hp|exact Hh].
Defined.

(** Keyframes 20 and 21 are inserted, keyframe 20 is processed. *)
Lemma keyframes_are_processed_in_insertion_order_witness :
  let s := Example.threads [] AtProcess in
  let tr := [LInsertKeyFrame 20%nat; LInsertKeyFrame 21%nat;
             LProcess (Example.env false 0) Example.cenv; LResetIfRequested] in
  exists s',
    steps s tr = Some s'
    /\ exists processed,
         filter (fun e => is_DBAdd e = true) (calls s')
         = filter (fun e => is_DBAdd e = true) (calls s) ++ map EvDBAdd processed
         /\ (processed ++ keyFrameQueue_ (impl s'))
              `sublist_of` (keyFrameQueue_ (impl s) ++ insertions tr).
Proof.
  intros s tr.
  destruct (steps s tr) as [s'|] eqn:E; [|vm_compute in E; discriminate].
  exists s'. split; [reflexivity|].
  exact (keyframes_are_processed_in_insertion_order s s' tr E).
Defined.

(** The finish is requested while the main loop is about to check it. *)
Lemma main_loop_leaves_only_on_request_witness :
  let s := Example.threads [] AtCheck in
  let tr := [LProcess (Example.env false 0) Example.cenv; LResetIfRequested;
             LRequestFinish; LCheckFinish] in
  main s <> Exited
  /\ exists s',
       steps s (LCheckFinish :: LInsertKeyFrame 20%nat :: tr) = Some s'
       /\ main s' = Exited
       /\ finishRequested_ (impl s') = true /\ finished_ (impl s') = true.
Proof.
  intros s tr.
  assert (H1 : main s <> Exited) by discriminate.
  split; [exact H1|].
  destruct (steps s (LCheckFinish :: LInsertKeyFrame 20%nat :: tr)) as [s'|] eqn:E;
    [|vm_compute in E; discriminate].
  exists s'. split; [reflexivity|].
  assert (H3 : main s' = Exited) by (vm_compute in E; injection E as <-; reflexivity).
  split; [exact H3|].
  exact (proj2 (main_loop_leaves_only_on_request s s' _ E H1 H3)).
Defined.

(** The reset is requested after the main loop has left. *)
Lemma RequestReset_after_exit_never_returns_witness :
  let s := Example.threads [] Exited in
  let tr := [LRequestResetSet; LRequestResetPoll; LInsertKeyFrame 20%nat;
             LRequestResetPoll] in
  main s = Exited /\ requester s = ResetIdle
  /\ exists s', steps s tr = Some s' /\ requester s' = ResetWaiting.
Proof.
  intros s tr.
  assert (H1 : main s = Exited) by reflexivity.
  assert (H2 : requester s = ResetIdle) by reflexivity.
  split; [exact H1|]. split; [exact H2|].
  destruct (steps s tr) as [s'|] eqn:E; [|vm_compute in E; discriminate].
  exists s'. split; [reflexivity|].
  refine (proj1 (proj2 (proj2 (proj2
    (RequestReset_after_exit_never_returns s s' tr H1 H2 E))) _)).
  apply list_elem_of_here.
Defined.

End MainLoopMoreRuns.

(** ** The bundle-adjustment task *)

Section GlobalBAMore.
Context {G : Geometry}.
Import GlobalBA.

Lemma keyframes_moved_refl w : keyframes_moved w w.
Proof. by repeat split. Qed.

Lemma keyframes_moved_trans w1 w2 w3 :
  keyframes_moved w1 w2 -> keyframes_moved w2 w3 -> keyframes_moved w1 w3.
Proof.
  intros (A1 & A2 & A3 & A4 & A5) (B1 & B2 & B3 & B4 & B5).
  split; [congruence|]. split; [congruence|]. split; [congruence|].
  split; [congruence|]. intros k.
  destruct (A5 k) as (? & ? & ? & ? & ? & ?), (B5 k) as (? & ? & ? & ? & ? & ?).
  repeat split; congruence.
Qed.

Lemma set_kf_moved w k x :
  kf_id x = kf_id (kfs w k) -> kf_isBad x = kf_isBad (kfs w k) ->
  kf_covisible x = kf_covisible (kfs w k) -> kf_connected x = kf_connected (kfs w k) ->
  kf_children x = kf_children (kfs w k) -> kf_mapPoints x = kf_mapPoints (kfs w k) ->
  keyframes_moved w (set_kf k x w).
Proof.
  intros. unfold keyframes_moved. simpl. do 4 (split; [done|]). intros k'.
  destruct (decide (k' = k)) as [->|Hne].
  - rewrite fn_lookup_insert. done.
  - rewrite fn_lookup_insert_ne by done. done.
Qed.

Lemma correct_child_moved loopKFId keyframe Twc w q child :
  keyframes_moved w (correct_child loopKFId keyframe Twc (w, q) child).1
  /\ (correct_child loopKFId keyframe Twc (w, q) child).2 = q ++ [child].
Proof.
  unfold correct_child. split; [|done]. cbn [fst].
  destruct (negb _); [|apply keyframes_moved_refl]. by apply set_kf_moved.
Qed.

Lemma fold_correct_child_moved loopKFId keyframe Twc children w q :
  keyframes_moved w (fold_left (correct_child loopKFId keyframe Twc) children (w, q)).1
  /\ (fold_left (correct_child loopKFId keyframe Twc) children (w, q)).2 = q ++ children.
Proof.
  revert w q. induction children as [|c children IH]; intros w q; cbn [fold_left].
  - split; [apply keyframes_moved_refl|by rewrite app_nil_r].
  - destruct (correct_child_moved loopKFId keyframe Twc w q c) as [H1 H2].
    destruct (correct_child loopKFId keyframe Twc (w, q) c) as [w1 q1].
    cbn [fst snd] in *. subst q1. destruct (IH w1 (q ++ [c])) as [I1 I2].
    split; [by eapply keyframes_moved_trans|]. by rewrite I2, <- app_assoc.
Qed.

Lemma correct_keyframes_moved fuel loopKFId toCheck w w' :
  correct_keyframes fuel loopKFId toCheck w = Some w' -> keyframes_moved w w'.
Proof.
  revert toCheck w. induction fuel as [|fuel IH]; intros toCheck w H; [done|].
  cbn [correct_keyframes] in H. destruct toCheck as [|keyframe rest].
  { inversion H; subst. apply keyframes_moved_refl. }
  destruct (fold_correct_child_moved loopKFId keyframe
              (pose_inv (kf_pose (kfs w keyframe))) (kf_children (kfs w keyframe))
              w (keyframe :: rest)) as [H1 _].
  destruct (fold_left _ _ _) as [w1 toCheck1]. cbn [fst] in H1.
  eapply keyframes_moved_trans; [exact H1|].
  eapply keyframes_moved_trans; [|exact (IH _ _ H)].
  by apply set_kf_moved.
Qed.

Lemma points_moved_refl w : points_moved w w.
Proof. unfold points_moved. do 4 (split; [done|]). intros p. by left. Qed.

Lemma correct_mappoint_moved loopKFId w0 w p :
  p ∈ allMapPoints w0 -> points_moved w0 w ->
  points_moved w0 (correct_mappoint loopKFId w p).
Proof.
  intros Hp (A1 & A2 & A3 & A4 & A5).
  assert (Hset : forall pos,
            points_moved w0 (set_mp p (SetWorldPos pos (mps w p)) w) \/ mp_isBad (mps w p) = true).
  { intros pos. destruct (mp_isBad (mps w p)) eqn:Eb; [by right|left].
    unfold points_moved. simpl. do 4 (split; [done|]). intros q.
    destruct (decide (q = p)) as [->|Hne].
    - rewrite fn_lookup_insert. right. destruct (A5 p) as [E|(_ & Hb & pos0 & E)].
      + rewrite E in *. split; [done|]. split; [done|]. by exists pos.
      + split; [done|]. split; [done|]. exists pos. rewrite E. done.
    - rewrite fn_lookup_insert_ne by done. apply A5. }
  unfold correct_mappoint.
  destruct (mp_isBad (mps w p)) eqn:Eb; [done|].
  destruct (mp_BAGlobalForKF (mps w p) =? loopKFId).
  { destruct (Hset (mp_posGBA (mps w p))) as [?|?]; [done|congruence]. }
  destruct (negb _); [done|].
  match goal with |- points_moved _ (set_mp _ (SetWorldPos ?pos _) _) =>
    destruct (Hset pos) as [?|?]; [done|congruence] end.
Qed.

Lemma fold_correct_mappoint_moved loopKFId w0 l w :
  (forall p, p ∈ l -> p ∈ allMapPoints w0) -> points_moved w0 w ->
  points_moved w0 (fold_left (correct_mappoint loopKFId) l w).
Proof.
  revert w. induction l as [|p l IH]; intros w Hl Hw; [done|].
  cbn [fold_left]. apply IH.
  - intros q Hq. apply Hl. by apply list_elem_of_further.
  - apply correct_mappoint_moved; [|done]. apply Hl. apply list_elem_of_here.
Qed.

Lemma correct_mappoints_moved loopKFId w : points_moved w (correct_mappoints loopKFId w).
Proof.
  unfold correct_mappoints. apply fold_correct_mappoint_moved; [done|].
  apply points_moved_refl.
Qed.

Lemma count_app (P : event -> bool) (l1 l2 : list event) :
  length (filter (fun e => P e = true) (l1 ++ l2))
  = (length (filter (fun e => P e = true) l1)
     + length (filter (fun e => P e = true) l2))%nat.
Proof. by rewrite filter_app, length_app. Qed.

Lemma do_call_threads g log c :
  let held (g : t) := if thread_ g then 1%nat else 0%nat in
  let r := do_call (g, log) c in
  (length (filter (fun e => is_spawn e = true) r.2) + held g
   + length (filter (fun e => is_detach e = true) log)
   = length (filter (fun e => is_detach e = true) r.2) + held r.1
     + length (filter (fun e => is_spawn e = true) log))%nat
  /\ fullBAIdx_ r.1 = (if is_CStop c then Int.incr (fullBAIdx_ g) else fullBAIdx_ g)
  /\ (thread_ r.1 = negb (is_CStop c)).
Proof.
  cbv zeta. unfold do_call. destruct c as [loopKFId|].
  - unfold Run, Detach. cbn [thread_]. destruct (thread_ g); cbn [fst snd thread_ fullBAIdx_ is_CStop negb];
      rewrite !count_app; simpl; split; [lia|done|lia|done].
  - unfold Stop, Detach. cbn [thread_]. destruct (thread_ g); cbn [fst snd thread_ fullBAIdx_ is_CStop negb];
      rewrite !count_app; simpl; split; [lia|done|lia|done].
Qed.

Lemma fold_do_call_threads cs g log :
  let held (g : t) := if thread_ g then 1%nat else 0%nat in
  let r := fold_left do_call cs (g, log) in
  (length (filter (fun e => is_spawn e = true) r.2) + held g
   + length (filter (fun e => is_detach e = true) log)
   = length (filter (fun e => is_detach e = true) r.2) + held r.1
     + length (filter (fun e => is_spawn e = true) log))%nat.
Proof.
  cbv zeta. revert g log. induction cs as [|c cs IH]; intros g log; cbn [fold_left].
  - simpl. lia.
  - pose proof (do_call_threads g log c) as (H1 & _). cbv zeta in H1.
    destruct (do_call (g, log) c) as [g1 log1]. cbn [fst snd] in *.
    specialize (IH g1 log1). lia.
Qed.

(** X16: the thread handle of the task is never leaked.  Over any
    sequence of [Run] and [Stop] calls, every thread started is detached
    before the next one is started or when the task is stopped: the threads
    started, plus one if a thread was held at the start, are the threads
    detached, plus one if a thread is held at the end.  After [Run] a
    thread is held, after [Stop] none. *)
Theorem threads_started_are_detached (cs : list call) (g : t) :
  let held (g : t) := if thread_ g then 1%nat else 0%nat in
  let r := do_calls cs g in
  (length (filter (fun e => is_spawn e = true) r.2) + held g
   = length (filter (fun e => is_detach e = true) r.2) + held r.1)%nat
  /\ (forall cs' c, cs = cs' ++ [c] -> thread_ r.1 = negb (is_CStop c)).
Proof.
  cbv zeta. split.
  - pose proof (fold_do_call_threads cs g []) as H. cbv zeta in H.
    unfold do_calls. simpl in H. lia.
  - intros cs' c ->. unfold do_calls. rewrite fold_left_app. cbn [fold_left].
    destruct (fold_left do_call cs' (g, [])) as [g1 log1].
    by pose proof (do_call_threads g1 log1 c) as (_ & _ & H).
Qed.

End GlobalBAMore.

(** ** The corrector: its calls, its maps, the poses it writes *)

Section CorrectorMore.
Context {G : Geometry}.
Import LoopCorrector.

Abbreviation pass_only := (Forall (fun e => by_pass e = true)).

Lemma fold_correct_point_pass cid nid c slots w log :
  pass_only log -> pass_only (fold_left (correct_point cid nid c) slots (w, log)).2.
Proof.
  revert w log. induction slots as [|m slots IH]; intros w log H; [done|].
  cbn [fold_left]. destruct m as [p|]; [|by apply IH].
  unfold correct_point at 2. destruct (_ || _); [by apply IH|].
  apply IH. apply Forall_app. split; [done|]. by apply Forall_singleton.
Qed.

Lemma fold_correct_keyframe_pass env cur es w NC log :
  pass_only log -> pass_only (fold_left (correct_keyframe env cur) es (w, NC, log)).2.
Proof.
  revert w NC log. induction es as [|[N S] es IH]; intros w NC log H; [done|].
  cbn [fold_left]. rewrite correct_keyframe_unfold. cbv zeta.
  apply IH. by apply fold_correct_point_pass.
Qed.

Lemma fold_fuse_slot_pass env cur l acc :
  pass_only acc.2 -> pass_only (fold_left (fuse_slot env cur) l acc).2.
Proof.
  revert acc. induction l as [|[i m] l IH]; intros [w log] H; [done|].
  cbn [fold_left]. apply IH. unfold fuse_slot. destruct m as [loopMP|]; [|done].
  destruct (mjoin _); [done|]. simpl. apply Forall_app. split; [done|].
  by repeat constructor.
Qed.

(** X17: the calls of [Correct], in order.  It asks the local mapper to
    stop, aborts a running bundle adjustment (detaching its thread if one
    is held), waits for the local mapper, makes only map-point calls while
    it corrects and fuses, adds the loop edge in both directions, starts
    one new bundle-adjustment thread for the id of the current keyframe
    (detaching a held thread of a task that was not running), and releases
    the local mapper last.  It leaves the task running, not finished, not
    stopped, holding a thread; [fullBAIdx_] is bumped exactly when a
    running task was aborted. *)
Theorem Correct_call_sequence (env : Env) (fixScale : bool) (currentKF : KFptr)
    (loop : LoopDetector.Loop) (g g' : GlobalBA.t) (w w' : World) (log : list event) :
  Correct env fixScale currentKF loop g w = Some (g', w', log) ->
  exists matchedKF pass,
    LoopDetector.matchedKF loop = Some matchedKF
    /\ pass_only pass
    /\ log = [EvRequestStop]
             ++ (if GlobalBA.Running g && GlobalBA.thread_ g then [EvThreadDetach] else [])
             ++ [EvWaitStopped] ++ pass
             ++ [EvAddLoopEdge matchedKF currentKF; EvAddLoopEdge currentKF matchedKF]
             ++ (if negb (GlobalBA.Running g) && GlobalBA.thread_ g
                 then [EvThreadDetach] else [])
             ++ [EvThreadSpawn (kf_id (kfs w' currentKF)); EvRelease]
    /\ GlobalBA.running_ g' = true /\ GlobalBA.finished_ g' = false
    /\ GlobalBA.stop_ g' = false /\ GlobalBA.thread_ g' = true
    /\ GlobalBA.fullBAIdx_ g'
       = (if GlobalBA.Running g then Int.incr (GlobalBA.fullBAIdx_ g)
          else GlobalBA.fullBAIdx_ g).
Proof.
  unfold Correct. destruct (LoopDetector.matchedKF loop) as [m|]; [|done].
  destruct (propagate _ _ _ _) as [C NC].
  pose proof (fold_correct_keyframe_pass env currentKF C
                (UpdateConnections (links env) currentKF w) NC [] (Forall_nil_2 _)) as H1.
  unfold correct_map_points.
  destruct (fold_left (correct_keyframe env currentKF) _ _) as [[w1 NC'] log1].
  pose proof (fold_fuse_slot_pass env currentKF
                (imap pair (LoopDetector.matchedPoints loop)) (w1, log1) H1) as H2.
  destruct (fold_left (fuse_slot env currentKF) _ _) as [w2 log2].
  destruct (fold_left (connections_step env _) _ _) as [w4 lc].
  cbn [snd] in H2.
  unfold GlobalBA.Running, GlobalBA.Stop, GlobalBA.Run, GlobalBA.Detach.
  cbn [GlobalBA.thread_ GlobalBA.running_].
  destruct (GlobalBA.running_ g) eqn:Er, (GlobalBA.thread_ g) eqn:Et;
    cbn [GlobalBA.thread_ GlobalBA.running_ andb negb];
    intros H; inversion H; subst; clear H;
    exists m, log2; (split; [done|]); (split; [done|]); (split; [|done]);
    cbn [app]; rewrite <- ?app_assoc; reflexivity.
Qed.

Lemma find_elem {V} (k : KFptr) (v : V) m : SMap.find k m = Some v -> (k, v) ∈ m.
Proof.
  induction m as [|[k' v'] m IH]; [done|]. simpl.
  destruct (k =? k')%nat eqn:E.
  - intros H. inversion H; subst. apply Nat.eqb_eq in E. subst.
    apply list_elem_of_here.
  - intros H. apply list_elem_of_further. by apply IH.
Qed.

Lemma find_None_keys {V} (k : KFptr) (m : list (KFptr * V)) :
  SMap.find k m = None -> k ∉ keys m.
Proof.
  unfold keys. induction m as [|[k' v'] m IH]; simpl.
  - intros _ H. by apply elem_of_nil in H.
  - destruct (k =? k')%nat eqn:E; [done|]. apply Nat.eqb_neq in E.
    intros Hf Hin. apply elem_of_cons in Hin as [?|?]; [done|]. by apply IH.
Qed.

Lemma assign_keys {V} (k : KFptr) (v : V) m x :
  x ∈ keys (SMap.assign k v m) <-> x = k \/ x ∈ keys m.
Proof.
  unfold keys. induction m as [|[k0 v0] m IH]; simpl.
  - rewrite list_elem_of_singleton. split; [by left|].
    intros [?|H]; [done|]. by apply elem_of_nil in H.
  - destruct (k <? k0)%nat; [|destruct (k =? k0)%nat eqn:E].
    + simpl. by rewrite !elem_of_cons.
    + apply Nat.eqb_eq in E. subst k0. simpl. rewrite !elem_of_cons. tauto.
    + simpl. rewrite !elem_of_cons, IH. tauto.
Qed.

Lemma assign_sorted {V} (k : KFptr) (v : V) m :
  StronglySorted lt (keys m) -> StronglySorted lt (keys (SMap.assign k v m)).
Proof.
  unfold keys. induction m as [|[k0 v0] m IH]; simpl; intros Hs.
  - by repeat constructor.
  - apply StronglySorted_inv in Hs as [Hs Hall].
    destruct (k <? k0)%nat eqn:E1; [|destruct (k =? k0)%nat eqn:E2].
    + apply Nat.ltb_lt in E1. simpl. constructor.
      * by constructor.
      * constructor; [done|]. eapply List.Forall_impl; [|exact Hall].
        intros a Ha. simpl in Ha. lia.
    + apply Nat.eqb_eq in E2. subst k0. simpl. by constructor.
    + apply Nat.ltb_ge in E1. apply Nat.eqb_neq in E2. simpl. constructor; [by apply IH|].
      apply List.Forall_forall. intros a Ha. apply list_elem_of_In in Ha.
      apply (assign_keys k v m a) in Ha as [->|Ha]; [lia|].
      rewrite List.Forall_forall in Hall. apply Hall. by apply list_elem_of_In.
Qed.

Lemma sorted_NoDup (l : list KFptr) : StronglySorted lt l -> NoDup l.
Proof.
  induction 1 as [|a l Hs IH Hall]; [constructor|]. constructor; [|done].
  intros Hin. rewrite List.Forall_forall in Hall.
  apply list_elem_of_In in Hin. specialize (Hall a Hin). lia.
Qed.

Lemma propagate_fold_sorted w C Twc Scw l c n :
  StronglySorted lt (keys c) -> StronglySorted lt (keys n) ->
  let r := fold_left (propagate_step w C Twc Scw) l (c, n) in
  StronglySorted lt (keys r.1) /\ StronglySorted lt (keys r.2)
  /\ (forall x, x ∈ keys r.1 <-> (x ∈ l /\ x <> C) \/ x ∈ keys c)
  /\ (forall x, x ∈ keys r.2 <-> x ∈ l \/ x ∈ keys n).
Proof.
  cbv zeta. revert c n. induction l as [|k l IH]; intros c n Hc Hn; cbn [fold_left].
  - split; [done|]. split; [done|]. split; intros x; split; auto.
    + intros [[H _]|?]; [by apply elem_of_nil in H|done].
    + intros [H|?]; [by apply elem_of_nil in H|done].
  - unfold propagate_step at 2 4 6 8.
    destruct (decide (k ≠ C)) as [Hk|Hk].
    + destruct (IH (SMap.assign k (sim3_mul (sim3_of_pose (pose_mul (kf_pose (kfs w k)) Twc)) Scw) c)
                   (SMap.assign k (sim3_of_pose (kf_pose (kfs w k))) n))
        as (I1 & I2 & I3 & I4); [by apply assign_sorted|by apply assign_sorted|].
      split; [done|]. split; [done|]. split; intros x.
      * rewrite I3, assign_keys, elem_of_cons. split; [|intros [[[->|?] ?]|?]; auto].
        intros [[? ?]|[->|?]]; auto.
      * rewrite I4, assign_keys, elem_of_cons. tauto.
    + destruct (IH c (SMap.assign k (sim3_of_pose (kf_pose (kfs w k))) n))
        as (I1 & I2 & I3 & I4); [done|by apply assign_sorted|].
      split; [done|]. split; [done|]. split; intros x.
      * rewrite I3, elem_of_cons. split; [intros [[? ?]|?]; auto|].
        intros [[[->|?] ?]|?]; auto. done.
      * rewrite I4, assign_keys, elem_of_cons. tauto.
Qed.

Lemma propagate_maps_sorted w currentKF Scw :
  let connectedKFs := kf_covisible (kfs w currentKF) ++ [currentKF] in
  let maps := propagate w currentKF Scw connectedKFs in
  StronglySorted lt (keys maps.1) /\ StronglySorted lt (keys maps.2)
  /\ (forall k, k ∈ keys maps.1 <-> k ∈ connectedKFs)
  /\ (forall k, k ∈ keys maps.2 <-> k ∈ connectedKFs).
Proof.
  cbv zeta. unfold propagate.
  edestruct (propagate_fold_sorted w currentKF (pose_inv (kf_pose (kfs w currentKF))) Scw
               (kf_covisible (kfs w currentKF) ++ [currentKF])
               (SMap.assign currentKF Scw []) [])
    as (I1 & I2 & I3 & I4); [by repeat constructor|constructor|].
  split; [done|]. split; [done|]. split; intros k.
  - rewrite I3. simpl. rewrite list_elem_of_singleton, elem_of_app, list_elem_of_singleton.
    destruct (decide (k = currentKF)); tauto.
  - rewrite I4. simpl. split; [intros [?|H]; [done|by apply elem_of_nil in H]|by left].
Qed.

(** X18: the two maps that [Correct] fills are iterated in strictly
    increasing order of the keyframe pointer, so each keyframe has one
    entry even when the covisibility list names it twice.  The keys of
    [CorrectedSim3] are the current keyframe and its connected keyframes;
    the keys of [NonCorrectedSim3] are the connected keyframes with the
    current one. *)
Theorem propagate_keys (w : World) (currentKF : KFptr) (Scw : Sim3) :
  let connectedKFs := kf_covisible (kfs w currentKF) ++ [currentKF] in
  let maps := propagate w currentKF Scw connectedKFs in
  StronglySorted lt (keys maps.1) /\ StronglySorted lt (keys maps.2)
  /\ NoDup (keys maps.1) /\ NoDup (keys maps.2)
  /\ (forall k, k ∈ keys maps.1 <-> k ∈ connectedKFs)
  /\ (forall k, k ∈ keys maps.2 <-> k ∈ connectedKFs)
  /\ (forall k, is_Some (SMap.find k maps.1) <-> k ∈ connectedKFs).
Proof.
  intros connectedKFs maps.
  destruct (propagate_maps_sorted w currentKF Scw) as (I1 & I2 & I3 & I4).
  fold connectedKFs in I3, I4. fold maps in I1, I2, I3, I4.
  split; [done|]. split; [done|]. split; [by apply sorted_NoDup|].
  split; [by apply sorted_NoDup|]. split; [done|]. split; [done|].
  intros k. rewrite <- I3. split.
  - intros [S HS]. apply find_elem in HS. unfold keys.
    apply list_elem_of_fmap. by exists (k, S).
  - intros Hk. destruct (SMap.find k maps.1) as [S|] eqn:Ef; [by eexists|].
    exfalso. by apply (find_None_keys k maps.1).
Qed.

Lemma correct_keyframe_pose env cur w NC log N S k :
  kf_pose (kfs (correct_keyframe env cur (w, NC, log) (N, S)).1.1 k)
  = if decide (k = N) then to_SE3 S else kf_pose (kfs w k).
Proof.
  rewrite correct_keyframe_unfold. cbv zeta. cbn [fst snd].
  pose proof (fold_correct_point (kf_id (kfs w cur)) (kf_id (kfs w N))
                (sim3_mul (sim3_inv S) (default sim3_default (SMap.find N NC)))
                (kf_mapPoints (kfs w N)) w log) as (Hk & _).
  cbv zeta in Hk. simpl.
  destruct (decide (k = N)) as [->|Hne].
  - by rewrite fn_lookup_insert.
  - rewrite fn_lookup_insert_ne by done. by rewrite Hk.
Qed.

Lemma fold_correct_keyframe_pose env cur es w NC log :
  NoDup (keys es) ->
  let r := fold_left (correct_keyframe env cur) es (w, NC, log) in
  (forall N S, (N, S) ∈ es -> kf_pose (kfs r.1.1 N) = to_SE3 S)
  /\ (forall k, k ∉ keys es -> kf_pose (kfs r.1.1 k) = kf_pose (kfs w k)).
Proof.
  cbv zeta. revert w NC log. induction es as [|[N0 S0] es IH]; intros w NC log Hnd.
  - split; [|done]. intros N S H. by apply elem_of_nil in H.
  - cbn [fold_left]. unfold keys in Hnd. simpl in Hnd.
    apply NoDup_cons in Hnd as [Hnot Hnd].
    pose proof (correct_keyframe_pose env cur w NC log N0 S0) as Hp.
    destruct (correct_keyframe env cur (w, NC, log) (N0, S0)) as [[w1 NC1] log1].
    cbn [fst snd] in Hp. destruct (IH w1 NC1 log1 Hnd) as [I1 I2].
    split.
    + intros N S Hin. apply elem_of_cons in Hin as [Heq|Hin].
      * inversion Heq; subst. rewrite I2 by done. rewrite Hp. by rewrite decide_True.
      * by apply I1.
    + intros k Hk. unfold keys in Hk. simpl in Hk.
      apply not_elem_of_cons in Hk as [Hne Hk]. rewrite I2 by done.
      rewrite Hp. by rewrite decide_False.
Qed.

(** X19: the poses that the correction pass of [Correct] writes (source
    lines 579-613).  After the pass every connected keyframe, the current
    one included, has the pose [R | t/s] of its corrected Sim3; for the
    current keyframe that is the pose of the loop transform [Scw].  The
    pose of every other keyframe is left as it was. *)
Theorem corrected_keyframe_poses (env : Env) (currentKF : KFptr) (Scw : Sim3) (w : World) :
  let connectedKFs := kf_covisible (kfs w currentKF) ++ [currentKF] in
  let maps := propagate w currentKF Scw connectedKFs in
  let pass := correct_map_points env currentKF maps.1 maps.2 w in
  (forall N, N ∈ connectedKFs ->
     exists S, SMap.find N maps.1 = Some S
               /\ kf_pose (kfs pass.1.1 N) = to_SE3 S)
  /\ kf_pose (kfs pass.1.1 currentKF) = to_SE3 Scw
  /\ (forall k, k ∉ connectedKFs -> kf_pose (kfs pass.1.1 k) = kf_pose (kfs w k)).
Proof.
  intros connectedKFs maps pass.
  destruct (propagate_maps_sorted w currentKF Scw) as (Hnd & _ & Hkeys & _).
  fold connectedKFs in Hkeys. fold maps in Hnd, Hkeys. apply sorted_NoDup in Hnd.
  destruct (fold_correct_keyframe_pose env currentKF maps.1 w maps.2 [] Hnd) as [H1 H2].
  fold (correct_map_points env currentKF maps.1 maps.2 w) in H1, H2. fold pass in H1, H2.
  assert (Hfind : forall N, N ∈ connectedKFs ->
            exists S, SMap.find N maps.1 = Some S /\ kf_pose (kfs pass.1.1 N) = to_SE3 S).
  { intros N HN. destruct (SMap.find N maps.1) as [S|] eqn:Ef.
    - exists S. split; [done|]. apply H1. by apply find_elem.
    - exfalso. apply Hkeys in HN. by apply (find_None_keys N maps.1). }
  split; [done|]. split.
  - destruct (Hfind currentKF) as (S & Hs & Hp).
    { apply elem_of_app. right. by apply list_elem_of_singleton. }
    assert (Hc : SMap.find currentKF maps.1 = Some Scw).
    { unfold maps, propagate. rewrite propagate_fold_skip by (by right).
      simpl. by rewrite Nat.eqb_refl. }
    congruence.
  - intros k Hk. apply H2. intros Hin. by apply Hk, Hkeys.
Qed.

Lemma connections_step_entries env cs l w lc :
  let r := fold_left (connections_step env cs) l (w, lc) in
  forall k s, (k, s) ∈ r.2 ->
    (k, s) ∈ lc
    \/ (k ∈ l
        /\ exists w0,
             s = kf_connected (kfs (UpdateConnections (links env) k w0) k)
                   ∖ list_to_set (kf_covisible (kfs w0 k)) ∖ list_to_set cs).
Proof.
  cbv zeta. revert w lc. induction l as [|c l IH]; intros w lc k s H; [by left|].
  cbn [fold_left] in H. unfold connections_step at 2 in H.
  apply IH in H as [H|(Hk & w0 & Hs)].
  - apply elem_of_assign in H as [H|H]; [|by left].
    inversion H; subst. right. split; [apply list_elem_of_here|]. by exists w.
  - right. split; [by apply list_elem_of_further|]. by exists w0.
Qed.

(** X20: the loop connections handed to the essential-graph optimizer
    (source lines 661-676).  Every entry belongs to a connected keyframe
    and holds the links that this keyframe has after [UpdateConnections]
    less its covisible keyframes from before the update and less the
    connected keyframes: a loop connection never points into the group of
    the current keyframe, nor at the keyframe itself.  The loop writes no
    map point. *)
Theorem loop_connections_are_new_links (env : Env) (connectedKFs : list KFptr) (w : World) :
  let r := fold_left (connections_step env connectedKFs) connectedKFs (w, []) in
  (forall k s, (k, s) ∈ r.2 ->
     k ∈ connectedKFs
     /\ (exists w0,
           s = kf_connected (kfs (UpdateConnections (links env) k w0) k)
                 ∖ list_to_set (kf_covisible (kfs w0 k)) ∖ list_to_set connectedKFs)
     /\ (k ∉ s) /\ (forall n, n ∈ s -> n ∉ connectedKFs))
  /\ mps r.1 = mps w.
Proof.
  cbv zeta. split; [|apply (fold_connections_step_mps env connectedKFs connectedKFs (w, []))].
  intros k s H. apply connections_step_entries in H as [H|(Hk & w0 & Hs)].
  { by apply elem_of_nil in H. }
  split; [done|]. split; [by exists w0|].
  assert (Hout : forall n, n ∈ s -> n ∉ connectedKFs).
  { intros n Hn Hin. subst s. apply elem_of_difference in Hn as [_ Hn].
    apply Hn. by apply elem_of_list_to_set. }
  split; [|done]. intros Hin. by apply (Hout k).
Qed.

End CorrectorMore.

Section TaskRuns.
Import GlobalBA LoopCorrector Symbolic.

(** A loop between keyframes 1 and 5 is corrected while a bundle
    adjustment is running. *)
Lemma Correct_call_sequence_witness :
  let g := (Run 7 GlobalBA.new).1 in
  exists g' w' log,
    Correct Example.cenv true 1%nat Example.loop15 g Example.world = Some (g', w', log)
    /\ running_ g' = true /\ fullBAIdx_ g' = Int.incr (fullBAIdx_ g).
Proof.
  intros g.
  destruct (Correct Example.cenv true 1%nat Example.loop15 g Example.world)
    as [[[g' w'] log]|] eqn:E; [|vm_compute in E; discriminate].
  exists g', w', log. split; [reflexivity|].
  destruct (Correct_call_sequence Example.cenv true 1%nat Example.loop15 g g'
              Example.world w' log E)
    as (m & pass & _ & _ & _ & Hr & _ & _ & _ & Hi).
  split; [exact Hr|exact Hi].
Defined.

End TaskRuns.

(** ** The spanning-tree walk of the bundle-adjustment worker *)

Section Walk.
Context {G : Geometry}.
Import GlobalBA.

Lemma subtree_size_pos children n k : (1 <= subtree_size children n k)%nat.
Proof. destruct n; simpl; lia. Qed.

Lemma sum_list_with_le {A} (f g : A -> nat) l :
  (forall x, x ∈ l -> (f x <= g x)%nat) -> (sum_list_with f l <= sum_list_with g l)%nat.
Proof.
  induction l as [|a l IH]; intros H; simpl; [lia|].
  pose proof (H a (list_elem_of_here _ _)).
  assert (sum_list_with f l <= sum_list_with g l)%nat.
  { apply IH. intros x Hx. apply H. by apply list_elem_of_further. }
  lia.
Qed.

Lemma subtree_size_mono children n m k :
  (n <= m)%nat -> (subtree_size children n k <= subtree_size children m k)%nat.
Proof.
  revert m k. induction n as [|n IH]; intros m k Hle.
  - simpl. apply subtree_size_pos.
  - destruct m as [|m]; [lia|]. simpl. apply le_n_S. apply sum_list_with_le.
    intros x _. apply IH. lia.
Qed.

Lemma subtree_size_ext ch1 ch2 n k :
  (forall x, ch1 x = ch2 x) -> subtree_size ch1 n k = subtree_size ch2 n k.
Proof.
  intros H. revert k. induction n as [|n IH]; intros k; simpl; [done|].
  rewrite H. f_equal. induction (ch2 k) as [|a l IHl]; simpl; [done|].
  by rewrite IH, IHl.
Qed.

(** One turn of the walk, as the model runs it. *)
Lemma correct_keyframes_turn fuel loopKFId keyframe rest w :
  exists w2,
    correct_keyframes (S fuel) loopKFId (keyframe :: rest) w
    = correct_keyframes fuel loopKFId (rest ++ kf_children (kfs w keyframe)) w2
    /\ keyframes_moved w w2.
Proof.
  cbn [correct_keyframes].
  destruct (fold_correct_child_moved loopKFId keyframe
              (pose_inv (kf_pose (kfs w keyframe))) (kf_children (kfs w keyframe))
              w (keyframe :: rest)) as [H1 H2].
  destruct (fold_left _ _ _) as [w1 toCheck1]. cbn [fst snd] in H1, H2. subst toCheck1.
  eexists. split; [reflexivity|].
  eapply keyframes_moved_trans; [exact H1|]. by apply set_kf_moved.
Qed.

Lemma walk_terminates (ch : KFptr -> list KFptr) (rank : KFptr -> nat) loopKFId fuel :
  (forall k c, c ∈ ch k -> (rank c < rank k)%nat) ->
  forall toCheck w,
    (forall k, kf_children (kfs w k) = ch k) ->
    (sum_list_with (fun k => subtree_size ch (rank k) k) toCheck < fuel)%nat ->
    exists w', correct_keyframes fuel loopKFId toCheck w = Some w'.
Proof.
  intros Hrank. induction fuel as [|fuel IH]; intros toCheck w Hch Hm; [lia|].
  destruct toCheck as [|k rest]; [by eexists|].
  destruct (correct_keyframes_turn fuel loopKFId k rest w) as (w2 & -> & Hmv).
  apply IH.
  - intros x. destruct Hmv as (_ & _ & _ & _ & Hk).
    destruct (Hk x) as (_ & _ & _ & _ & Hc & _). by rewrite Hc.
  - rewrite Hch. simpl in Hm. rewrite sum_list_with_app.
    assert (Hsub : (sum_list_with (fun k0 => subtree_size ch (rank k0) k0) (ch k)
                    < subtree_size ch (rank k) k)%nat).
    { destruct (rank k) as [|n] eqn:En.
      - assert (Hnil : ch k = []).
        { destruct (ch k) as [|c cs] eqn:Ec; [done|].
          pose proof (Hrank k c) as Hc. rewrite Ec in Hc.
          specialize (Hc (list_elem_of_here _ _)). lia. }
        rewrite Hnil. simpl. lia.
      - cbn [subtree_size]. apply Nat.lt_succ_r. apply sum_list_with_le. intros x Hx.
        apply subtree_size_mono. pose proof (Hrank k x Hx). lia. }
    lia.
Qed.

Lemma walk_never_ends (C : KFptr -> Prop) (ch : KFptr -> list KFptr) loopKFId fuel :
  (forall k, C k -> exists c, c ∈ ch k /\ C c) ->
  forall toCheck w,
    (forall k, kf_children (kfs w k) = ch k) ->
    (exists k, k ∈ toCheck /\ C k) ->
    correct_keyframes fuel loopKFId toCheck w = None.
Proof.
  intros HC. induction fuel as [|fuel IH]; intros toCheck w Hch (k & Hk & Ck); [done|].
  destruct toCheck as [|h rest]; [by apply elem_of_nil in Hk|].
  destruct (correct_keyframes_turn fuel loopKFId h rest w) as (w2 & -> & Hmv).
  apply IH.
  - intros x. destruct Hmv as (_ & _ & _ & _ & Hx).
    destruct (Hx x) as (_ & _ & _ & _ & Hc & _). by rewrite Hc.
  - rewrite Hch. apply elem_of_cons in Hk as [->|Hk].
    + destruct (HC h Ck) as (c & Hc & Cc). exists c. split; [|done].
      apply elem_of_app. by right.
    + exists k. split; [|done]. apply elem_of_app. by left.
Qed.

(** X15: when the spanning-tree walk of [_Run] ends.  If the children
    links are ranked (every child has a smaller rank than its parent, as in
    a tree of finite depth), the walk returns, within the number of turns
    given by the sizes of the subtrees below the keyframes in the queue.
    If a keyframe in the queue belongs to a set of keyframes that each have
    a child in the set (a cycle of children links), the walk never
    returns, whatever the number of turns. *)
Theorem spanning_tree_walk_termination (loopKFId : Z) (toCheck : list KFptr)
    (w : World) :
  let ch := fun k => kf_children (kfs w k) in
  (forall rank : KFptr -> nat,
     (forall k c, c ∈ ch k -> (rank c < rank k)%nat) ->
     forall fuel,
       (sum_list_with (fun k => subtree_size ch (rank k) k) toCheck < fuel)%nat ->
       exists w', correct_keyframes fuel loopKFId toCheck w = Some w'
                  /\ keyframes_moved w w')
  /\ (forall C : KFptr -> Prop,
        (forall k, C k -> exists c, c ∈ ch k /\ C c) ->
        (exists k, k ∈ toCheck /\ C k) ->
        forall fuel, correct_keyframes fuel loopKFId toCheck w = None).
Proof.
  intros ch. split.
  - intros rank Hrank fuel Hfuel.
    destruct (walk_terminates ch rank loopKFId fuel Hrank toCheck w (fun _ => eq_refl) Hfuel)
      as [w' Hw'].
    exists w'. split; [done|]. by eapply correct_keyframes_moved.
  - intros C HC Hin fuel.
    exact (walk_never_ends C ch loopKFId fuel HC toCheck w (fun _ => eq_refl) Hin).
Qed.

(** X14: what a worker does when it comes back from the bundle
    adjustment.  On a map whose children links are ranked (a forest of
    finite depth), [_Run] returns.  It never writes [stop_], [fullBAIdx_]
    or the thread handle, and of the map it writes only keyframe poses with
    their bundle-adjustment members, world positions of listed map points
    that are not bad, and the big-change index.  If the worker is still
    current it ends with [running_ = false] and [finished_ = true]; it
    bumps the big-change index once and stops and releases the local mapper
    exactly when [stop_] is not set.  With [stop_] set it returns on every
    map, leaves the map as it is and makes no call. *)
Theorem _Run_effects (rank : KFptr -> nat) (fuel : nat) (loopKFId : Z) (g0 g : t)
    (w : World) :
  (forall k c, c ∈ kf_children (kfs w k) -> (rank c < rank k)%nat) ->
  (sum_list_with (fun k => subtree_size (fun k => kf_children (kfs w k)) (rank k) k)
     (keyFrameOrigins w) < fuel)%nat ->
  (exists g' w' log,
     _Run fuel loopKFId g0 g w = Some (g', w', log)
     /\ stop_ g' = stop_ g /\ fullBAIdx_ g' = fullBAIdx_ g /\ thread_ g' = thread_ g
     /\ (exists w1 w2, keyframes_moved w w1 /\ points_moved w1 w2
                        /\ (w' = w2 \/ w' = InformNewBigChange w2))
     /\ (fullBAIdx_ g0 = fullBAIdx_ g -> running_ g' = false /\ finished_ g' = true)
     /\ (fullBAIdx_ g0 = fullBAIdx_ g -> stop_ g = false ->
         bigChangeId w' = Int.incr (bigChangeId w)
         /\ log = [EvRequestStop; EvWaitStopped; EvRelease])
     /\ (fullBAIdx_ g0 <> fullBAIdx_ g -> g' = g /\ w' = w /\ log = [])
     /\ (stop_ g = true -> w' = w /\ log = []))
  /\ (stop_ g = true ->
      forall (fuel' : nat) (w0 : World),
        exists g', _Run fuel' loopKFId g0 g w0 = Some (g', w0, [])
                   /\ (fullBAIdx_ g0 = fullBAIdx_ g ->
                       running_ g' = false /\ finished_ g' = true)).
Proof.
  intros Hrank Hfuel. split.
  - destruct (walk_terminates (fun k => kf_children (kfs w k)) rank loopKFId fuel Hrank
                (keyFrameOrigins w) w (fun _ => eq_refl) Hfuel) as [w1 Ek].
    unfold _Run, epilogue.
    destruct (fullBAIdx_ g0 =? fullBAIdx_ g) eqn:Eidx; cbn [negb].
    2:{ apply Z.eqb_neq in Eidx. exists g, w, []. split; [done|].
        do 3 (split; [done|]). split.
        { exists w, w. split; [apply keyframes_moved_refl|].
          split; [apply points_moved_refl|by left]. }
        split; [done|]. split; [done|]. split; [done|]. done. }
    apply Z.eqb_eq in Eidx.
    destruct (stop_ g) eqn:Estop; cbn [negb].
    { eexists _, _, _. split; [reflexivity|]. simpl. do 3 (split; [done|]). split.
      { exists w, w. split; [apply keyframes_moved_refl|].
        split; [apply points_moved_refl|by left]. }
      split; [done|]. split; [done|]. split; [done|]. done. }
    rewrite Ek. eexists _, _, _. split; [reflexivity|]. simpl.
    do 3 (split; [done|]). split.
    { exists w1, (correct_mappoints loopKFId w1).
      split; [by eapply correct_keyframes_moved|].
      split; [apply correct_mappoints_moved|by right]. }
    split; [done|]. split.
    { intros _ _. split; [|done].
      pose proof (correct_mappoints_moved loopKFId w1) as (_ & _ & _ & B4 & _).
      pose proof (correct_keyframes_moved _ _ _ _ _ Ek) as (_ & _ & _ & A4 & _).
      by rewrite B4, A4. }
    split; [done|]. done.
  - intros Hstop fuel' w0. unfold _Run, epilogue. rewrite Hstop. cbn [negb].
    destruct (fullBAIdx_ g0 =? fullBAIdx_ g) eqn:Eidx; cbn [negb].
    + eexists. split; [reflexivity|]. done.
    + apply Z.eqb_neq in Eidx. eexists. split; [reflexivity|]. done.
Qed.

Lemma fold_correct_child_spec loopKFId keyframe Twc cs w q :
  NoDup cs -> keyframe ∉ cs ->
  let r := fold_left (correct_child loopKFId keyframe Twc) cs (w, q) in
  r.2 = q ++ cs
  /\ (forall x, x ∉ cs -> kfs r.1 x = kfs w x)
  /\ (forall c, c ∈ cs ->
        kfs r.1 c
        = if negb (kf_BAGlobalForKF (kfs w c) =? loopKFId)
          then set_TcwGBA (pose_mul (pose_mul (kf_pose (kfs w c)) Twc)
                                    (kf_TcwGBA (kfs w keyframe)))
                          loopKFId (kfs w c)
          else kfs w c).
Proof.
  cbv zeta. revert w q. induction cs as [|c cs IH]; intros w q Hnd Hk; cbn [fold_left].
  - split; [by rewrite app_nil_r|]. split; [done|]. intros c Hc. by apply elem_of_nil in Hc.
  - apply NoDup_cons in Hnd as [Hc Hnd]. apply not_elem_of_cons in Hk as [Hkc Hk].
    unfold correct_child at 2 4 6.
    set (w1 := if negb (kf_BAGlobalForKF (kfs w c) =? loopKFId)
               then set_kf c
                      (set_TcwGBA (pose_mul (pose_mul (kf_pose (kfs w c)) Twc)
                                            (kf_TcwGBA (kfs w keyframe)))
                                  loopKFId (kfs w c)) w
               else w).
    assert (Hother : forall x, x <> c -> kfs w1 x = kfs w x).
    { intros x Hx. unfold w1. destruct (negb _); [|done]. simpl.
      by rewrite fn_lookup_insert_ne. }
    assert (Hat : kfs w1 c
                  = if negb (kf_BAGlobalForKF (kfs w c) =? loopKFId)
                    then set_TcwGBA (pose_mul (pose_mul (kf_pose (kfs w c)) Twc)
                                              (kf_TcwGBA (kfs w keyframe)))
                                    loopKFId (kfs w c)
                    else kfs w c).
    { unfold w1. destruct (negb _); [|done]. simpl. by rewrite fn_lookup_insert. }
    destruct (IH w1 (q ++ [c]) Hnd Hk) as (I1 & I2 & I3).
    split; [by rewrite I1, <- app_assoc|]. split.
    + intros x Hx. apply not_elem_of_cons in Hx as [Hxc Hx].
      rewrite I2 by done. by apply Hother.
    + intros x Hx. apply elem_of_cons in Hx as [->|Hx].
      * rewrite I2 by done. exact Hat.
      * rewrite I3 by done.
        assert (x <> c) by (intros ->; done).
        rewrite !Hother by done. done.
Qed.

(** One turn keeps the state of the walk. *)
Lemma walked_turn loopKFId w0 roots visited k rest w fuel :
  (forall k, NoDup (kf_children (kfs w0 k))) ->
  (forall k1 k2 c, c ∈ kf_children (kfs w0 k1) -> c ∈ kf_children (kfs w0 k2) -> k1 = k2) ->
  (forall k c, c ∈ kf_children (kfs w0 k) -> c ∉ roots) ->
  walked loopKFId w0 roots visited (k :: rest) w ->
  exists w2,
    correct_keyframes (S fuel) loopKFId (k :: rest) w
    = correct_keyframes fuel loopKFId (rest ++ kf_children (kfs w0 k)) w2
    /\ walked loopKFId w0 roots (visited ++ [k]) (rest ++ kf_children (kfs w0 k)) w2.
Proof.
  intros Hnd Huniq Hroots
    (Hmv & Hq & Hprov & Hreach & Hr & Hch & Hfresh & Hpose & Hdone & Hprop & Hroot).
  assert (Hchildren : kf_children (kfs w k) = kf_children (kfs w0 k)).
  { destruct Hmv as (_ & _ & _ & _ & Hk). by destruct (Hk k) as (_ & _ & _ & _ & ? & _). }
  set (cs := kf_children (kfs w0 k)) in *.
  assert (Hk_in : k ∈ visited ++ k :: rest).
  { apply elem_of_app. right. apply list_elem_of_here. }
  assert (Hk_notvisited : k ∉ visited).
  { intros Hin. apply NoDup_app in Hq as (_ & Hdis & _). apply (Hdis k Hin).
    apply list_elem_of_here. }
  assert (Hcs_fresh : forall c, c ∈ cs -> c ∉ visited ++ k :: rest).
  { intros c Hc Hin. destruct (Hprov c Hin) as [Hroot'|(p & Hp & Hcp)].
    - by apply (Hroots k c).
    - assert (p = k) by (by apply (Huniq p k c)). by subst p. }
  assert (Hk_cs : k ∉ cs) by (intros Hin; by apply (Hcs_fresh k Hin)).
  cbn [correct_keyframes]. rewrite Hchildren.
  destruct (fold_correct_child_spec loopKFId k (pose_inv (kf_pose (kfs w k))) cs w
              (k :: rest) (Hnd k) Hk_cs) as (F1 & F2 & F3).
  destruct (fold_correct_child_moved loopKFId k (pose_inv (kf_pose (kfs w k))) cs w
              (k :: rest)) as [Hmv1 _].
  destruct (fold_left (correct_child loopKFId k (pose_inv (kf_pose (kfs w k)))) cs
              (w, k :: rest)) as [w1 q1].
  cbn [fst snd] in F1, F2, F3, Hmv1. subst q1. cbn [tail app].
  eexists. split; [reflexivity|].
  set (w2 := set_kf k (SetPose (kf_TcwGBA (set_TcwBefGBA (kf_pose (kfs w1 k)) (kfs w1 k)))
                          (set_TcwBefGBA (kf_pose (kfs w1 k)) (kfs w1 k))) w1).
  assert (Hw1k : kfs w1 k = kfs w k) by (by apply F2).
  assert (Hw2k : kfs w2 k = SetPose (kf_TcwGBA (kfs w k))
                              (set_TcwBefGBA (kf_pose (kfs w k)) (kfs w k))).
  { unfold w2. simpl. rewrite fn_lookup_insert. by rewrite Hw1k. }
  assert (Hw2o : forall x, x <> k -> kfs w2 x = kfs w1 x).
  { intros x Hx. unfold w2. simpl. by rewrite fn_lookup_insert_ne. }
  assert (Hold : forall x, x ∉ cs ->
            kf_TcwGBA (kfs w2 x) = kf_TcwGBA (kfs w x)
            /\ kf_BAGlobalForKF (kfs w2 x) = kf_BAGlobalForKF (kfs w x)).
  { intros x Hx. destruct (decide (x = k)) as [->|Hne].
    - by rewrite Hw2k.
    - by rewrite Hw2o, F2. }
  assert (Hin_old : forall x, x ∈ visited ++ k :: rest -> x ∉ cs).
  { intros x Hx Hc. by apply (Hcs_fresh x Hc). }
  assert (Hall : forall x, x ∈ (visited ++ [k]) ++ rest ++ cs
                           <-> x ∈ visited ++ k :: rest \/ x ∈ cs).
  { intros x. rewrite !elem_of_app, !elem_of_cons, elem_of_nil. tauto. }
  unfold walked. split.
  { eapply keyframes_moved_trans; [exact Hmv|].
    eapply keyframes_moved_trans; [exact Hmv1|]. by apply set_kf_moved. }
  split.
  { rewrite <- app_assoc. cbn [app].
    replace (visited ++ k :: rest ++ cs) with ((visited ++ k :: rest) ++ cs)
      by (by rewrite <- app_assoc).
    apply NoDup_app. split; [done|]. split; [|apply Hnd].
    intros x Hx Hc. by apply (Hcs_fresh x Hc). }
  split.
  { intros x Hx. apply Hall in Hx as [Hx|Hx].
    - destruct (Hprov x Hx) as [?|(p & Hp & Hxp)]; [by left|right].
      exists p. split; [|done]. apply elem_of_app. by left.
    - right. exists k. split; [|done]. apply elem_of_app. right.
      by apply list_elem_of_singleton. }
  split.
  { intros x Hx. apply Hall in Hx as [Hx|Hx]; [by apply Hreach|].
    eapply reachable_child; [by apply Hreach|done]. }
  split.
  { intros r Hr'. apply Hall. left. by apply Hr. }
  split.
  { intros p c Hp Hc. apply Hall. apply elem_of_app in Hp as [Hp|Hp].
    - left. by eapply Hch.
    - apply list_elem_of_singleton in Hp. subst p. by right. }
  split.
  { intros x Hx. rewrite Hall in Hx.
    assert (x <> k) by (intros ->; apply Hx; by left).
    rewrite Hw2o by done. rewrite F2 by tauto. apply Hfresh. tauto. }
  split.
  { intros x Hx. rewrite elem_of_app, list_elem_of_singleton in Hx.
    assert (x <> k) by tauto. assert (x ∉ visited) by tauto.
    rewrite Hw2o by done. destruct (decide (x ∈ cs)) as [Hc|Hc].
    - rewrite (F3 x Hc). destruct (Hpose x) as [P1 P2]; [done|].
      destruct (negb _); simpl; done.
    - rewrite F2 by done. by apply Hpose. }
  split.
  { intros x Hx. apply elem_of_app in Hx as [Hx|Hx].
    - assert (x <> k) by (intros ->; done).
      rewrite Hw2o by done. rewrite F2; [by apply Hdone|].
      apply Hin_old. apply elem_of_app. by left.
    - apply list_elem_of_singleton in Hx. subst x. rewrite Hw2k. simpl.
      split; [done|]. by apply Hpose. }
  split.
  { intros p c Hp Hc. unfold propagated. apply elem_of_app in Hp as [Hp|Hp].
    - destruct (Hprop p c Hp Hc) as [B T].
      assert (Hc_old : c ∉ cs) by (apply Hin_old; by eapply Hch).
      assert (Hp_old : p ∉ cs) by (apply Hin_old; apply elem_of_app; by left).
      destruct (Hold c Hc_old) as [-> ->]. destruct (Hold p Hp_old) as [-> _]. done.
    - apply list_elem_of_singleton in Hp. subst p. fold cs in Hc.
      assert (c <> k) by (intros ->; done).
      rewrite Hw2o by done. rewrite (F3 c Hc).
      assert (Hc0 : kfs w c = kfs w0 c) by (apply Hfresh; by apply Hcs_fresh).
      destruct (Hold k Hk_cs) as [-> _].
      destruct (Hpose k Hk_notvisited) as [-> _].
      rewrite Hc0.
      destruct (kf_BAGlobalForKF (kfs w0 c) =? loopKFId) eqn:E; simpl.
      + apply Z.eqb_eq in E. done.
      + done. }
  intros r Hr'.
  assert (r ∉ cs) by (apply Hin_old; by apply Hr).
  destruct (Hold r H) as [-> ->]. by apply Hroot.
Qed.

Lemma walked_run loopKFId w0 roots fuel :
  (forall k, NoDup (kf_children (kfs w0 k))) ->
  (forall k1 k2 c, c ∈ kf_children (kfs w0 k1) -> c ∈ kf_children (kfs w0 k2) -> k1 = k2) ->
  (forall k c, c ∈ kf_children (kfs w0 k) -> c ∉ roots) ->
  forall visited toCheck w w',
    walked loopKFId w0 roots visited toCheck w ->
    correct_keyframes fuel loopKFId toCheck w = Some w' ->
    exists visited', walked loopKFId w0 roots visited' [] w'.
Proof.
  intros Hnd Huniq Hroots.
  induction fuel as [|fuel IH]; intros visited toCheck w w' Hw Hrun; [done|].
  destruct toCheck as [|k rest].
  - simpl in Hrun. inversion Hrun; subst. by exists visited.
  - destruct (walked_turn loopKFId w0 roots visited k rest w fuel Hnd Huniq Hroots Hw)
      as (w2 & Heq & Hw2).
    rewrite Heq in Hrun. by eapply IH.
Qed.

Lemma walked_start loopKFId w0 roots :
  NoDup roots -> walked loopKFId w0 roots [] roots w0.
Proof.
  intros Hr. unfold walked. cbn [app]. split; [apply keyframes_moved_refl|].
  split; [done|]. split; [by left|]. split; [by constructor|]. split; [done|].
  split; [intros p c Hp; by apply elem_of_nil in Hp|]. split; [done|].
  split; [done|]. split; [intros k Hk; by apply elem_of_nil in Hk|].
  split; [intros p c Hp; by apply elem_of_nil in Hp|]. done.
Qed.

Lemma walked_all_reachable loopKFId w0 roots visited w :
  walked loopKFId w0 roots visited [] w ->
  forall k, reachable w0 roots k <-> k ∈ visited.
Proof.
  intros (_ & _ & _ & Hreach & Hin & Hch & _). rewrite app_nil_r in *.
  intros k. split; [|apply Hreach].
  induction 1 as [k Hk|k c _ IH Hc]; [by apply Hin|]. by eapply Hch.
Qed.

(** X21: what the spanning-tree walk of [_Run] leaves when the children
    links form a forest of finite depth below the origins (they are ranked,
    no origin is repeated, no child is listed twice, no keyframe has two
    parents, no origin is a child).  The walk returns.  Every keyframe
    reachable from the origins gets its pose from before the walk saved in
    [TcwBefGBA] and its [TcwGBA] as new pose.  The origins keep their
    [TcwGBA] and stamp.  Every child of a reachable keyframe ends stamped
    with [loopKFId]; if the optimizer had not stamped it, its [TcwGBA] is
    its old pose relative to the old pose of its parent, applied to the
    [TcwGBA] of the parent; otherwise its [TcwGBA] is kept.  Keyframes that
    are not reachable are untouched. *)
Theorem spanning_tree_walk_propagates_correction (rank : KFptr -> nat) (loopKFId : Z)
    (w0 : World) (roots : list KFptr) (fuel : nat) :
  NoDup roots ->
  (forall k, NoDup (kf_children (kfs w0 k))) ->
  (forall k1 k2 c, c ∈ kf_children (kfs w0 k1) -> c ∈ kf_children (kfs w0 k2) -> k1 = k2) ->
  (forall k c, c ∈ kf_children (kfs w0 k) -> c ∉ roots) ->
  (forall k c, c ∈ kf_children (kfs w0 k) -> (rank c < rank k)%nat) ->
  (sum_list_with (fun k => subtree_size (fun k => kf_children (kfs w0 k)) (rank k) k)
     roots < fuel)%nat ->
  exists w',
    correct_keyframes fuel loopKFId roots w0 = Some w'
    /\ (forall k, reachable w0 roots k ->
          kf_TcwBefGBA (kfs w' k) = kf_pose (kfs w0 k)
          /\ kf_pose (kfs w' k) = kf_TcwGBA (kfs w' k))
    /\ (forall r, r ∈ roots ->
          kf_TcwGBA (kfs w' r) = kf_TcwGBA (kfs w0 r)
          /\ kf_BAGlobalForKF (kfs w' r) = kf_BAGlobalForKF (kfs w0 r))
    /\ (forall p c, reachable w0 roots p -> c ∈ kf_children (kfs w0 p) ->
          propagated loopKFId w0 w' p c)
    /\ (forall k, ~ reachable w0 roots k -> kfs w' k = kfs w0 k).
Proof.
  intros Hr Hnd Huniq Hroots Hrank Hfuel.
  destruct (walk_terminates (fun k => kf_children (kfs w0 k)) rank loopKFId fuel Hrank
              roots w0 (fun _ => eq_refl) Hfuel) as [w' Hrun].
  exists w'. split; [done|].
  destruct (walked_run loopKFId w0 roots fuel Hnd Huniq Hroots [] roots w0 w'
              (walked_start loopKFId w0 roots Hr) Hrun) as (visited & Hw).
  pose proof (walked_all_reachable loopKFId w0 roots visited w' Hw) as Hall.
  destruct Hw as (_ & _ & _ & _ & _ & _ & Hfresh & _ & Hdone & Hprop & Hroot).
  rewrite app_nil_r in *.
  split.
  { intros k Hk. apply Hall in Hk. destruct (Hdone k Hk) as [? ?]. done. }
  split; [done|]. split.
  { intros p c Hp Hc. apply Hprop; [by apply Hall|done]. }
  intros k Hk. apply Hfresh. intros Hin'. by apply Hk, Hall.
Qed.

(** X23: a completed bundle adjustment moves a map point with its
    reference keyframe.  A current, unstopped worker that comes back on a
    map whose children links form a forest of finite depth below the
    origins returns, and a listed map point that is not bad and was not
    optimized, whose reference keyframe is a child of a reachable keyframe,
    gets its position expressed in the camera frame of the reference
    keyframe before the correction and mapped back to the world with the
    corrected pose of that keyframe, which is its [TcwGBA]. *)
Theorem completed_GBA_moves_points_with_reference_keyframe
    (rank : KFptr -> nat) (fuel : nat) (loopKFId : Z) (g0 g : t) (w : World)
    (P : MPptr) (p : KFptr) :
  NoDup (keyFrameOrigins w) ->
  (forall k, NoDup (kf_children (kfs w k))) ->
  (forall k1 k2 c, c ∈ kf_children (kfs w k1) -> c ∈ kf_children (kfs w k2) -> k1 = k2) ->
  (forall k c, c ∈ kf_children (kfs w k) -> c ∉ keyFrameOrigins w) ->
  (forall k c, c ∈ kf_children (kfs w k) -> (rank c < rank k)%nat) ->
  (sum_list_with (fun k => subtree_size (fun k => kf_children (kfs w k)) (rank k) k)
     (keyFrameOrigins w) < fuel)%nat ->
  NoDup (allMapPoints w) ->
  fullBAIdx_ g0 = fullBAIdx_ g -> stop_ g = false ->
  P ∈ allMapPoints w -> mp_isBad (mps w P) = false ->
  mp_BAGlobalForKF (mps w P) <> loopKFId ->
  reachable w (keyFrameOrigins w) p ->
  mp_referenceKF (mps w P) ∈ kf_children (kfs w p) ->
  let ref := mp_referenceKF (mps w P) in
  let Xc := vec_add (rot_apply (pose_R (kf_pose (kfs w ref))) (mp_worldPos (mps w P)))
                    (pose_t (kf_pose (kfs w ref))) in
  exists g' w' log,
    _Run fuel loopKFId g0 g w = Some (g', w', log)
    /\ (let Twc := pose_inv (kf_pose (kfs w' ref)) in
        mp_worldPos (mps w' P) = vec_add (rot_apply (pose_R Twc) Xc) (pose_t Twc)
        /\ mps w' P
           = SetWorldPos (vec_add (rot_apply (pose_R Twc) Xc) (pose_t Twc)) (mps w P))
    /\ kf_pose (kfs w' ref) = kf_TcwGBA (kfs w' ref)
    /\ kf_TcwBefGBA (kfs w' ref) = kf_pose (kfs w ref).
Proof.
  intros Hr Hnd Huniq Hroots Hrank Hfuel Hpts Hidx Hstop HP Hbad Hopt Hp Href ref Xc.
  destruct (walk_terminates (fun k => kf_children (kfs w k)) rank loopKFId fuel Hrank
              (keyFrameOrigins w) w (fun _ => eq_refl) Hfuel) as [w1 Ek].
  unfold _Run, epilogue.
  rewrite Hidx, Z.eqb_refl, Hstop. cbn [negb]. rewrite Ek.
  eexists _, _, _. split; [reflexivity|].
  destruct (walked_run loopKFId w (keyFrameOrigins w) fuel Hnd Huniq Hroots []
              (keyFrameOrigins w) w w1 (walked_start loopKFId w _ Hr) Ek) as (visited & Hw).
  pose proof (walked_all_reachable loopKFId w _ visited w1 Hw) as Hall.
  destruct Hw as (Hmv & _ & _ & _ & _ & Hch & _ & _ & Hdone & Hprop & _).
  rewrite app_nil_r in *.
  destruct Hmv as (Hmps & _ & Hlist & _).
  assert (Hp' : p ∈ visited) by (by apply Hall).
  destruct (Hprop p ref Hp' Href) as [Hstamp _].
  destruct (Hdone ref (Hch p ref Hp' Href)) as [Hpose Hbef].
  assert (Hkfs : kfs (InformNewBigChange (correct_mappoints loopKFId w1)) = kfs w1).
  { simpl. unfold correct_mappoints. apply fold_correct_mappoint_kfs. }
  rewrite Hkfs. split; [|done].
  assert (Hpt : mps (InformNewBigChange (correct_mappoints loopKFId w1)) P
                = SetWorldPos
                    (vec_add (rot_apply (pose_R (pose_inv (kf_pose (kfs w1 ref)))) Xc)
                             (pose_t (pose_inv (kf_pose (kfs w1 ref))))) (mps w P)).
  { simpl. unfold correct_mappoints.
    rewrite fold_correct_mappoint_at by (rewrite Hlist; done).
    unfold correct_mappoint. rewrite Hmps. rewrite Hbad.
    rewrite (proj2 (Z.eqb_neq _ _) Hopt). fold ref. rewrite Hstamp, Z.eqb_refl.
    cbn [negb]. simpl. rewrite fn_lookup_insert. rewrite Hbef. done. }
  cbv zeta. rewrite Hpt. done.
Qed.

End Walk.

Section WalkRuns.
Import GlobalBA Symbolic MoreExamples.

Lemma tree_children k :
  kf_children (kfs tree_world k)
  = match k with 1%nat => [2%nat; 3%nat] | 2%nat => [4%nat] | _ => [] end.
Proof. reflexivity. Qed.

Lemma tree_children_NoDup k : NoDup (kf_children (kfs tree_world k)).
Proof.
  rewrite tree_children. destruct k as [|[|[|k]]].
  - constructor.
  - apply NoDup_cons. split; [rewrite list_elem_of_singleton; lia|apply NoDup_singleton].
  - apply NoDup_singleton.
  - constructor.
Qed.

Lemma tree_child_cases k c :
  c ∈ kf_children (kfs tree_world k) ->
  (k = 1%nat /\ (c = 2%nat \/ c = 3%nat)) \/ (k = 2%nat /\ c = 4%nat).
Proof.
  rewrite tree_children. destruct k as [|[|[|k]]]; intros H;
    try (by apply elem_of_nil in H).
  - left. split; [done|]. apply elem_of_cons in H as [?|H]; [by left|].
    apply list_elem_of_singleton in H. by right.
  - right. split; [done|]. by apply list_elem_of_singleton in H.
Qed.

Lemma tree_one_parent k1 k2 c :
  c ∈ kf_children (kfs tree_world k1) -> c ∈ kf_children (kfs tree_world k2) -> k1 = k2.
Proof.
  intros H1 H2. apply tree_child_cases in H1, H2. lia.
Qed.

Lemma tree_origin_is_no_child k c :
  c ∈ kf_children (kfs tree_world k) -> c ∉ [1%nat].
Proof.
  intros H Hin. apply tree_child_cases in H. apply list_elem_of_singleton in Hin. lia.
Qed.

Lemma tree_ranked k c :
  c ∈ kf_children (kfs tree_world k) -> (tree_rank c < tree_rank k)%nat.
Proof.
  intros H. apply tree_child_cases in H as [[-> [->| ->]]|[-> ->]]; simpl; lia.
Qed.

Lemma tree_fuel :
  (sum_list_with
     (fun k => subtree_size (fun k => kf_children (kfs tree_world k)) (tree_rank k) k)
     (keyFrameOrigins tree_world) < 10)%nat.
Proof. vm_compute. lia. Qed.

(** The walk on the tree 1 -> {2, 3}, 2 -> {4}: keyframe 4 is reached
    through keyframe 2. *)
Lemma spanning_tree_walk_propagates_correction_witness :
  exists w',
    correct_keyframes 10 7 [1%nat] tree_world = Some w'
    /\ kf_TcwBefGBA (kfs w' 4%nat) = Atom 104
    /\ kf_pose (kfs w' 4%nat) = kf_TcwGBA (kfs w' 4%nat)
    /\ kf_TcwGBA (kfs w' 4%nat)
       = pose_mul (pose_mul (Atom 104) (pose_inv (Atom 102))) (kf_TcwGBA (kfs w' 2%nat)).
Proof.
  assert (Hnd : NoDup [1%nat]) by apply NoDup_singleton.
  destruct (spanning_tree_walk_propagates_correction tree_rank 7 tree_world [1%nat] 10
              Hnd tree_children_NoDup tree_one_parent tree_origin_is_no_child
              tree_ranked tree_fuel)
    as (w' & Hrun & H1 & _ & H3 & _).
  exists w'. split; [exact Hrun|].
  assert (R1 : reachable tree_world [1%nat] 1%nat).
  { apply reachable_root. apply list_elem_of_here. }
  assert (R2 : reachable tree_world [1%nat] 2%nat).
  { apply (reachable_child _ _ 1%nat); [exact R1|]. apply list_elem_of_here. }
  assert (R4 : reachable tree_world [1%nat] 4%nat).
  { apply (reachable_child _ _ 2%nat); [exact R2|]. apply list_elem_of_here. }
  destruct (H1 4%nat R4) as [Ha Hb].
  split; [exact Ha|]. split; [exact Hb|].
  assert (Hc : 4%nat ∈ kf_children (kfs tree_world 2%nat)) by apply list_elem_of_here.
  exact (proj2 (H3 2%nat 4%nat R2 Hc)).
Defined.

(** A worker started for loop keyframe 7 comes back while it is current,
    on the tree. *)
Lemma _Run_effects_witness :
  let g := (Run 7 GlobalBA.new).1 in
  exists g' w' log,
    _Run 10 7 g g tree_world = Some (g', w', log)
    /\ running_ g' = false /\ finished_ g' = true
    /\ bigChangeId w' = Int.incr (bigChangeId tree_world)
    /\ log = [EvRequestStop; EvWaitStopped; EvRelease].
Proof.
  intros g.
  destruct (proj1 (_Run_effects tree_rank 10 7 g g tree_world tree_ranked tree_fuel))
    as (g' & w' & log & Hrun & _ & _ & _ & _ & H5 & H6 & _).
  exists g', w', log. split; [exact Hrun|].
  destruct (H5 eq_refl) as [Hr Hf]. destruct (H6 eq_refl eq_refl) as [Hb Hl].
  split; [exact Hr|]. split; [exact Hf|]. split; [exact Hb|exact Hl].
Defined.

Lemma tree_points_NoDup : NoDup (allMapPoints tree_world).
Proof. refine (bool_decide_unpack _ _). vm_compute. exact I. Qed.

(** Map point 3 refers to keyframe 3, a child of the origin. *)
Lemma completed_GBA_moves_points_with_reference_keyframe_witness :
  let g := (Run 7 GlobalBA.new).1 in
  exists g' w' log,
    _Run 10 7 g g tree_world = Some (g', w', log)
    /\ mp_worldPos (mps tree_world 3%nat) = Atom 403
    /\ mp_worldPos (mps w' 3%nat)
       = vec_add (rot_apply (pose_R (pose_inv (kf_pose (kfs w' 3%nat))))
                    (vec_add (rot_apply (pose_R (Atom 103)) (Atom 403))
                             (pose_t (Atom 103))))
                 (pose_t (pose_inv (kf_pose (kfs w' 3%nat))))
    /\ kf_pose (kfs w' 3%nat) = kf_TcwGBA (kfs w' 3%nat).
Proof.
  intros g.
  assert (Hnd : NoDup (keyFrameOrigins tree_world)) by apply NoDup_singleton.
  assert (R1 : reachable tree_world (keyFrameOrigins tree_world) 1%nat).
  { apply reachable_root. apply list_elem_of_here. }
  assert (Hin : 3%nat ∈ allMapPoints tree_world).
  { apply list_elem_of_further, list_elem_of_further, list_elem_of_here. }
  assert (Hopt : mp_BAGlobalForKF (mps tree_world 3%nat) <> 7) by (simpl; lia).
  assert (Href : mp_referenceKF (mps tree_world 3%nat) ∈ kf_children (kfs tree_world 1%nat)).
  { apply list_elem_of_further, list_elem_of_here. }
  destruct (completed_GBA_moves_points_with_reference_keyframe tree_rank 10 7 g g
              tree_world 3%nat 1%nat Hnd tree_children_NoDup tree_one_parent
              tree_origin_is_no_child tree_ranked tree_fuel tree_points_NoDup
              eq_refl eq_refl Hin eq_refl Hopt R1 Href)
    as (g' & w' & log & Hrun & [Hpos _] & Hpose & _).
  exists g', w', log. split; [exact Hrun|]. split; [reflexivity|].
  split; [exact Hpos|exact Hpose].
Defined.

End WalkRuns.

(** ** System::MapChanged *)

Section MapChangedFacts.
Import System.

Lemma MapChanged_calls_cons n c rest :
  MapChanged_calls n (c :: rest)
  = ((MapChanged n c).1 :: (MapChanged_calls (MapChanged n c).2 rest).1,
     (MapChanged_calls (MapChanged n c).2 rest).2).
Proof.
  cbn [MapChanged_calls]. destruct (MapChanged n c) as [b n1]. cbn [fst snd].
  destruct (MapChanged_calls n1 rest) as [bs n2]. reflexivity.
Qed.

Lemma MapChanged_calls_spec n readings :
  let r := MapChanged_calls n readings in
  r.2 = fold_left Z.max readings n
  /\ length r.1 = length readings
  /\ forall i curn, readings !! i = Some curn ->
       r.1 !! i = Some (bool_decide (fold_left Z.max (take i readings) n < curn)).
Proof.
  cbv zeta. revert n. induction readings as [|c rest IH]; intros n.
  - simpl. split; [done|]. split; [done|]. intros i curn H. by destruct i.
  - rewrite MapChanged_calls_cons. cbn [fst snd fold_left length].
    assert (Hn : (MapChanged n c).2 = Z.max n c
                 /\ (MapChanged n c).1 = bool_decide (n < c)).
    { unfold MapChanged. destruct (n <? c) eqn:E; simpl.
      - apply Z.ltb_lt in E. rewrite bool_decide_true by done. split; [lia|done].
      - apply Z.ltb_ge in E. rewrite bool_decide_false by lia. split; [lia|done]. }
    destruct Hn as [-> ->]. destruct (IH (Z.max n c)) as (I1 & I2 & I3).
    split; [done|]. split; [by rewrite I2|].
    intros [|i] curn H; cbn [lookup list_lookup take fold_left] in *.
    + by inversion H; subst.
    + by apply I3.
Qed.

(** X22: [System::MapChanged] answers true exactly when the big-change
    index it reads is greater than its counter, and the counter is always
    the greatest index read so far (or its initial value): over any
    sequence of calls, a call answers true if and only if its reading
    exceeds the initial counter and every earlier reading.  So a second
    call on an unchanged index answers false, several changes between two
    calls are reported as one, and an index that does not exceed an earlier
    one is not reported. *)
Theorem MapChanged_reports_new_maxima (n : Z) (readings : list Z) :
  let r := MapChanged_calls n readings in
  r.2 = fold_left Z.max readings n
  /\ length r.1 = length readings
  /\ (forall i curn, readings !! i = Some curn ->
        r.1 !! i = Some (bool_decide (fold_left Z.max (take i readings) n < curn)))
  /\ (forall i curn b, readings !! i = Some curn -> readings !! S i = Some curn ->
        r.1 !! S i = Some b -> b = false).
Proof.
  cbv zeta. destruct (MapChanged_calls_spec n readings) as (H1 & H2 & H3).
  cbv zeta in H1, H2, H3. split; [done|]. split; [done|]. split; [done|].
  intros i curn b Hi HSi Hb. rewrite (H3 (S i) curn HSi) in Hb. inversion Hb; subst.
  apply bool_decide_false.
  rewrite (take_S_r readings i curn Hi), fold_left_app. simpl. lia.
Qed.

End MapChangedFacts.
